(** * A shallow embedding of the graph storage library

    The library stores the nodes and edges of a graph in block-allocated
    arrays ([my_array::Array]) whose elements never move, and lets edges and
    the adjacency matrix hold raw pointers into those arrays.  The embedding
    keeps that structure: memory is a store of blocks, a pointer is a block
    address with an offset, and every member function is a state transformer
    that may return, throw, or have undefined behaviour.

    Conventions.
    - [size_t] values are numbers in [N].  Counters never come near [2^64]
      on the states considered (every counted element occupies memory), so
      the arithmetic of the source is written without wrap-around; the only
      subtraction of the source that could wrap, in [free_space_count_],
      is shown not to underflow on well-formed arrays.
    - The allocator is scripted: each allocation attempt consumes one entry
      of a list of booleans, [false] meaning that the attempt fails with
      [std::bad_alloc]; an exhausted script means that memory is available.
    - The back-pointer [graph_] of [Nodes] and [Edges] is implicit: their
      member functions run in the state of the owning graph. *)

From Stdlib Require Import NArith ZArith Lia String Ascii DecimalString DecimalN DecimalPos.
From stdpp Require Import base numbers option list strings.

Set Default Proof Using "Type".
Local Open Scope N_scope.

(** ** Results of running a member function *)

Inductive exception : Set :=
| NonexistingItemException
| ConflictingItemException
| InvalidIdentifierException
| UnavailableMemoryException
| FileProcessingException
| InvalidStreamException
| ParsingException
| OutOfRangeException
| EmptyArrayException
| std_bad_alloc.

(** [Ok s a]: normal return of [a] in final state [s].  [Throw s e]: the
    exception [e] leaves the function, [s] being the state at that point.
    [Undefined]: the execution has no defined behaviour (a vector or block
    indexed out of range, a null pointer dereferenced, a division by zero)
    or does not terminate. *)
Inductive result (S A : Type) : Type :=
| Ok (s : S) (a : A)
| Throw (s : S) (e : exception)
| Undefined.
Arguments Ok {S A} s a.
Arguments Throw {S A} s e.
Arguments Undefined {S A}.

Definition M (S A : Type) : Type := S -> result S A.

Definition ret {S A} (a : A) : M S A := fun s => Ok s a.

Definition bind {S A B} (m : M S A) (k : A -> M S B) : M S B :=
  fun s => match m s with
           | Ok s' a => k a s'
           | Throw s' e => Throw s' e
           | Undefined => Undefined
           end.

Definition throw {S A} (e : exception) : M S A := fun s => Throw s e.

Definition undefined {S A} : M S A := fun _ => Undefined.

Definition gets {S A} (f : S -> A) : M S A := fun s => Ok s (f s).

Definition modify {S} (f : S -> S) : M S unit := fun s => Ok (f s) tt.

(** [try { m } catch (...) { handler }] *)
Definition try_catch {S A} (m : M S A) (handler : M S A) : M S A :=
  fun s => match m s with
           | Throw s' _ => handler s'
           | r => r
           end.

(** Running a member function of a sub-object inside a larger state. *)
Definition zoom {S T A} (get : S -> T) (set : T -> S -> S) (m : M T A) : M S A :=
  fun s => match m (get s) with
           | Ok t a => Ok (set t s) a
           | Throw t e => Throw (set t s) e
           | Undefined => Undefined
           end.

Definition from_option {S A} (o : option A) : M S A :=
  match o with Some a => ret a | None => undefined end.

Notation "'let*' x ':=' m 'in' k" := (bind m (fun x => k))
  (at level 10, x name, m at level 100, k at level 200).
Notation "m ';;;' k" := (bind m (fun _ => k))
  (at level 100, k at level 200, right associativity).

(** [for (size_t i = from; i < from + count; i++) body(i)] *)
Fixpoint for_from {S} (count : nat) (from : N) (body : N -> M S unit) : M S unit :=
  match count with
  | O => ret tt
  | S count' => body from ;;; for_from count' (from + 1) body
  end.

Definition for_ {S} (n : N) (body : N -> M S unit) : M S unit :=
  for_from (N.to_nat n) 0 body.

(** One allocation attempt against the scripted allocator. *)
Definition alloc_attempt (script : list bool) : bool * list bool :=
  match script with
  | [] => (true, [])
  | b :: rest => (b, rest)
  end.

Definition SIZE_MAX : N := 18446744073709551615.

(** A pointer to an element: the address of its block and its offset. *)
Definition ptr : Type := nat * nat.

(** ** Array.h *)

Record Array : Type := mkArray {
  data_ : list nat;          (* std::vector<std::unique_ptr<element[]>> *)
  block_size_ : N;
  element_count_ : N
}.

Definition DEFAULT_BLOCK_SIZE : N := 10.

Section ArrayOps.
Context {element : Type}.
(** [element()], the value a new block is filled with *)
Variable value_init : element.
(** what [~element()] leaves in the slot it runs on *)
Variable destroy : element -> element.

(** The state an [Array] member function runs in: the allocator, the
    blocks of this element type, and the object itself. *)
Record AState : Type := mkAState {
  a_script : list bool;
  a_heap : list (list element);
  a_this : Array
}.

Definition set_this (f : Array -> Array) (s : AState) : AState :=
  mkAState (a_script s) (a_heap s) (f (a_this s)).

Definition load (h : list (list element)) (p : ptr) : option element :=
  blk ← h !! p.1; blk !! p.2.

Definition store (h : list (list element)) (p : ptr) (x : element)
  : option (list (list element)) :=
  blk ← h !! p.1;
  if decide (p.2 < length blk)%nat then Some (<[p.1 := <[p.2 := x]> blk]> h) else None.

(** The lvalue [data[index / block_size][index % block_size]] *)
Definition element_ref (data : list nat) (block_size : N) (index : N) : option ptr :=
  if block_size =? 0 then None
  else b ← data !! N.to_nat (index / block_size);
       Some (b, N.to_nat (index mod block_size)).

Definition Array_ctor (block_size : N) : Array := mkArray [] block_size 0.

Definition free_space_count_ (a : Array) : N :=
  N.of_nat (length (data_ a)) * block_size_ a - element_count_ a.

Definition add_block_ : M AState unit := fun s =>
  match alloc_attempt (a_script s) with
  | (true, rest) =>
      let a := a_this s in
      Ok (mkAState rest
            (a_heap s ++ [replicate (N.to_nat (block_size_ a)) value_init])
            (mkArray (data_ a ++ [length (a_heap s)]) (block_size_ a) (element_count_ a)))
         tt
  | (false, rest) => Throw (mkAState rest (a_heap s) (a_this s)) UnavailableMemoryException
  end.

Definition slot (index : N) : M AState ptr := fun s =>
  from_option (element_ref (data_ (a_this s)) (block_size_ (a_this s)) index) s.

Definition read (p : ptr) : M AState element := fun s =>
  from_option (load (a_heap s) p) s.

Definition assign (p : ptr) (x : element) : M AState unit := fun s =>
  match store (a_heap s) p x with
  | Some h => Ok (mkAState (a_script s) h (a_this s)) tt
  | None => Undefined
  end.

Definition set_element_count (n : N) : M AState unit :=
  modify (set_this (fun a => mkArray (data_ a) (block_size_ a) n)).

Definition Array_size : M AState N := gets (fun s => element_count_ (a_this s)).

Definition Array_push_back (item : element) : M AState unit :=
  let* free := gets (fun s => free_space_count_ (a_this s)) in
  (if free =? 0 then add_block_ else ret tt) ;;;
  let* n := Array_size in
  let* p := slot n in
  assign p item ;;;
  set_element_count (n + 1).

Definition Array_pop_back : M AState unit :=
  let* n := Array_size in
  if n =? 0 then throw EmptyArrayException
  else
    set_element_count (n - 1) ;;;
    let* p := slot (n - 1) in
    let* x := read p in
    assign p (destroy x).

Definition Array_get_ (index : N) : M AState ptr :=
  let* n := Array_size in
  if n <=? index then throw OutOfRangeException
  else slot index.

(** [Array(const Array& other)]; [a_this] is the object under construction. *)
Definition Array_copy_ctor (other : Array) : M AState unit :=
  modify (set_this (fun _ => mkArray [] (block_size_ other) (element_count_ other))) ;;;
  for_ (N.of_nat (length (data_ other))) (fun _ => add_block_) ;;;
  let* n := Array_size in
  for_ n (fun i =>
    let* bs := gets (fun s => block_size_ (a_this s)) in
    let* src := from_option (element_ref (data_ other) bs i) in
    let* x := read src in
    let* dst := slot i in
    assign dst x).

(** [while (data_.size() * block_size_ < target) add_block_();]  The loop
    needs at most [target] rounds when [block_size_] is positive; with a
    zero block size it does not terminate. *)
Fixpoint add_blocks_while (fuel : nat) (target : N) : M AState unit := fun s =>
  if N.of_nat (length (data_ (a_this s))) * block_size_ (a_this s) <? target then
    match fuel with
    | O => Undefined
    | S fuel' => (add_block_ ;;; add_blocks_while fuel' target) s
    end
  else Ok s tt.

(** [Array& operator=(const Array& other)] *)
Definition Array_copy_assign (other : Array) : M AState unit :=
  let* n := Array_size in
  for_ n (fun i => let* p := slot i in let* x := read p in assign p (destroy x)) ;;;
  set_element_count (element_count_ other) ;;;
  let* bs := gets (fun s => block_size_ (a_this s)) in
  (if negb (bs =? block_size_ other)
   then modify (set_this (fun a => mkArray [] (block_size_ other) (element_count_ a)))
   else ret tt) ;;;
  add_blocks_while (N.to_nat (element_count_ other)) (element_count_ other) ;;;
  for_ (element_count_ other) (fun i =>
    let* bs := gets (fun s => block_size_ (a_this s)) in
    let* src := from_option (element_ref (data_ other) bs i) in
    let* x := read src in
    let* dst := slot i in
    assign dst x).
End ArrayOps.

(** [Array(Array&& other) noexcept]: the new object and what is left in [other] *)
Definition Array_move_ctor (other : Array) : Array * Array :=
  (mkArray (data_ other) (block_size_ other) (element_count_ other), mkArray [] 0 0).

(** [Array& operator=(Array&& other) noexcept], for two distinct objects *)
Definition Array_move_assign (this other : Array) : Array * Array :=
  (mkArray (data_ other) (block_size_ other) (element_count_ other),
   mkArray (data_ this) (block_size_ this) (element_count_ this)).

(** [std::swap(a, b)] on arrays: [tmp(move(a)); a = move(b); b = move(tmp);] *)
Definition Array_swap (a b : Array) : Array * Array :=
  let '(tmp, a1) := Array_move_ctor a in
  let '(a2, b1) := Array_move_assign a1 b in
  let '(b2, _) := Array_move_assign b1 tmp in
  (a2, b2).

(** ** Node.h, Edge.h *)

Record Node (NData : Type) : Type := mkNode {
  Node_id_ : N;
  Node_data_ : NData
}.
Arguments mkNode {NData} _ _.
Arguments Node_id_ {NData} _.
Arguments Node_data_ {NData} _.

Record Edge (EData : Type) : Type := mkEdge {
  Edge_id_ : N;
  Edge_source_ : option ptr;     (* Node<NData>*, None for nullptr *)
  Edge_target_ : option ptr;
  Edge_data_ : EData
}.
Arguments mkEdge {EData} _ _ _ _.
Arguments Edge_id_ {EData} _.
Arguments Edge_source_ {EData} _.
Arguments Edge_target_ {EData} _.
Arguments Edge_data_ {EData} _.

(** [~Node()] and [~Edge()] poison the record they run on. *)
Definition Node_dtor {NData} (n : Node NData) : Node NData :=
  mkNode SIZE_MAX (Node_data_ n).

Definition Edge_dtor {EData} (e : Edge EData) : Edge EData :=
  mkEdge SIZE_MAX None None (Edge_data_ e).

Definition update_node_pointers {EData} (source target : ptr) (e : Edge EData) : Edge EData :=
  mkEdge (Edge_id_ e) (Some source) (Some target) (Edge_data_ e).

(** ** Nodes.h, Edges.h, Graph.h *)

Record Nodes : Type := mkNodes {
  Nodes_nodes_ : Array
}.

Record Edges : Type := mkEdges {
  Edges_edges_ : Array;
  adjacency_matrix_ : list (list (option ptr))   (* cells hold Edge* *)
}.

(** [is_undirected] is the answer of the virtual member function of the
    object's dynamic type: [false] for a [DirectedGraph], [true] for an
    [UndirectedGraph]. *)
Record Graph : Type := mkGraph {
  Graph_nodes_ : Nodes;
  Graph_edges_ : Edges;
  is_undirected : bool
}.

Definition matrix_get (m : list (list (option ptr))) (s t : N) : option (option ptr) :=
  row ← m !! N.to_nat s; row !! N.to_nat t.

Definition matrix_set (m : list (list (option ptr))) (s t : N) (v : option ptr)
  : option (list (list (option ptr))) :=
  row ← m !! N.to_nat s;
  if decide (N.to_nat t < length row)%nat
  then Some (<[N.to_nat s := <[N.to_nat t := v]> row]> m)
  else None.

(** [v.resize(n)] on a row of the matrix *)
Definition vector_resize (n : nat) (row : list (option ptr)) : list (option ptr) :=
  take n row ++ replicate (n - length row) None.

Section GraphOps.
Context {NData EData : Type}.
(** [NData()] and [EData()] *)
Variable NData_init : NData.
Variable EData_init : EData.

Definition Node_init : Node NData := mkNode 0 NData_init.
Definition Edge_init : Edge EData := mkEdge 0 None None EData_init.

(** The state a member function of a graph runs in. *)
Record GState : Type := mkGState {
  g_script : list bool;
  nheap : list (list (Node NData));
  eheap : list (list (Edge EData));
  g_this : Graph
}.

Definition set_graph (f : Graph -> Graph) (s : GState) : GState :=
  mkGState (g_script s) (nheap s) (eheap s) (f (g_this s)).

Definition set_matrix (m : list (list (option ptr))) (g : Graph) : Graph :=
  mkGraph (Graph_nodes_ g) (mkEdges (Edges_edges_ (Graph_edges_ g)) m) (is_undirected g).

Definition nodes_view (s : GState) : AState :=
  mkAState (g_script s) (nheap s) (Nodes_nodes_ (Graph_nodes_ (g_this s))).

Definition nodes_update (t : @AState (Node NData)) (s : GState) : GState :=
  mkGState (a_script t) (a_heap t) (eheap s)
    (mkGraph (mkNodes (a_this t)) (Graph_edges_ (g_this s)) (is_undirected (g_this s))).

Definition edges_view (s : GState) : AState :=
  mkAState (g_script s) (eheap s) (Edges_edges_ (Graph_edges_ (g_this s))).

Definition edges_update (t : @AState (Edge EData)) (s : GState) : GState :=
  mkGState (a_script t) (nheap s) (a_heap t)
    (mkGraph (Graph_nodes_ (g_this s))
       (mkEdges (a_this t) (adjacency_matrix_ (Graph_edges_ (g_this s))))
       (is_undirected (g_this s))).

(** member functions of [nodes_.nodes_] and of [edges_.edges_] *)
Definition on_nodes {A} (m : M (@AState (Node NData)) A) : M GState A :=
  zoom nodes_view nodes_update m.
Definition on_edges {A} (m : M (@AState (Edge EData)) A) : M GState A :=
  zoom edges_view edges_update m.

Definition the_matrix : M GState (list (list (option ptr))) :=
  gets (fun s => adjacency_matrix_ (Graph_edges_ (g_this s))).

(** an operation of [std::vector] that may have to allocate *)
Definition vector_alloc : M GState unit := fun s =>
  match alloc_attempt (g_script s) with
  | (true, rest) => Ok (mkGState rest (nheap s) (eheap s) (g_this s)) tt
  | (false, rest) => Throw (mkGState rest (nheap s) (eheap s) (g_this s)) std_bad_alloc
  end.

(** [adjacency_matrix_[s][t]] as an rvalue and as the target of an assignment *)
Definition matrix_read (s t : N) : M GState (option ptr) :=
  let* m := the_matrix in from_option (matrix_get m s t).

Definition matrix_write (s t : N) (v : option ptr) : M GState unit :=
  let* m := the_matrix in
  let* m' := from_option (matrix_set m s t v) in
  modify (set_graph (set_matrix m')).

(** *** Nodes *)

Definition Nodes_size : M GState N := on_nodes Array_size.

Definition Nodes_exists (id : N) : M GState bool :=
  let* n := Nodes_size in ret (id <? n).

Definition Nodes_get (id : N) : M GState ptr :=
  let* b := Nodes_exists id in
  if negb b then throw NonexistingItemException
  else on_nodes (Array_get_ id).

(** *** Edges *)

(** [adjacency_matrix_[i] = f(adjacency_matrix_[i])], a row updated in place *)
Definition update_row (f : list (option ptr) -> list (option ptr)) (i : N) : M GState unit :=
  let* m := the_matrix in
  let* row := from_option (m !! N.to_nat i) in
  modify (set_graph (set_matrix (<[N.to_nat i := f row]> m))).

Definition grow_adjacency_matrix : M GState unit :=
  let* m := the_matrix in
  let pre_modification_size := N.of_nat (length m) in
  try_catch
    (for_ pre_modification_size (fun i =>
       vector_alloc ;;;
       update_row (fun row => row ++ [None]) i) ;;;
     vector_alloc ;;;
     vector_alloc ;;;
     let* m := the_matrix in
     modify (set_graph (set_matrix
       (m ++ [replicate (N.to_nat (pre_modification_size + 1)) None]))))
    (for_ pre_modification_size (fun i =>
       update_row (vector_resize (N.to_nat pre_modification_size)) i) ;;;
     let* m := the_matrix in
     modify (set_graph (set_matrix
       (take (N.to_nat pre_modification_size) m
        ++ replicate (N.to_nat pre_modification_size - length m) []))) ;;;
     throw UnavailableMemoryException).

Definition Nodes_add (id : N) (data : NData) : M GState ptr :=
  let* pre_modification_size := Nodes_size in
  if pre_modification_size <? id then throw InvalidIdentifierException
  else if id <? pre_modification_size then throw ConflictingItemException
  else
    try_catch
      (on_nodes (Array_push_back Node_init (mkNode id data)) ;;;
       grow_adjacency_matrix)
      (let* n := Nodes_size in
       (if pre_modification_size <? n then on_nodes (Array_pop_back Node_dtor) else ret tt) ;;;
       throw UnavailableMemoryException) ;;;
    let* n := Nodes_size in
    on_nodes (Array_get_ (n - 1)).

Definition Nodes_add_next (data : NData) : M GState ptr :=
  let* n := Nodes_size in Nodes_add n data.

Definition Edges_size : M GState N := on_edges Array_size.

Definition Edges_exists (id : N) : M GState bool :=
  let* n := Edges_size in ret (id <? n).

Definition Edges_add (id source target : N) (data : EData) : M GState ptr :=
  let* pre_modification_size := Edges_size in
  if pre_modification_size <? id then throw InvalidIdentifierException
  else if id <? pre_modification_size then throw ConflictingItemException
  else
    let* nodes_size := Nodes_size in
    if (nodes_size <=? source) || (nodes_size <=? target)
    then throw NonexistingItemException
    else
      let* cell := matrix_read source target in
      if bool_decide (is_Some cell) then throw ConflictingItemException
      else
        let* undirected := gets (fun s => is_undirected (g_this s)) in
        try_catch
          (let* source_node := Nodes_get source in
           let* target_node := Nodes_get target in
           let edge := mkEdge id (Some source_node) (Some target_node) data in
           on_edges (Array_push_back Edge_init edge) ;;;
           let* n := Edges_size in
           let* p := on_edges (Array_get_ (n - 1)) in
           matrix_write source target (Some p) ;;;
           if undirected
           then let* n := Edges_size in
                let* p := on_edges (Array_get_ (n - 1)) in
                matrix_write target source (Some p)
           else ret tt)
          (let* n := Edges_size in
           (if pre_modification_size <? n then on_edges (Array_pop_back Edge_dtor) else ret tt) ;;;
           matrix_write source target None ;;;
           (if undirected then matrix_write target source None else ret tt) ;;;
           throw UnavailableMemoryException) ;;;
        let* n := Edges_size in
        on_edges (Array_get_ (n - 1)).

Definition Edges_add_next (source target : N) (data : EData) : M GState ptr :=
  let* n := Edges_size in Edges_add n source target data.

Definition Edges_exists_pair (source target : N) : M GState bool :=
  let* m := the_matrix in
  let adjacency_matrix_size := N.of_nat (length m) in
  if (adjacency_matrix_size <=? source) || (adjacency_matrix_size <=? target)
  then throw NonexistingItemException
  else let* cell := matrix_read source target in
       ret (bool_decide (is_Some cell)).

Definition Edges_get (id : N) : M GState ptr :=
  let* b := Edges_exists id in
  if negb b then throw NonexistingItemException
  else on_edges (Array_get_ id).

Definition Edges_get_pair (source target : N) : M GState ptr :=
  let* m := the_matrix in
  let adjacency_matrix_size := N.of_nat (length m) in
  if (adjacency_matrix_size <=? source) || (adjacency_matrix_size <=? target)
  then throw NonexistingItemException
  else let* cell := matrix_read source target in
       match cell with
       | None => throw NonexistingItemException
       | Some p => ret p
       end.

(** [edges_[i].getSource().getId()] and [edges_[i].getTarget().getId()] *)
Definition deref_node (p : option ptr) : M GState (Node NData) :=
  let* q := from_option p in
  let* h := gets nheap in
  from_option (load h q).

Definition edges_subscript (i : N) : M GState (Edge EData) :=
  let* p := on_edges (Array_get_ i) in
  on_edges (read p).

Definition source_id_of (i : N) : M GState N :=
  let* e := edges_subscript i in
  let* n := deref_node (Edge_source_ e) in
  ret (Node_id_ n).

Definition target_id_of (i : N) : M GState N :=
  let* e := edges_subscript i in
  let* n := deref_node (Edge_target_ e) in
  ret (Node_id_ n).

Definition construct_adjacency_matrix : M GState unit :=
  modify (set_graph (set_matrix [])) ;;;
  let* nodes_size := Nodes_size in
  try_catch
    (for_ nodes_size (fun _ =>
       vector_alloc ;;;
       let* m := the_matrix in
       modify (set_graph (set_matrix (m ++ [replicate (N.to_nat nodes_size) None])))))
    (throw UnavailableMemoryException) ;;;
  let* edges_size := Edges_size in
  for_ edges_size (fun i =>
    let* s := source_id_of i in
    let* t := target_id_of i in
    let* p := on_edges (Array_get_ i) in
    matrix_write s t (Some p) ;;;
    let* undirected := gets (fun s => is_undirected (g_this s)) in
    if undirected
    then let* p := on_edges (Array_get_ i) in matrix_write t s (Some p)
    else ret tt).

Definition update_source_and_target_pointers : M GState unit :=
  let* edges_size := Edges_size in
  for_ edges_size (fun i =>
    let* s := source_id_of i in
    let* updated_source := Nodes_get s in
    let* t := target_id_of i in
    let* updated_target := Nodes_get t in
    let* p := on_edges (Array_get_ i) in
    let* e := on_edges (read p) in
    on_edges (assign p (update_node_pointers updated_source updated_target e))).

(** *** Graph: construction, copy and move *)

(** [Graph() : nodes_(this), edges_(this)] *)
Definition Graph_ctor (undirected : bool) : Graph :=
  mkGraph (mkNodes (Array_ctor DEFAULT_BLOCK_SIZE))
          (mkEdges (Array_ctor DEFAULT_BLOCK_SIZE) [])
          undirected.

(** [Graph(const Graph& other) : nodes_(other.nodes_, this),
    edges_(other.edges_, this)].  [g_this] is the object under
    construction, of dynamic type given by [undirected]; the members are
    built in declaration order, and [Edges(other, graph)] rebinds the node
    pointers of the copied edges. *)
Definition Graph_copy_ctor (undirected : bool) (other : Graph) : M GState unit :=
  modify (set_graph (fun _ => mkGraph (mkNodes (mkArray [] 0 0))
                                       (mkEdges (mkArray [] 0 0) []) undirected)) ;;;
  on_nodes (Array_copy_ctor Node_init (Nodes_nodes_ (Graph_nodes_ other))) ;;;
  on_edges (Array_copy_ctor Edge_init (Edges_edges_ (Graph_edges_ other))) ;;;
  update_source_and_target_pointers.

Definition DirectedGraph_copy_ctor (other : Graph) : M GState unit :=
  Graph_copy_ctor false other ;;; construct_adjacency_matrix.

Definition UndirectedGraph_copy_ctor (other : Graph) : M GState unit :=
  Graph_copy_ctor true other ;;; construct_adjacency_matrix.

(** [Nodes::operator=(const Nodes&)] and [Edges::operator=(const Edges&)] *)
Definition Nodes_copy_assign (other : Nodes) : M GState unit :=
  on_nodes (Array_copy_assign Node_init Node_dtor (Nodes_nodes_ other)).

Definition Edges_copy_assign (other : Edges) : M GState unit :=
  on_edges (Array_copy_assign Edge_init Edge_dtor (Edges_edges_ other)) ;;;
  update_source_and_target_pointers ;;;
  construct_adjacency_matrix.

(** [Graph& operator=(const Graph& other)].  [other] may be the object
    itself: its members are then read from the state as it is when each
    statement runs, which is what passing the graph's own value does, since
    the first assignment leaves the [Array] record of [edges_] alone. *)
Definition Graph_copy_assign (other : Graph) : M GState unit :=
  Nodes_copy_assign (Graph_nodes_ other) ;;;
  Edges_copy_assign (Graph_edges_ other).
End GraphOps.

(** [Nodes::operator=(Nodes&&)] and [Edges::operator=(Edges&&)] for two
    distinct objects: the member arrays and the matrix are exchanged, the
    back-pointers stay. *)
Definition Nodes_move_assign (this other : Nodes) : Nodes * Nodes :=
  let '(a, b) := Array_swap (Nodes_nodes_ this) (Nodes_nodes_ other) in
  (mkNodes a, mkNodes b).

Definition Edges_move_assign (this other : Edges) : Edges * Edges :=
  let '(a, b) := Array_swap (Edges_edges_ this) (Edges_edges_ other) in
  (mkEdges a (adjacency_matrix_ other), mkEdges b (adjacency_matrix_ this)).

(** [Graph(Graph&& other)] and [Graph& operator=(Graph&& other)] call
    [std::swap] on the two stores.  [Nodes] and [Edges] declare a move
    assignment and no move or copy constructor that takes one argument, so
    [std::swap] cannot build its temporary: the two members are templates
    that no program can instantiate, and they have no behaviour to embed.
    What a program can write is a move of one of the concrete classes.
    [DirectedGraph] and [UndirectedGraph] declare a copy constructor, no
    move constructor and no assignment, so [DirectedGraph c(std::move(g))]
    binds the rvalue to the parameter of the copy constructor, and
    [h = std::move(g)] runs the implicit copy assignment, which assigns the
    base with [Graph::operator=(const Graph&)]: a move of a graph is a copy
    of it, see [run]. *)

(** ** Text streams and the conversions the import uses *)

Record istream : Type := mkIstream {
  buffer : string;      (* the characters not read yet *)
  eofbit : bool;
  failbit : bool
}.

Definition good (stream : istream) : bool := negb (eofbit stream) && negb (failbit stream).

(** [std::istringstream iss(text);] *)
Definition istringstream (text : string) : istream := mkIstream text false false.

(** [is.get();], the character read being ignored *)
Definition istream_get (stream : istream) : istream :=
  if good stream then
    match buffer stream with
    | EmptyString => mkIstream EmptyString true true
    | String _ rest => mkIstream rest false false
    end
  else mkIstream (buffer stream) (eofbit stream) true.

(** the characters before the first [delim], and what follows it if there is one *)
Fixpoint getline_chars (buf : string) (delim : ascii) : string * option string :=
  match buf with
  | EmptyString => (EmptyString, None)
  | String c rest =>
      if Ascii.eqb c delim then (EmptyString, Some rest)
      else let '(str, after) := getline_chars rest delim in (String c str, after)
  end.

(** [std::getline(is, str, delim);] for an empty [str]: the string read
    and the stream after the call *)
Definition getline (stream : istream) (delim : ascii) : string * istream :=
  if good stream then
    match getline_chars (buffer stream) delim with
    | (str, Some rest) => (str, mkIstream rest false false)
    | (str, None) =>
        (str, mkIstream EmptyString true (if String.eqb str EmptyString then true else false))
    end
  else (EmptyString, mkIstream (buffer stream) (eofbit stream) true).

Definition isspace (c : ascii) : bool :=
  let n := N_of_ascii c in (n =? 32) || ((9 <=? n) && (n <=? 13)).

Definition digit_of (c : ascii) : option N :=
  let n := N_of_ascii c in
  if (48 <=? n) && (n <=? 57) then Some (n - 48) else None.

Fixpoint skip_spaces (s : string) : string * nat :=
  match s with
  | String c rest =>
      if isspace c then let '(s', n) := skip_spaces rest in (s', Datatypes.S n) else (s, O)
  | EmptyString => (s, O)
  end.

(** the value of the longest prefix of digits, continuing [acc], and its length *)
Fixpoint read_digits (s : string) (acc : N) : N * nat :=
  match s with
  | String c rest =>
      match digit_of c with
      | Some d => let '(v, n) := read_digits rest (10 * acc + d) in (v, Datatypes.S n)
      | None => (acc, O)
      end
  | EmptyString => (acc, O)
  end.

Definition INT_MAX : Z := 2147483647.
Definition INT_MIN : Z := -2147483648.

(** [std::stoi(str, &pos)]: the value and [pos], or [None] when it throws
    [std::invalid_argument] (no digits) or [std::out_of_range] (the value is
    not an [int]) *)
Definition stoi (str : string) : option (Z * nat) :=
  let '(s1, n1) := skip_spaces str in
  let '(negative, s2, n2) :=
    match s1 with
    | String "-"%char rest => (true, rest, 1%nat)
    | String "+"%char rest => (false, rest, 1%nat)
    | _ => (false, s1, O)
    end in
  let '(v, n3) := read_digits s2 0 in
  match n3 with
  | O => None
  | _ =>
      let z := if negative then (- Z.of_N v)%Z else Z.of_N v in
      if ((INT_MIN <=? z) && (z <=? INT_MAX))%Z then Some (z, (n1 + n2 + n3)%nat) else None
  end.

(** the conversion of an [int] to [size_t] *)
Definition size_t_of_int (z : Z) : N := Z.to_N (z mod 2 ^ 64).

(** [operator<<] on a [size_t] *)
Definition print_size_t (n : N) : string := NilEmpty.string_of_uint (N.to_uint n).

(** what [std::endl] writes *)
Definition endl : string := String "010"%char EmptyString.

(** [Graph::parse_id(iss, delim)]: the id and the stream after the call, or
    [None] when it throws [ParsingException] *)
Definition parse_id (iss : istream) (delim : ascii) : option (N * istream) :=
  let '(id_string, iss) := getline iss delim in
  match stoi id_string with
  | Some (id, p) =>
      if (p =? String.length id_string)%nat then Some (size_t_of_int id, iss) else None
  | None => None
  end.

Section GraphText.
Context {NData EData : Type}.
Variable NData_init : NData.
Variable EData_init : EData.
(** [os << data] for a node payload and for an edge payload *)
Variable NData_print : NData -> string.
Variable EData_print : EData -> string.
(** the value of [data] after [NData data; std::istringstream(text) >> data;] *)
Variable NData_extract : string -> NData.
Variable EData_extract : string -> EData.

(** [os << node] *)
Definition Node_print (n : Node NData) : string :=
  "node (" +:+ print_size_t (Node_id_ n) +:+ " {" +:+ NData_print (Node_data_ n)
  +:+ "})" +:+ endl.

(** [os << edge] *)
Definition Edge_print (e : Edge EData) : M (@GState NData EData) string :=
  let* source := deref_node (Edge_source_ e) in
  let* target := deref_node (Edge_target_ e) in
  ret ("edge (" +:+ print_size_t (Node_id_ source) +:+ ")-[" +:+ print_size_t (Edge_id_ e)
       +:+ " {" +:+ EData_print (Edge_data_ e) +:+ "}]->("
       +:+ print_size_t (Node_id_ target) +:+ ")" +:+ endl).

(** [for (size_t i = from; i < from + count; i++) os << item(i);],
    returning what was written *)
Fixpoint print_from (count : nat) (from : N)
    (item : N -> M (@GState NData EData) string) : M (@GState NData EData) string :=
  match count with
  | O => ret EmptyString
  | S count' =>
      let* x := item from in
      let* rest := print_from count' (from + 1) item in
      ret (x +:+ rest)
  end.

Definition Nodes_print : M (@GState NData EData) string :=
  let* n := Nodes_size in
  print_from (N.to_nat n) 0 (fun i =>
    let* p := on_nodes (Array_get_ i) in
    let* node := on_nodes (read p) in
    ret (Node_print node)).

Definition Edges_print : M (@GState NData EData) string :=
  let* n := Edges_size in
  print_from (N.to_nat n) 0 (fun i =>
    let* edge := edges_subscript i in
    Edge_print edge).

(** [Graph::print(os)] on a good stream: what is written *)
Definition Graph_print : M (@GState NData EData) string :=
  let* nodes := Nodes_print in
  let* edges := Edges_print in
  ret (nodes +:+ edges).

Definition import_node (iss : istream) : M (@GState NData EData) unit :=
  if negb (good iss) then ret tt
  else
    let iss := istream_get iss in
    match parse_id iss " "%char with
    | None => throw ParsingException
    | Some (id, iss) =>
        let iss := istream_get iss in
        let '(data_string, iss) := getline iss "}"%char in
        Nodes_add NData_init id (NData_extract data_string) ;;; ret tt
    end.

Definition import_edge (iss : istream) : M (@GState NData EData) unit :=
  if negb (good iss) then ret tt
  else
    let iss := istream_get iss in
    match parse_id iss ")"%char with
    | None => throw ParsingException
    | Some (source_id, iss) =>
        let iss := istream_get (istream_get iss) in
        match parse_id iss " "%char with
        | None => throw ParsingException
        | Some (edge_id, iss) =>
            let iss := istream_get iss in
            let '(data_string, iss) := getline iss "}"%char in
            let iss := istream_get (istream_get (istream_get (istream_get iss))) in
            match parse_id iss ")"%char with
            | None => throw ParsingException
            | Some (target_id, iss) =>
                Edges_add EData_init edge_id source_id target_id
                  (EData_extract data_string) ;;; ret tt
            end
        end
    end.

Definition import_line (iss : istream) : M (@GState NData EData) unit :=
  if negb (good iss) then ret tt
  else
    let '(prefix, iss) := getline iss " "%char in
    if String.eqb prefix "node" then import_node iss
    else if String.eqb prefix "edge" then import_edge iss
    else ret tt.

(** [while (std::getline(is, line)) { std::istringstream iss(line);
    import_line(iss); }]  Every round but the last consumes a character,
    so the length of the buffer bounds the number of rounds. *)
Fixpoint import_lines (fuel : nat) (stream : istream) : M (@GState NData EData) unit :=
  let '(line, stream') := getline stream "010"%char in
  if failbit stream' then ret tt
  else
    match fuel with
    | O => undefined
    | S fuel' => import_line (istringstream line) ;;; import_lines fuel' stream'
    end.

(** [Graph::import(is)] *)
Definition Graph_import (stream : istream) : M (@GState NData EData) unit :=
  if negb (good stream) then throw InvalidStreamException
  else import_lines (String.length (buffer stream)) stream.
End GraphText.

(** ** Programs over several graphs *)

Section World.
Context {NData EData : Type}.
Variable NData_init : NData.
Variable EData_init : EData.
Variable NData_extract : string -> NData.
Variable EData_extract : string -> EData.

(** The memory and the graph objects that live in it. *)
Record World : Type := mkWorld {
  w_nheap : list (list (Node NData));
  w_eheap : list (list (Edge EData));
  w_graphs : list Graph
}.

Inductive operation : Type :=
| op_new (undirected : bool)                      (* a default-constructed graph *)
| op_add_node (g : nat) (id : N) (data : NData)
| op_add_edge (g : nat) (id source target : N) (data : EData)
| op_copy_construct (g : nat)                     (* a new graph, copy of graph g *)
| op_copy_assign (dst src : nat)                  (* dst = src *)
| op_move_construct (g : nat)                     (* a new graph, from std::move(graph g) *)
| op_move_assign (dst src : nat)                  (* dst = std::move(src) *)
| op_import (g : nat) (text : string).

Definition enter (script : list bool) (w : World) (g : Graph) : GState :=
  mkGState script (w_nheap w) (w_eheap w) g.

Definition leave (i : nat) (w : World) (s : @GState NData EData) : World :=
  mkWorld (nheap s) (eheap s) (<[i := g_this s]> (w_graphs w)).

(** a member function called on the graph of index [i] *)
Definition on_graph {A} (script : list bool) (i : nat) (m : M GState A) : M World A :=
  fun w =>
    match w_graphs w !! i with
    | None => Undefined
    | Some g =>
        match m (enter script w g) with
        | Ok s a => Ok (leave i w s) a
        | Throw s e => Throw (leave i w s) e
        | Undefined => Undefined
        end
    end.

(** One operation of a client program, run with the allocator script
    [script].  A copy has the dynamic type of its source.  The graphs of a
    program are objects of the two concrete classes, for which construction
    and assignment from [std::move(g)] select the copy constructor and the
    copy assignment: the two move operations run what the two copy
    operations run, [g = std::move(g)] included. *)
Definition run (script : list bool) (op : operation) : M World unit :=
  match op with
  | op_new undirected =>
      modify (fun w => mkWorld (w_nheap w) (w_eheap w) (w_graphs w ++ [Graph_ctor undirected]))
  | op_add_node g id data =>
      on_graph script g (Nodes_add NData_init id data ;;; ret tt)
  | op_add_edge g id source target data =>
      on_graph script g (Edges_add EData_init id source target data ;;; ret tt)
  | op_copy_construct g | op_move_construct g => fun w =>
      match w_graphs w !! g with
      | None => Undefined
      | Some other =>
          let ctor := if is_undirected other
                      then UndirectedGraph_copy_ctor NData_init EData_init other
                      else DirectedGraph_copy_ctor NData_init EData_init other in
          match ctor (enter script w other) with
          | Ok s _ => Ok (mkWorld (nheap s) (eheap s) (w_graphs w ++ [g_this s])) tt
          | Throw s e => Throw (mkWorld (nheap s) (eheap s) (w_graphs w)) e
          | Undefined => Undefined
          end
      end
  | op_copy_assign dst src | op_move_assign dst src => fun w =>
      match w_graphs w !! src with
      | None => Undefined
      | Some other => on_graph script dst (Graph_copy_assign NData_init EData_init other) w
      end
  | op_import g text =>
      on_graph script g
        (Graph_import NData_init EData_init NData_extract EData_extract (istringstream text))
  end.

(** The operations a program is expected to use: an assignment, written
    with or without [std::move], is between two distinct graphs of one
    type. *)
Definition admissible (w : World) (op : operation) : Prop :=
  match op with
  | op_copy_assign dst src | op_move_assign dst src =>
      dst <> src /\
      (is_undirected <$> w_graphs w !! dst) = (is_undirected <$> w_graphs w !! src)
  | _ => True
  end.

(** the operations that leave a usable graph behind when they throw *)
Definition transactional (op : operation) : Prop :=
  match op with
  | op_add_node _ _ _ | op_add_edge _ _ _ _ _ | op_import _ _ => True
  | _ => False
  end.

Inductive reachable : World -> Prop :=
| reachable_init : reachable (mkWorld [] [] [])
| reachable_ok w script op w' :
    reachable w -> admissible w op -> run script op w = Ok w' tt -> reachable w'
| reachable_throw w script op w' e :
    reachable w -> transactional op -> run script op w = Throw w' e -> reachable w'.
End World.

(** * Properties *)

(** ** Reasoning about state transformers *)

(** [wp m s Q R]: run from [s], [m] returns in a state and with a value that
    satisfy [Q], or throws in a state and with an exception that satisfy
    [R]; its behaviour is defined. *)
Definition wp {S A} (m : M S A) (s : S)
    (Q : S -> A -> Prop) (R : S -> exception -> Prop) : Prop :=
  match m s with
  | Ok s' a => Q s' a
  | Throw s' e => R s' e
  | Undefined => False
  end.

Section WP.
Context {S : Type}.
Implicit Types s : S.

Lemma wp_ret {A} (a : A) s Q R : Q s a -> wp (ret a) s Q R.
Proof. done. Qed.

Lemma wp_throw {A} e s (Q : S -> A -> Prop) R : R s e -> wp (throw e) s Q R.
Proof. done. Qed.

Lemma wp_gets {A} (f : S -> A) s Q R : Q s (f s) -> wp (gets f) s Q R.
Proof. done. Qed.

Lemma wp_modify (f : S -> S) s Q R : Q (f s) tt -> wp (modify f) s Q R.
Proof. done. Qed.

Lemma wp_from_option {A} (o : option A) a s Q R :
  o = Some a -> Q s a -> wp (from_option o) s Q R.
Proof. by intros ->. Qed.

Lemma wp_bind {A B} (m : M S A) (k : A -> M S B) s Q R :
  wp m s (fun s' a => wp (k a) s' Q R) R -> wp (bind m k) s Q R.
Proof. unfold wp, bind. by destruct (m s). Qed.

Lemma wp_bind_eq {A B} (m : M S A) (k : A -> M S B) s s' a Q R :
  m s = Ok s' a -> wp (k a) s' Q R -> wp (bind m k) s Q R.
Proof. unfold wp, bind. by intros ->. Qed.

Lemma wp_bind_inv {A B} (m : M S A) (k : A -> M S B) s Q R :
  wp (bind m k) s Q R -> wp m s (fun s' a => wp (k a) s' Q R) R.
Proof. unfold wp, bind. by destruct (m s). Qed.

Lemma wp_try_catch {A} (m h : M S A) s Q R :
  wp m s Q (fun s' _ => wp h s' Q R) -> wp (try_catch m h) s Q R.
Proof. unfold wp, try_catch. by destruct (m s). Qed.

Lemma wp_mono {A} (m : M S A) s (Q Q' : S -> A -> Prop) (R R' : S -> exception -> Prop) :
  wp m s Q R ->
  (forall s' a, Q s' a -> Q' s' a) ->
  (forall s' e, R s' e -> R' s' e) ->
  wp m s Q' R'.
Proof. unfold wp. destruct (m s); auto. Qed.

Lemma wp_zoom {T A} (get : S -> T) (set : T -> S -> S) (m : M T A) s Q R :
  wp m (get s) (fun t a => Q (set t s) a) (fun t e => R (set t s) e) ->
  wp (zoom get set m) s Q R.
Proof. unfold wp, zoom. by destruct (m (get s)). Qed.

Lemma wp_if {A} (b : bool) (m1 m2 : M S A) s Q R :
  (b = true -> wp m1 s Q R) -> (b = false -> wp m2 s Q R) ->
  wp (if b then m1 else m2) s Q R.
Proof. destruct b; auto. Qed.

(** The loop rule: [I k] holds after [k] rounds. *)
Lemma wp_for_from (I : nat -> S -> Prop) (body : N -> M S unit) R count from s :
  I 0%nat s ->
  (forall k s', (k < count)%nat -> I k s' ->
     wp (body (from + N.of_nat k)) s' (fun s'' _ => I (Datatypes.S k) s'') R) ->
  wp (for_from count from body) s (fun s' _ => I count s') R.
Proof.
  revert I from s. induction count as [|count IH]; intros I from s H0 Hstep.
  - done.
  - simpl. apply wp_bind.
    pose proof (Hstep 0%nat s ltac:(lia) H0) as Hb.
    rewrite N.add_0_r in Hb.
    eapply wp_mono; [exact Hb | | done].
    intros s' [] H1. cbv beta in *.
    {
      apply (IH (fun k => I (Datatypes.S k))); [done |].
      intros k s'' Hk HI.
      replace (from + 1 + N.of_nat k) with (from + N.of_nat (Datatypes.S k)) by lia.
      apply Hstep; [lia | done]. }
Qed.

Lemma wp_for (I : N -> S -> Prop) (body : N -> M S unit) R n s :
  I 0 s ->
  (forall k s', k < n -> I k s' -> wp (body k) s' (fun s'' _ => I (k + 1) s'') R) ->
  wp (for_ n body) s (fun s' _ => I n s') R.
Proof.
  intros H0 Hstep. unfold for_.
  eapply wp_mono;
    [apply (wp_for_from (fun k => I (N.of_nat k)) body R (N.to_nat n) 0 s) | |].
  - done.
  - intros k s' Hk HI. rewrite N.add_0_l.
    eapply wp_mono; [apply Hstep; [lia | done] | | done].
    intros s'' [] H. cbv beta in *. by replace (N.of_nat (Datatypes.S k)) with (N.of_nat k + 1) by lia.
  - intros s' [] H. cbv beta in H. by rewrite N2Nat.id in H.
  - done.
Qed.
End WP.

(** ** Arrays: representation invariant and abstraction *)

Section ArrayProps.
Context {element : Type}.
Implicit Types (h : list (list element)) (a : Array) (p q : ptr) (i j : N).

Definition capacity a : N := N.of_nat (length (data_ a)) * block_size_ a.

(** the address of the slot of index [i] *)
Definition ref a i : option ptr := element_ref (data_ a) (block_size_ a) i.

(** the stored element of index [i], the abstract content of the array *)
Definition elem h a i : option element :=
  if i <? element_count_ a then ref a i ≫= load h else None.

Record Array_wf h a : Prop := {
  wf_block_size : 0 < block_size_ a;
  wf_NoDup : NoDup (data_ a);
  wf_blocks : forall b, b ∈ data_ a ->
    exists blk, h !! b = Some blk /\ length blk = N.to_nat (block_size_ a);
  wf_count : element_count_ a <= capacity a
}.

(** [h'] extends [h] and differs from it at most on the blocks of [own]. *)
Definition heap_frame (own : list nat) h h' : Prop :=
  (length h <= length h')%nat /\
  (forall b blk, h !! b = Some blk ->
     exists blk', h' !! b = Some blk' /\ length blk' = length blk) /\
  (forall b, (b < length h)%nat -> b ∉ own -> h' !! b = h !! b).

Lemma heap_frame_refl own h : heap_frame own h h.
Proof. repeat split; eauto. Qed.

Lemma heap_frame_trans own h1 h2 h3 :
  heap_frame own h1 h2 -> heap_frame own h2 h3 -> heap_frame own h1 h3.
Proof.
  intros (L1 & S1 & F1) (L2 & S2 & F2). repeat split.
  - lia.
  - intros b blk Hb. destruct (S1 _ _ Hb) as (blk' & Hb' & E1).
    destruct (S2 _ _ Hb') as (blk'' & Hb'' & E2). exists blk''. split; [done | congruence].
  - intros b Hb Hn. rewrite F2; [by apply F1 | lia | done].
Qed.

Lemma heap_frame_mono own own' h h' :
  (forall b, b ∈ own -> b ∈ own') -> heap_frame own h h' -> heap_frame own' h h'.
Proof. intros Hsub (L & S & F). repeat split; auto. Qed.

Lemma heap_frame_app own h l : heap_frame own h (h ++ l).
Proof.
  repeat split.
  - rewrite length_app. lia.
  - intros b blk Hb. exists blk. split; [|done].
    rewrite lookup_app_l; [done | by eapply lookup_lt_Some].
  - intros b Hb _. by rewrite lookup_app_l.
Qed.

Lemma load_frame own h h' p :
  heap_frame own h h' -> (p.1 < length h)%nat -> p.1 ∉ own -> load h' p = load h p.
Proof. intros (_ & _ & F) Hp Hn. unfold load. by rewrite F. Qed.

Lemma store_Some h p x h' :
  store h p x = Some h' ->
  exists blk, h !! p.1 = Some blk /\ (p.2 < length blk)%nat /\
              h' = <[p.1 := <[p.2 := x]> blk]> h.
Proof.
  unfold store. destruct (h !! p.1) as [blk|] eqn:Hb; [|done]. simpl.
  case_decide; [|done]. intros [= <-]. eauto.
Qed.

Lemma store_is_Some h p x : is_Some (load h p) -> is_Some (store h p x).
Proof.
  unfold load, store. destruct (h !! p.1) as [blk|]; simpl; [|by intros [? ?]].
  intros [y Hy]. apply lookup_lt_Some in Hy. rewrite decide_True; eauto.
Qed.

Lemma load_store h p x h' q :
  store h p x = Some h' -> load h' q = if decide (q = p) then Some x else load h q.
Proof.
  intros (blk & Hb & Ho & ->)%store_Some. unfold load.
  destruct p as [pb po], q as [qb qo]. simpl in *.
  destruct (decide (qb = pb)) as [->|Hne].
  - rewrite list_lookup_insert_eq by (by eapply lookup_lt_Some). rewrite Hb. simpl.
    destruct (decide (qo = po)) as [->|Hne'].
    + rewrite decide_True by done. by rewrite list_lookup_insert_eq.
    + rewrite decide_False by congruence. by rewrite list_lookup_insert_ne.
  - rewrite decide_False by congruence. by rewrite list_lookup_insert_ne.
Qed.

Lemma store_frame h p x h' : store h p x = Some h' -> heap_frame [p.1] h h'.
Proof.
  intros (blk & Hb & Ho & ->)%store_Some. repeat split.
  - by rewrite length_insert.
  - intros b blk' Hb'. destruct (decide (b = p.1)) as [->|Hne].
    + rewrite list_lookup_insert_eq by (by eapply lookup_lt_Some).
      eexists. split; [done|]. rewrite length_insert. congruence.
    + rewrite list_lookup_insert_ne by done. eauto.
  - intros b _ Hn. rewrite list_lookup_insert_ne; [done|].
    intros Heq. apply Hn. rewrite <- Heq. by apply list_elem_of_singleton.
Qed.

Lemma element_ref_Some data bs i p :
  element_ref data bs i = Some p ->
  0 < bs /\ data !! N.to_nat (i / bs) = Some p.1 /\ p.2 = N.to_nat (i mod bs).
Proof.
  unfold element_ref. destruct (bs =? 0) eqn:E; [done|].
  apply N.eqb_neq in E.
  destruct (data !! N.to_nat (i / bs)) as [b|]; [|done]. simpl.
  intros [= <-]. split; [lia | done].
Qed.

Lemma element_ref_lt data bs i :
  0 < bs -> i < N.of_nat (length data) * bs -> is_Some (element_ref data bs i).
Proof.
  intros Hbs Hi. unfold element_ref.
  destruct (bs =? 0) eqn:E; [apply N.eqb_eq in E; lia|].
  assert (i / bs < N.of_nat (length data)) as Hd.
  { apply N.Div0.div_lt_upper_bound. lia. }
  destruct (lookup_lt_is_Some_2 data (N.to_nat (i / bs))) as [b Hb]; [lia|].
  rewrite Hb. simpl. eauto.
Qed.

Lemma element_ref_app data bs i b :
  is_Some (element_ref data bs i) ->
  element_ref (data ++ [b]) bs i = element_ref data bs i.
Proof.
  unfold element_ref. destruct (bs =? 0); [done|].
  destruct (data !! N.to_nat (i / bs)) as [c|] eqn:Hc; [|by intros [? ?]].
  intros _. by rewrite (lookup_app_l_Some _ _ _ _ Hc).
Qed.

Lemma element_ref_next data bs b :
  0 < bs ->
  element_ref (data ++ [b]) bs (N.of_nat (length data) * bs) = Some (b, 0%nat).
Proof.
  intros Hbs. unfold element_ref.
  destruct (bs =? 0) eqn:E; [apply N.eqb_eq in E; lia|].
  rewrite N.div_mul by lia. rewrite Nat2N.id.
  rewrite list_lookup_middle by done. simpl.
  by rewrite N.Div0.mod_mul.
Qed.

Lemma element_ref_inj data bs i j p :
  NoDup data -> element_ref data bs i = Some p -> element_ref data bs j = Some p -> i = j.
Proof.
  intros Hnd (Hbs & Hi & Hoi)%element_ref_Some (_ & Hj & Hoj)%element_ref_Some.
  pose proof (NoDup_lookup _ _ _ _ Hnd Hi Hj) as Hd.
  rewrite (N.div_mod i bs), (N.div_mod j bs) by lia.
  f_equal; [f_equal|]; lia.
Qed.

Lemma ref_owned a i p : ref a i = Some p -> p.1 ∈ data_ a.
Proof. intros (_ & H & _)%element_ref_Some. by eapply list_elem_of_lookup_2. Qed.

Lemma ref_load h a i p :
  Array_wf h a -> ref a i = Some p -> is_Some (load h p).
Proof.
  intros Hwf Hr. pose proof (ref_owned _ _ _ Hr) as Ho.
  destruct (wf_blocks _ _ Hwf _ Ho) as (blk & Hb & Hl).
  apply element_ref_Some in Hr as (Hbs & _ & Hoff).
  unfold load. rewrite Hb. simpl. apply lookup_lt_is_Some_2.
  rewrite Hl, Hoff. pose proof (N.mod_lt i (block_size_ a)). lia.
Qed.

Lemma elem_is_Some h a i :
  Array_wf h a -> i < element_count_ a -> is_Some (elem h a i).
Proof.
  intros Hwf Hi. unfold elem. rewrite (proj2 (N.ltb_lt _ _) Hi).
  destruct (element_ref_lt (data_ a) (block_size_ a) i) as [p Hp].
  - apply Hwf.
  - pose proof (wf_count _ _ Hwf). unfold capacity in *. lia.
  - unfold ref. rewrite Hp. simpl. by eapply ref_load.
Qed.

Lemma elem_lt h a i x : elem h a i = Some x -> i < element_count_ a.
Proof. unfold elem. destruct (i <? element_count_ a) eqn:E; [|done]. intros _. by apply N.ltb_lt. Qed.

Lemma elem_ge h a i : element_count_ a <= i -> elem h a i = None.
Proof. intros Hi. unfold elem. by rewrite (proj2 (N.ltb_ge _ _) Hi). Qed.

Lemma Array_wf_frame own h h' a :
  Array_wf h a -> heap_frame own h h' -> Array_wf h' a.
Proof.
  intros [H1 H2 H3 H4] (L & S & F). split; try done.
  intros b Hb. destruct (H3 b Hb) as (blk & Hblk & Hl).
  destruct (S _ _ Hblk) as (blk' & Hblk' & Hl'). exists blk'. split; [done | congruence].
Qed.

Lemma wf_owned_lt h a b : Array_wf h a -> b ∈ data_ a -> (b < length h)%nat.
Proof. intros Hwf Hb. destruct (wf_blocks _ _ Hwf _ Hb) as (blk & Hblk & _). by eapply lookup_lt_Some. Qed.

Lemma elem_frame own h h' a i :
  Array_wf h a -> heap_frame own h h' ->
  (forall b, b ∈ data_ a -> b ∉ own) ->
  elem h' a i = elem h a i.
Proof.
  intros Hwf Hf Hdisj. unfold elem. destruct (i <? element_count_ a); [|done].
  destruct (ref a i) as [p|] eqn:Hp; [|done]. simpl.
  pose proof (ref_owned _ _ _ Hp) as Ho.
  eapply load_frame; [done | by eapply wf_owned_lt | by apply Hdisj].
Qed.
End ArrayProps.

Section ArraySpecs.
Context {element : Type}.
Variable value_init : element.
Variable destroy : element -> element.
Implicit Types (h : list (list element)) (a : Array) (p q : ptr) (i j : N).
Implicit Types s : @AState element.

Lemma free_space_count_no_underflow h a :
  Array_wf h a -> element_count_ a <= N.of_nat (length (data_ a)) * block_size_ a.
Proof. apply wf_count. Qed.

Lemma free_space_zero h a :
  Array_wf h a -> (free_space_count_ a = 0 <-> capacity a = element_count_ a).
Proof. intros Hwf. pose proof (wf_count _ _ Hwf). unfold free_space_count_, capacity in *. lia. Qed.

Lemma Array_wf_add_block h a :
  Array_wf h a ->
  Array_wf (h ++ [replicate (N.to_nat (block_size_ a)) value_init])
           (mkArray (data_ a ++ [length h]) (block_size_ a) (element_count_ a)).
Proof.
  intros Hwf. split; simpl.
  - apply Hwf.
  - apply NoDup_app. split; [apply Hwf|]. split; [|apply NoDup_singleton].
    intros b Hb ->%list_elem_of_singleton.
    pose proof (wf_owned_lt _ _ _ Hwf Hb). lia.
  - intros b [Hb| ->%list_elem_of_singleton]%elem_of_app.
    + destruct (wf_blocks _ _ Hwf _ Hb) as (blk & Hblk & Hl). exists blk. split; [|done].
      by apply lookup_app_l_Some.
    + eexists. split; [by apply list_lookup_middle|]. by rewrite length_replicate.
  - pose proof (wf_count _ _ Hwf). unfold capacity in *. simpl.
    rewrite length_app. simpl. lia.
Qed.

Lemma add_block_spec s :
  wp (add_block_ value_init) s
    (fun s' _ =>
       a_heap s' = a_heap s ++ [replicate (N.to_nat (block_size_ (a_this s))) value_init] /\
       a_this s' = mkArray (data_ (a_this s) ++ [length (a_heap s)])
                     (block_size_ (a_this s)) (element_count_ (a_this s)) /\
       alloc_attempt (a_script s) = (true, a_script s'))
    (fun s' e =>
       e = UnavailableMemoryException /\ a_heap s' = a_heap s /\ a_this s' = a_this s /\
       alloc_attempt (a_script s) = (false, a_script s')).
Proof.
  unfold wp, add_block_. destruct (alloc_attempt (a_script s)) as [[] rest]; simpl; auto.
Qed.

Lemma store_length h p x h' : store h p x = Some h' -> length h' = length h.
Proof. intros (blk & _ & _ & ->)%store_Some. by rewrite length_insert. Qed.

Lemma heap_frame_store_own own h p x h' :
  store h p x = Some h' -> p.1 ∈ own -> heap_frame own h h'.
Proof.
  intros Hst Hp. eapply heap_frame_mono; [|by eapply store_frame].
  by intros b ->%list_elem_of_singleton.
Qed.

Lemma heap_frame_store_new own h l p x h' :
  store (h ++ l) p x = Some h' -> (length h <= p.1)%nat -> heap_frame own h h'.
Proof.
  intros Hst Hp. destruct (store_frame _ _ _ _ Hst) as (L & Sz & F).
  rewrite length_app in *.
  assert (forall b, (b < length h)%nat -> h' !! b = h !! b) as Hsame.
  { intros b Hb. rewrite F.
    - by rewrite lookup_app_l.
    - lia.
    - intros ->%list_elem_of_singleton. lia. }
  repeat split.
  - lia.
  - intros b blk Hb. exists blk. split; [|done].
    rewrite Hsame; [done | by eapply lookup_lt_Some].
  - intros b Hb _. by apply Hsame.
Qed.

(** Writing [x] into the slot of index [element_count_] and counting it. *)
Lemma write_at_end x script h a :
  Array_wf h a -> element_count_ a < capacity a ->
  wp (let* n := Array_size in
      let* p := slot n in
      assign p x ;;; set_element_count (n + 1))
     (mkAState script h a)
     (fun s' _ => exists p h',
        ref a (element_count_ a) = Some p /\ store h p x = Some h' /\
        s' = mkAState script h' (mkArray (data_ a) (block_size_ a) (element_count_ a + 1)))
     (fun _ _ => False).
Proof.
  intros Hwf Hlt.
  destruct (element_ref_lt (data_ a) (block_size_ a) (element_count_ a)) as [p Hp];
    [apply Hwf | done |].
  destruct (store_is_Some h p x) as [h' Hst]; [by eapply ref_load|].
  apply wp_bind, wp_gets. simpl. apply wp_bind.
  unfold slot. simpl. eapply wp_from_option; [exact Hp|].
  apply wp_bind. unfold wp at 1, assign. simpl. rewrite Hst.
  apply wp_modify. simpl. eauto.
Qed.

(** What a successful [push_back] establishes. *)
Definition push_back_post (x : element) s s' : Prop :=
  let h := a_heap s in let a := a_this s in
  let h' := a_heap s' in let a' := a_this s' in
  exists p,
    Array_wf h' a' /\
    block_size_ a' = block_size_ a /\
    element_count_ a' = element_count_ a + 1 /\
    ref a' (element_count_ a) = Some p /\
    load h' p = Some x /\
    (forall i, i < element_count_ a -> ref a' i = ref a i) /\
    (forall q, q <> p -> (q.1 < length h)%nat -> load h' q = load h q) /\
    heap_frame (data_ a) h h' /\
    ((free_space_count_ a <> 0 /\ data_ a' = data_ a /\ length h' = length h /\
      a_script s' = a_script s) \/
     (free_space_count_ a = 0 /\ data_ a' = data_ a ++ [length h] /\
      length h' = Datatypes.S (length h) /\
      alloc_attempt (a_script s) = (true, a_script s'))).

Lemma alloc_attempt_fails script script' :
  alloc_attempt script = (false, script') -> script <> [].
Proof. by intros H ->. Qed.

Lemma push_back_post_script x s s' :
  push_back_post x s s' -> a_script s = [] -> a_script s' = [].
Proof.
  intros (p & _ & _ & _ & _ & _ & _ & _ & _ & [(_ & _ & _ & ->) | (_ & _ & _ & H)]) Hs; [done|].
  rewrite Hs in H. by injection H.
Qed.

Lemma Array_push_back_spec x s :
  Array_wf (a_heap s) (a_this s) ->
  wp (Array_push_back value_init x) s
    (fun s' _ => push_back_post x s s')
    (fun s' e =>
       e = UnavailableMemoryException /\ a_heap s' = a_heap s /\ a_this s' = a_this s /\
       free_space_count_ (a_this s) = 0 /\
       alloc_attempt (a_script s) = (false, a_script s')).
Proof.
  intros Hwf. destruct s as [script h a]. simpl in *.
  unfold Array_push_back. apply wp_bind, wp_gets. simpl.
  destruct (free_space_count_ a =? 0) eqn:Hfree.
  - apply N.eqb_eq in Hfree.
    pose proof (proj1 (free_space_zero _ _ Hwf) Hfree) as Hcap.
    apply wp_bind. eapply wp_mono; [apply add_block_spec | | by intros ? ? (-> & ? & ? & ?)].
    intros [script1 h1 a1] [] (Hh1 & Ha1 & Hs). simpl in *. subst h1 a1.
    pose proof (Array_wf_add_block _ _ Hwf) as Hwf1.
    eapply wp_mono; [apply write_at_end; [exact Hwf1|] | | done].
    { unfold capacity in *. simpl. rewrite length_app. simpl. pose proof (wf_block_size _ _ Hwf). lia. }
    intros s' [] (p & h' & Hp & Hst & ->). simpl in *.
    assert (p = (length h, 0%nat)) as ->.
    { unfold ref in Hp. simpl in Hp. rewrite <- Hcap in Hp.
      unfold capacity in Hp. rewrite element_ref_next in Hp by apply Hwf. congruence. }
    exists (length h, 0%nat). simpl. split_and!.
    + pose proof (Array_wf_frame _ _ _ _ Hwf1 (store_frame _ _ _ _ Hst)) as [F1 F2 F3 F4].
      split; simpl in *; try done. unfold capacity in *. simpl in *.
      rewrite length_app in *. simpl in *. lia.
    + done.
    + done.
    + exact Hp.
    + rewrite (load_store _ _ _ _ _ Hst). by rewrite decide_True.
    + intros i Hi. unfold ref. simpl. apply element_ref_app.
      apply element_ref_lt; [apply Hwf|]. unfold capacity in Hcap. lia.
    + intros q Hq Hlt. rewrite (load_store _ _ _ _ _ Hst). rewrite decide_False by done.
      unfold load. by rewrite lookup_app_l.
    + eapply heap_frame_store_new; [exact Hst | simpl; lia].
    + right. split_and!; try done.
      rewrite (store_length _ _ _ _ Hst), length_app. simpl. lia.
  - apply N.eqb_neq in Hfree.
    assert (element_count_ a < capacity a) as Hlt.
    { pose proof (wf_count _ _ Hwf). unfold free_space_count_, capacity in *. lia. }
    apply wp_bind, wp_ret.
    eapply wp_mono; [apply write_at_end; [exact Hwf | exact Hlt] | | done].
    intros s' [] (p & h' & Hp & Hst & ->). simpl in *.
    exists p. simpl. split_and!.
    + pose proof (Array_wf_frame _ _ _ _ Hwf (store_frame _ _ _ _ Hst)) as [F1 F2 F3 F4].
      split; simpl in *; try done. unfold capacity in *. simpl in *. lia.
    + done.
    + done.
    + exact Hp.
    + rewrite (load_store _ _ _ _ _ Hst). by rewrite decide_True.
    + done.
    + intros q Hq Hlt'. rewrite (load_store _ _ _ _ _ Hst). by rewrite decide_False.
    + eapply heap_frame_store_own; [exact Hst | by eapply ref_owned].
    + left. split_and!; try done. by eapply store_length.
Qed.
Lemma push_back_post_elem x s s' :
  Array_wf (a_heap s) (a_this s) -> push_back_post x s s' ->
  elem (a_heap s') (a_this s') (element_count_ (a_this s)) = Some x /\
  forall i, i < element_count_ (a_this s) ->
    elem (a_heap s') (a_this s') i = elem (a_heap s) (a_this s) i.
Proof.
  intros Hwf (p & Hwf' & Hbs & Hec & Hp & Hld & Hrefs & Hother & Hfr & _).
  split.
  - unfold elem. rewrite Hec, (proj2 (N.ltb_lt _ _)) by lia. rewrite Hp. done.
  - intros i Hi. unfold elem. rewrite Hec, !(proj2 (N.ltb_lt _ _)) by lia.
    rewrite (Hrefs i Hi).
    destruct (ref (a_this s) i) as [q|] eqn:Hq; [|done]. simpl.
    apply Hother.
    + intros ->. rewrite <- (Hrefs i Hi) in Hq.
      pose proof (element_ref_inj _ _ _ _ _ (wf_NoDup _ _ Hwf') Hq Hp). lia.
    + eapply wf_owned_lt; [exact Hwf | by eapply ref_owned].
Qed.

Lemma Array_get__spec index s :
  Array_wf (a_heap s) (a_this s) ->
  wp (Array_get_ index) s
    (fun s' p => s' = s /\ index < element_count_ (a_this s) /\
                 ref (a_this s) index = Some p)
    (fun s' e => s' = s /\ element_count_ (a_this s) <= index /\ e = OutOfRangeException).
Proof.
  intros Hwf. unfold Array_get_. apply wp_bind, wp_gets.
  destruct (element_count_ (a_this s) <=? index) eqn:E.
  - apply N.leb_le in E. by apply wp_throw.
  - apply N.leb_gt in E.
    destruct (element_ref_lt (data_ (a_this s)) (block_size_ (a_this s)) index) as [p Hp].
    + apply Hwf.
    + pose proof (wf_count _ _ Hwf). unfold capacity in *. lia.
    + unfold slot. eapply wp_from_option; [exact Hp|]. done.
Qed.

Lemma Array_pop_back_spec s :
  Array_wf (a_heap s) (a_this s) ->
  wp (Array_pop_back destroy) s
    (fun s' _ =>
       0 < element_count_ (a_this s) /\
       a_script s' = a_script s /\
       a_this s' = mkArray (data_ (a_this s)) (block_size_ (a_this s))
                     (element_count_ (a_this s) - 1) /\
       Array_wf (a_heap s') (a_this s') /\
       heap_frame (data_ (a_this s)) (a_heap s) (a_heap s') /\
       length (a_heap s') = length (a_heap s) /\
       forall i, i < element_count_ (a_this s) - 1 ->
         elem (a_heap s') (a_this s') i = elem (a_heap s) (a_this s) i)
    (fun s' e => s' = s /\ element_count_ (a_this s) = 0 /\ e = EmptyArrayException).
Proof.
  intros Hwf. destruct s as [script h a]. simpl in *.
  unfold Array_pop_back. apply wp_bind, wp_gets. simpl.
  destruct (element_count_ a =? 0) eqn:E.
  - apply N.eqb_eq in E. by apply wp_throw.
  - apply N.eqb_neq in E. apply wp_bind, wp_modify. simpl.
    destruct (element_ref_lt (data_ a) (block_size_ a) (element_count_ a - 1)) as [p Hp].
    { apply Hwf. }
    { pose proof (wf_count _ _ Hwf). unfold capacity in *. lia. }
    apply wp_bind. unfold slot. simpl. eapply wp_from_option; [exact Hp|].
    destruct (ref_load h a _ _ Hwf Hp) as [x Hx].
    apply wp_bind. unfold read. simpl. eapply wp_from_option; [exact Hx|].
    destruct (store_is_Some h p (destroy x)) as [h' Hst]; [by rewrite Hx|].
    unfold wp, assign. simpl. rewrite Hst.
    pose proof (heap_frame_store_own (data_ a) _ _ _ _ Hst (ref_owned a _ _ Hp)) as Hfr.
    split_and!; try done.
    + lia.
    + pose proof (Array_wf_frame _ _ _ _ Hwf Hfr) as [F1 F2 F3 F4].
      split; simpl in *; try done. unfold capacity in *. simpl in *. lia.
    + by eapply store_length.
    + intros i Hi. unfold elem. simpl. rewrite !(proj2 (N.ltb_lt _ _)) by lia.
      unfold ref. simpl.
      destruct (element_ref (data_ a) (block_size_ a) i) as [q|] eqn:Hq; [|done]. simpl.
      rewrite (load_store _ _ _ _ _ Hst). rewrite decide_False; [done|].
      intros ->. pose proof (element_ref_inj _ _ _ _ _ (wf_NoDup _ _ Hwf) Hq Hp). lia.
Qed.
End ArraySpecs.

(** ** The adjacency matrix *)

Definition square (n : nat) (m : list (list (option ptr))) : Prop :=
  length m = n /\ forall row, row ∈ m -> length row = n.

(** the matrix after a successful [grow_adjacency_matrix] *)
Definition grown (m : list (list (option ptr))) : list (list (option ptr)) :=
  ((fun row => row ++ [None]) <$> m) ++ [replicate (Datatypes.S (length m)) None].

Section MatrixProps.
Implicit Types (m : list (list (option ptr))) (s t : N) (v : option ptr).

Lemma matrix_get_lt n m s t :
  square n m -> (s < N.of_nat n /\ t < N.of_nat n <-> is_Some (matrix_get m s t)).
Proof.
  intros [Hl Hrows]. unfold matrix_get. split.
  - intros [Hs Ht]. destruct (lookup_lt_is_Some_2 m (N.to_nat s)) as [row Hrow]; [lia|].
    rewrite Hrow. simpl. apply lookup_lt_is_Some_2.
    rewrite (Hrows row) by (by eapply list_elem_of_lookup_2). lia.
  - destruct (m !! N.to_nat s) as [row|] eqn:Hrow; simpl; [|by intros [? ?]].
    intros Ht%lookup_lt_is_Some_1.
    rewrite (Hrows row) in Ht by (by eapply list_elem_of_lookup_2).
    apply lookup_lt_Some in Hrow. lia.
Qed.

Lemma matrix_set_Some m s t v m' :
  matrix_set m s t v = Some m' ->
  exists row, m !! N.to_nat s = Some row /\ (N.to_nat t < length row)%nat /\
              m' = <[N.to_nat s := <[N.to_nat t := v]> row]> m.
Proof.
  unfold matrix_set. destruct (m !! N.to_nat s) as [row|]; [|done]. simpl.
  case_decide; [|done]. intros [= <-]. eauto.
Qed.

Lemma matrix_set_is_Some m s t v :
  is_Some (matrix_get m s t) -> is_Some (matrix_set m s t v).
Proof.
  unfold matrix_get, matrix_set. destruct (m !! N.to_nat s) as [row|]; simpl; [|by intros [? ?]].
  intros Ht%lookup_lt_is_Some_1. rewrite decide_True by done. eauto.
Qed.

Lemma matrix_get_set m s t v m' s' t' :
  matrix_set m s t v = Some m' ->
  matrix_get m' s' t' =
    if decide (s' = s /\ t' = t) then Some v else matrix_get m s' t'.
Proof.
  intros (row & Hrow & Ht & ->)%matrix_set_Some. unfold matrix_get.
  destruct (decide (s' = s)) as [->|Hs].
  - rewrite list_lookup_insert_eq by (by eapply lookup_lt_Some). rewrite Hrow. simpl.
    destruct (decide (t' = t)) as [->|Hne].
    + rewrite decide_True by done. by rewrite list_lookup_insert_eq.
    + rewrite decide_False by (intros [_ ?]; done).
      rewrite list_lookup_insert_ne; [done | lia].
  - rewrite decide_False by (intros [? _]; done).
    rewrite list_lookup_insert_ne; [done | lia].
Qed.

Lemma matrix_set_square n m s t v m' :
  square n m -> matrix_set m s t v = Some m' -> square n m'.
Proof.
  intros [Hl Hrows] (row & Hrow & Ht & ->)%matrix_set_Some. split.
  - by rewrite length_insert.
  - intros r (i & Hi)%list_elem_of_lookup_1.
    destruct (decide (i = N.to_nat s)) as [->|Hne].
    + rewrite list_lookup_insert_eq in Hi by (by eapply lookup_lt_Some).
      injection Hi as <-. rewrite length_insert.
      apply Hrows. by eapply list_elem_of_lookup_2.
    + rewrite list_lookup_insert_ne in Hi by done.
      apply Hrows. by eapply list_elem_of_lookup_2.
Qed.

Lemma matrix_set_same m s t v :
  matrix_get m s t = Some v -> matrix_set m s t v = Some m.
Proof.
  unfold matrix_get, matrix_set. destruct (m !! N.to_nat s) as [row|] eqn:Hrow; [|done].
  simpl. intros Ht. rewrite decide_True by (by eapply lookup_lt_Some).
  f_equal. rewrite (list_insert_id row) by done. by apply list_insert_id.
Qed.

Lemma square_grown n m : square n m -> square (Datatypes.S n) (grown m).
Proof.
  intros [Hl Hrows]. unfold grown. split.
  - rewrite length_app, length_fmap. simpl. lia.
  - intros row [Hr| ->%list_elem_of_singleton]%elem_of_app.
    + apply list_elem_of_fmap in Hr as (r & -> & Hr). rewrite length_app, (Hrows r Hr). simpl. lia.
    + rewrite length_replicate. lia.
Qed.

Lemma matrix_get_grown n m s t :
  square n m ->
  matrix_get (grown m) s t =
    if decide (s < N.of_nat n /\ t < N.of_nat n) then matrix_get m s t
    else if decide (s <= N.of_nat n /\ t <= N.of_nat n) then Some None
    else None.
Proof.
  intros [Hl Hrows]. unfold matrix_get, grown.
  destruct (decide (s < N.of_nat n)) as [Hs|Hs].
  - destruct (lookup_lt_is_Some_2 m (N.to_nat s)) as [row Hrow]; [lia|].
    rewrite lookup_app_l by (rewrite length_fmap; lia).
    rewrite list_lookup_fmap, Hrow. simpl.
    pose proof (Hrows row ltac:(by eapply list_elem_of_lookup_2)) as Hlr.
    destruct (decide (t < N.of_nat n)) as [Ht|Ht].
    + rewrite decide_True by done. rewrite lookup_app_l by lia. done.
    + rewrite decide_False by (intros [_ ?]; done).
      destruct (decide (t = N.of_nat n)) as [->|Hne].
      * rewrite decide_True by lia.
        apply list_lookup_middle. lia.
      * rewrite decide_False by lia.
        apply lookup_ge_None_2. rewrite length_app. simpl. lia.
  - rewrite decide_False by (intros [? _]; done).
    destruct (decide (s = N.of_nat n)) as [->|Hne].
    + rewrite list_lookup_middle by (rewrite length_fmap; lia). cbn -[replicate].
      destruct (decide (t <= N.of_nat n)) as [Ht|Ht].
      * rewrite decide_True by lia. apply lookup_replicate_2. lia.
      * rewrite decide_False by lia. apply lookup_ge_None_2. rewrite length_replicate. lia.
    + rewrite decide_False by lia.
      rewrite (lookup_ge_None_2 _ (N.to_nat s)); [done|].
      rewrite length_app, length_fmap. simpl. lia.
Qed.
End MatrixProps.

(** ** Graphs: abstraction and representation invariant *)

Section GraphProps.
Context {NData EData : Type}.
Implicit Types (s : @GState NData EData) (g : Graph) (i j src tgt : N).

Definition nodes_of g : Array := Nodes_nodes_ (Graph_nodes_ g).
Definition edges_of g : Array := Edges_edges_ (Graph_edges_ g).
Definition matrix_of g : list (list (option ptr)) := adjacency_matrix_ (Graph_edges_ g).
Definition node_count g : N := element_count_ (nodes_of g).
Definition edge_count g : N := element_count_ (edges_of g).

(** the node and the edge stored at a position *)
Definition node_at s i : option (Node NData) := elem (nheap s) (nodes_of (g_this s)) i.
Definition edge_at s i : option (Edge EData) := elem (eheap s) (edges_of (g_this s)) i.

Definition with_script (script : list bool) s : GState :=
  mkGState script (nheap s) (eheap s) (g_this s).
Definition with_matrix (m : list (list (option ptr))) s : GState :=
  set_graph (set_matrix m) s.

(** [e] goes from the node of position [src] to the node of position
    [tgt], both in the node store of [g] *)
Definition joins g (e : Edge EData) src tgt : Prop :=
  src < node_count g /\ tgt < node_count g /\
  Edge_source_ e = ref (nodes_of g) src /\ Edge_target_ e = ref (nodes_of g) tgt.

(** [e] is the edge recorded for the ordered pair [(src, tgt)] *)
Definition links g (e : Edge EData) src tgt : Prop :=
  joins g e src tgt \/ (is_undirected g = true /\ joins g e tgt src).

Record Graph_wf s : Prop := {
  wf_nodes : Array_wf (nheap s) (nodes_of (g_this s));
  wf_edges : Array_wf (eheap s) (edges_of (g_this s));
  wf_node_ids : forall i n, node_at s i = Some n -> Node_id_ n = i;
  wf_edge_ids : forall i e, edge_at s i = Some e -> Edge_id_ e = i;
  wf_endpoints : forall i e, edge_at s i = Some e ->
    exists src tgt, joins (g_this s) e src tgt;
  wf_square : square (N.to_nat (node_count (g_this s))) (matrix_of (g_this s));
  wf_cells : forall src tgt p,
    matrix_get (matrix_of (g_this s)) src tgt = Some (Some p) <->
    exists i e, edge_at s i = Some e /\ ref (edges_of (g_this s)) i = Some p /\
                links (g_this s) e src tgt
}.

Lemma set_matrix_id g : set_matrix (matrix_of g) g = g.
Proof. by destruct g as [? [? ?] ?]. Qed.

Lemma with_matrix_id s : with_matrix (matrix_of (g_this s)) s = s.
Proof. destruct s as [? ? ? g]. unfold with_matrix, set_graph. simpl. by rewrite set_matrix_id. Qed.

Lemma vector_alloc_spec s :
  wp vector_alloc s
    (fun s' _ => exists script, s' = with_script script s)
    (fun s' e => e = std_bad_alloc /\ exists script, s' = with_script script s).
Proof.
  unfold wp, vector_alloc. destruct (alloc_attempt (g_script s)) as [[] rest]; eauto.
Qed.

Lemma update_row_spec f i s row :
  matrix_of (g_this s) !! N.to_nat i = Some row ->
  wp (update_row f i) s
    (fun s' _ => s' = with_matrix (<[N.to_nat i := f row]> (matrix_of (g_this s))) s)
    (fun _ _ => False).
Proof.
  intros Hrow. unfold update_row. apply wp_bind, wp_gets.
  apply wp_bind. eapply wp_from_option; [exact Hrow|]. by apply wp_modify.
Qed.

(** the matrix with [f] applied to its first [k] rows *)
Definition rows_done (f : list (option ptr) -> list (option ptr)) (k : nat)
    (m : list (list (option ptr))) : list (list (option ptr)) :=
  (f <$> take k m) ++ drop k m.

Lemma rows_done_step f k m row :
  m !! k = Some row ->
  rows_done f k m !! k = Some row /\
  <[k := f row]> (rows_done f k m) = rows_done f (Datatypes.S k) m.
Proof.
  intros Hrow. pose proof (lookup_lt_Some _ _ _ Hrow) as Hk. unfold rows_done.
  assert (length (f <$> take k m) = k) as Hlen by (rewrite length_fmap, length_take; lia).
  split.
  - rewrite lookup_app_r by lia. rewrite Hlen, Nat.sub_diag, lookup_drop, Nat.add_0_r. done.
  - rewrite insert_app_r_alt by lia. rewrite Hlen, Nat.sub_diag.
    rewrite (take_S_r _ _ _ Hrow), fmap_app, <- (assoc_L (++)). f_equal.
    rewrite (drop_S _ _ _ Hrow). done.
Qed.

Lemma rows_done_all f m : rows_done f (length m) m = f <$> m.
Proof. unfold rows_done. by rewrite firstn_all, drop_all, app_nil_r. Qed.

Lemma rows_done_length f k m : length (rows_done f k m) = length m.
Proof. unfold rows_done. by rewrite length_app, length_fmap, <- length_app, take_drop. Qed.

Lemma vector_resize_id n (row : list (option ptr)) :
  length row = n -> vector_resize n row = row.
Proof.
  intros <-. unfold vector_resize. by rewrite firstn_all, Nat.sub_diag, app_nil_r.
Qed.

Lemma vector_resize_snoc n (row : list (option ptr)) x :
  length row = n -> vector_resize n (row ++ [x]) = row.
Proof.
  intros <-. unfold vector_resize. rewrite take_app_length, length_app. simpl.
  replace (length row - (length row + 1))%nat with 0%nat by lia. by rewrite app_nil_r.
Qed.

Lemma resize_rows_done n k m :
  (forall row, row ∈ m -> length row = n) ->
  vector_resize n <$> rows_done (fun row => row ++ [None]) k m = m.
Proof.
  intros Hrows. unfold rows_done. rewrite fmap_app, <- list_fmap_compose.
  rewrite <- (take_drop k m) at 3. f_equal.
  - rewrite <- (list_fmap_id (take k m)) at 2. apply list_fmap_ext.
    intros j row Hj. simpl. apply vector_resize_snoc, Hrows.
    apply elem_of_take in Hj as [? ?] || (apply lookup_take_Some in Hj as [Hj _];
      by eapply list_elem_of_lookup_2).
  - rewrite <- (list_fmap_id (drop k m)) at 2. apply list_fmap_ext.
    intros j row Hj. simpl. apply vector_resize_id, Hrows.
    rewrite lookup_drop in Hj. by eapply list_elem_of_lookup_2.
Qed.

(** [grow_adjacency_matrix] is atomic: it installs the grown matrix, or
    throws and restores the matrix it started from. *)
Lemma grow_adjacency_matrix_spec s n :
  square n (matrix_of (g_this s)) ->
  wp grow_adjacency_matrix s
    (fun s' _ => exists script,
       s' = with_script script (with_matrix (grown (matrix_of (g_this s))) s))
    (fun s' e => e = UnavailableMemoryException /\ exists script, s' = with_script script s).
Proof.
  intros [Hl Hrows]. set (m := matrix_of (g_this s)) in *.
  set (f := fun row : list (option ptr) => row ++ [None]).
  unfold grow_adjacency_matrix. apply wp_bind, wp_gets. fold (matrix_of (g_this s)). fold m.
  set (partial := fun s' : @GState NData EData => exists k script,
         (k <= length m)%nat /\ s' = with_script script (with_matrix (rows_done f k m) s)).
  set (Qf := fun (s' : @GState NData EData) (_ : unit) => exists script,
         s' = with_script script (with_matrix (grown m) s)).
  apply wp_try_catch.
  eapply (wp_mono _ _ Qf Qf (fun s' _ => partial s')).
  - apply wp_bind.
    eapply wp_mono;
      [apply (wp_for (fun k s' => exists script,
                s' = with_script script (with_matrix (rows_done f (N.to_nat k) m) s))
                _ (fun s' _ => partial s')) | |].
    + exists (g_script s). simpl. unfold rows_done. simpl.
      change (drop (N.to_nat 0) m) with (matrix_of (g_this s)).
      rewrite with_matrix_id. by destruct s.
    + intros k s1 Hk (script & ->). apply wp_bind.
      eapply wp_mono; [apply vector_alloc_spec | |].
      * intros s2 [] (script2 & ->). cbv beta.
        destruct (lookup_lt_is_Some_2 m (N.to_nat k)) as [row Hrow]; [lia|].
        destruct (rows_done_step f _ _ _ Hrow) as [Hget Hins].
        eapply wp_mono; [eapply update_row_spec; simpl; exact Hget | | done].
        intros s3 [] ->. exists script2.
        replace (N.to_nat (k + 1)) with (Datatypes.S (N.to_nat k)) by lia.
        rewrite <- Hins. reflexivity.
      * intros s2 e (-> & script2 & ->). exists (N.to_nat k), script2. split; [lia | done].
    + intros s1 [] (script & ->). cbv beta. rewrite Nat2N.id, rows_done_all.
      assert (partial (with_script script (with_matrix (f <$> m) s))) as Hpart.
      { exists (length m), script. split; [done|]. by rewrite rows_done_all. }
      apply wp_bind. eapply wp_mono; [apply vector_alloc_spec | |].
      * intros s2 [] (script2 & ->). cbv beta.
        apply wp_bind. eapply wp_mono; [apply vector_alloc_spec | |].
        -- intros s3 [] (script3 & ->). cbv beta.
           apply wp_bind, wp_gets. apply wp_modify. simpl.
           exists script3. unfold grown. fold m. fold f.
           replace (N.to_nat (N.of_nat (length m) + 1)) with (Datatypes.S (length m)) by lia.
           done.
        -- intros s3 e (-> & script3 & ->). exists (length m), script3.
           split; [done|]. by rewrite rows_done_all.
      * intros s2 e (-> & script2 & ->). exists (length m), script2.
        split; [done|]. by rewrite rows_done_all.
    + auto.
  - auto.
  - intros s1 _ (k & script & Hk & ->).
    set (m1 := rows_done f k m).
    set (r := vector_resize (N.to_nat (N.of_nat (length m)))).
    apply wp_bind.
    eapply wp_mono;
      [apply (wp_for (fun j s' =>
                s' = with_script script (with_matrix (rows_done r (N.to_nat j) m1) s))
                _ (fun _ _ => False)) | |].
    + simpl. done.
    + intros j s2 Hj ->.
      destruct (lookup_lt_is_Some_2 m1 (N.to_nat j)) as [row Hrow].
      { unfold m1. rewrite rows_done_length. lia. }
      destruct (rows_done_step r _ _ _ Hrow) as [Hget Hins].
      eapply wp_mono; [eapply update_row_spec; simpl; exact Hget | | done].
      intros s3 [] ->.
      replace (N.to_nat (j + 1)) with (Datatypes.S (N.to_nat j)) by lia.
      rewrite <- Hins. reflexivity.
    + intros s2 [] ->. cbv beta.
      replace (N.to_nat (N.of_nat (length m))) with (length m1)
        by (unfold m1; rewrite rows_done_length; lia).
      rewrite rows_done_all. unfold r, m1. rewrite Nat2N.id, Hl.
      rewrite (resize_rows_done n k m Hrows : vector_resize n <$> rows_done f k m = m).
      rewrite rows_done_length.
      apply wp_bind, wp_gets. apply wp_bind, wp_modify. apply wp_throw.
      split; [done|]. exists script.
      change (matrix_of (g_this (with_script script (with_matrix m s)))) with m.
      rewrite firstn_all, Nat.sub_diag, app_nil_r.
      unfold m. destruct s as [? ? ? [? [? ?] ?]]. done.
    + done.
Qed.

(** With an allocator that never fails, a computation that throws only
    when an allocation fails does not throw. *)
Definition steady {A} (m : M (@GState NData EData) A) : Prop :=
  forall s, g_script s = [] ->
    match m s with
    | Ok s' _ => g_script s' = []
    | Throw _ _ => False
    | Undefined => True
    end.

Lemma steady_bind {A B} (m : M GState A) (k : A -> M GState B) :
  steady m -> (forall a, steady (k a)) -> steady (bind m k).
Proof.
  intros Hm Hk s Hs. specialize (Hm s Hs). unfold bind.
  destruct (m s) as [s' a| |]; [|done..]. by apply Hk.
Qed.

Lemma steady_for n (body : N -> M GState unit) :
  (forall i, steady (body i)) -> steady (for_ n body).
Proof.
  intros Hbody. unfold for_. generalize 0. induction (N.to_nat n) as [|k IH]; intros from.
  - by intros s Hs.
  - simpl. apply steady_bind; [apply Hbody | intros _; apply IH].
Qed.

Lemma steady_try_catch {A} (m h : M GState A) : steady m -> steady (try_catch m h).
Proof. intros Hm s Hs. specialize (Hm s Hs). unfold try_catch. by destruct (m s). Qed.

Lemma steady_vector_alloc : steady vector_alloc.
Proof. intros s Hs. unfold vector_alloc. by rewrite Hs. Qed.

Lemma steady_the_matrix : steady the_matrix.
Proof. by intros s Hs. Qed.

Lemma steady_set_matrix m : steady (modify (set_graph (set_matrix m))).
Proof. by intros s Hs. Qed.

Lemma steady_update_row f i : steady (update_row f i).
Proof.
  apply steady_bind; [apply steady_the_matrix|]. intros m.
  apply steady_bind; [|intros row; apply steady_set_matrix].
  intros s Hs. by destruct (m !! N.to_nat i).
Qed.

Lemma steady_grow_adjacency_matrix : steady grow_adjacency_matrix.
Proof.
  apply steady_bind; [apply steady_the_matrix|]. intros m. apply steady_try_catch.
  apply steady_bind.
  { apply steady_for. intros i.
    apply steady_bind; [apply steady_vector_alloc | intros _; apply steady_update_row]. }
  intros _. apply steady_bind; [apply steady_vector_alloc|]. intros _.
  apply steady_bind; [apply steady_vector_alloc|]. intros _.
  apply steady_bind; [apply steady_the_matrix|]. intros m'. apply steady_set_matrix.
Qed.

(** The growth of the matrix, with what it does to the allocator. *)
Lemma grow_adjacency_matrix_calm s n :
  square n (matrix_of (g_this s)) ->
  wp grow_adjacency_matrix s
    (fun s' _ => exists script,
       s' = with_script script (with_matrix (grown (matrix_of (g_this s))) s) /\
       (g_script s = [] -> script = []))
    (fun s' e => e = UnavailableMemoryException /\
       (exists script, s' = with_script script s) /\ g_script s <> []).
Proof.
  intros Hsq. pose proof (grow_adjacency_matrix_spec s n Hsq) as Hspec.
  pose proof (steady_grow_adjacency_matrix s) as Hst. unfold wp in *.
  destruct (grow_adjacency_matrix s) as [s' []|s' e|]; [| |done].
  - destruct Hspec as (script & ->). exists script. split; [done|]. intros Hs. by apply Hst.
  - destruct Hspec as (-> & Hscript). split; [done|]. split; [done|]. intros Hs. by apply Hst.
Qed.
End GraphProps.

Section GraphInvariant.
Context {NData EData : Type}.
Implicit Types (s : @GState NData EData) (g : Graph) (i j src tgt : N).
Implicit Types (e : Edge EData).

Lemma ref_lt_Some {element} (h : list (list element)) a i :
  Array_wf h a -> i < element_count_ a -> is_Some (ref a i).
Proof.
  intros Hwf Hi. apply element_ref_lt; [apply Hwf|].
  pose proof (wf_count _ _ Hwf). unfold capacity in *. lia.
Qed.

Lemma heap_frame_trans' {element} own own' (h1 h2 h3 : list (list element)) :
  heap_frame own h1 h2 -> heap_frame own' h2 h3 ->
  (forall b, b ∈ own' -> b ∈ own \/ (length h1 <= b)%nat) ->
  heap_frame own h1 h3.
Proof.
  intros (L1 & S1 & F1) (L2 & S2 & F2) Hsub. repeat split.
  - lia.
  - intros b blk Hb. destruct (S1 _ _ Hb) as (blk' & Hb' & E1).
    destruct (S2 _ _ Hb') as (blk'' & Hb'' & E2). exists blk''. split; [done | congruence].
  - intros b Hb Hn. rewrite F2; [by apply F1 | lia |].
    intros [?|?]%Hsub; [done | lia].
Qed.

Lemma Graph_wf_with_script script s : Graph_wf s -> Graph_wf (with_script script s).
Proof. by intros []. Qed.

(** Endpoints are determined by the pointers of the edge. *)
Lemma joins_inj s e src tgt src' tgt' :
  Array_wf (nheap s) (nodes_of (g_this s)) ->
  joins (g_this s) e src tgt -> joins (g_this s) e src' tgt' -> src = src' /\ tgt = tgt'.
Proof.
  intros Hwf (H1 & H2 & H3 & H4) (H1' & H2' & H3' & H4').
  destruct (ref_lt_Some _ _ _ Hwf H1) as [p Hp].
  destruct (ref_lt_Some _ _ _ Hwf H2) as [q Hq].
  split.
  - eapply element_ref_inj; [apply Hwf | exact Hp |]. unfold ref in *. congruence.
  - eapply element_ref_inj; [apply Hwf | exact Hq |]. unfold ref in *. congruence.
Qed.

(** The invariant survives a change of the node store that keeps the
    positions and addresses of the nodes it had. *)
Lemma Graph_wf_nodes_change s s' :
  Graph_wf s ->
  Array_wf (nheap s') (nodes_of (g_this s')) ->
  node_count (g_this s) <= node_count (g_this s') ->
  (forall i, i < node_count (g_this s) ->
     ref (nodes_of (g_this s')) i = ref (nodes_of (g_this s)) i) ->
  (forall i n, node_at s' i = Some n -> Node_id_ n = i) ->
  eheap s' = eheap s ->
  edges_of (g_this s') = edges_of (g_this s) ->
  is_undirected (g_this s') = is_undirected (g_this s) ->
  square (N.to_nat (node_count (g_this s'))) (matrix_of (g_this s')) ->
  (forall src tgt p,
     matrix_get (matrix_of (g_this s')) src tgt = Some (Some p) <->
     matrix_get (matrix_of (g_this s)) src tgt = Some (Some p)) ->
  Graph_wf s'.
Proof.
  intros Hwf Hn' Hle Hrefs Hids Heh Hed Hun Hsq Hcells.
  assert (forall i, edge_at s' i = edge_at s i) as Hedge.
  { intros i. unfold edge_at. by rewrite Heh, Hed. }
  assert (forall e src0 tgt0 src tgt, joins (g_this s) e src0 tgt0 ->
            (joins (g_this s') e src tgt <-> joins (g_this s) e src tgt)) as Hj.
  { intros e src0 tgt0 src tgt (H1 & H2 & H3 & H4). split.
    - intros (G1 & G2 & G3 & G4).
      assert (src = src0).
      { destruct (ref_lt_Some _ _ _ Hn' G1) as [p Hp].
        eapply element_ref_inj; [apply Hn' | exact Hp |].
        fold (ref (nodes_of (g_this s')) src0). rewrite (Hrefs _ H1). congruence. }
      assert (tgt = tgt0).
      { destruct (ref_lt_Some _ _ _ Hn' G2) as [p Hp].
        eapply element_ref_inj; [apply Hn' | exact Hp |].
        fold (ref (nodes_of (g_this s')) tgt0). rewrite (Hrefs _ H2). congruence. }
      subst. by repeat split.
    - intros (G1 & G2 & G3 & G4). repeat split; [lia | lia | |].
      + by rewrite (Hrefs _ G1).
      + by rewrite (Hrefs _ G2). }
  split.
  - done.
  - rewrite Heh, Hed. apply Hwf.
  - done.
  - intros i e. rewrite Hedge. apply Hwf.
  - intros i e. rewrite Hedge. intros He.
    destruct (wf_endpoints _ Hwf _ _ He) as (src & tgt & Hjoin).
    exists src, tgt. by eapply Hj.
  - done.
  - intros src tgt p. rewrite Hcells, (wf_cells _ Hwf). rewrite Hed.
    split; intros (i & e & He & Hp & Hl); exists i, e.
    + rewrite Hedge. split; [done|]. split; [done|].
      destruct (wf_endpoints _ Hwf _ _ He) as (src0 & tgt0 & Hjoin).
      unfold links in *. rewrite Hun, !(Hj _ _ _ _ _ Hjoin). done.
    + rewrite Hedge in He. split; [done|]. split; [done|].
      destruct (wf_endpoints _ Hwf _ _ He) as (src0 & tgt0 & Hjoin).
      unfold links in *. rewrite Hun, !(Hj _ _ _ _ _ Hjoin) in Hl. done.
Qed.

Lemma matrix_get_grown_Some n m src tgt (p : ptr) :
  square n m ->
  (matrix_get (grown m) src tgt = Some (Some p) <-> matrix_get m src tgt = Some (Some p)).
Proof.
  intros Hsq. rewrite (matrix_get_grown n) by done.
  pose proof (matrix_get_lt n m src tgt Hsq) as Hlt.
  case_decide as Hd; [done|].
  assert (matrix_get m src tgt = None) as ->.
  { destruct (matrix_get m src tgt) eqn:E; [|done]. exfalso. apply Hd, Hlt. eauto. }
  case_decide; by split.
Qed.
End GraphInvariant.

(** ** What the operations of a graph establish *)

Section GraphSpecs.
Context {NData EData : Type}.
Variable NData_init : NData.
Variable EData_init : EData.
Implicit Types (s : @GState NData EData) (g : Graph) (i j src tgt : N).
Implicit Types (e : Edge EData).

Definition frame_nodes s s' : Prop :=
  heap_frame (data_ (nodes_of (g_this s))) (nheap s) (nheap s') /\
  forall b, b ∈ data_ (nodes_of (g_this s')) ->
    b ∈ data_ (nodes_of (g_this s)) \/ (length (nheap s) <= b)%nat.

Definition frame_edges s s' : Prop :=
  heap_frame (data_ (edges_of (g_this s))) (eheap s) (eheap s') /\
  forall b, b ∈ data_ (edges_of (g_this s')) ->
    b ∈ data_ (edges_of (g_this s)) \/ (length (eheap s) <= b)%nat.

(** [s'] holds the same graph as [s]: same nodes and edges at the same
    addresses, same matrix. *)
Definition same_content s s' : Prop :=
  node_count (g_this s') = node_count (g_this s) /\
  (forall i, node_at s' i = node_at s i) /\
  (forall i, i < node_count (g_this s) ->
     ref (nodes_of (g_this s')) i = ref (nodes_of (g_this s)) i) /\
  edge_count (g_this s') = edge_count (g_this s) /\
  (forall i, edge_at s' i = edge_at s i) /\
  (forall i, i < edge_count (g_this s) ->
     ref (edges_of (g_this s')) i = ref (edges_of (g_this s)) i) /\
  matrix_of (g_this s') = matrix_of (g_this s) /\
  is_undirected (g_this s') = is_undirected (g_this s).

Definition stable s s' : Prop :=
  Graph_wf s' /\ same_content s s' /\ frame_nodes s s' /\ frame_edges s s'.

Lemma frame_nodes_refl s : frame_nodes s s.
Proof. split; [apply heap_frame_refl | auto]. Qed.

Lemma frame_edges_refl s : frame_edges s s.
Proof. split; [apply heap_frame_refl | auto]. Qed.

Lemma same_content_refl s : same_content s s.
Proof. by repeat split. Qed.

Lemma stable_with_script script s : Graph_wf s -> stable s (with_script script s).
Proof.
  intros Hwf. split; [by apply Graph_wf_with_script|].
  split; [by repeat split|]. split; [exact (frame_nodes_refl s) | exact (frame_edges_refl s)].
Qed.

Lemma nodes_update_view script s :
  nodes_update (mkAState script (nheap s) (nodes_of (g_this s))) s = with_script script s.
Proof. destruct s as [? ? ? [[?] ? ?]]. done. Qed.

Lemma edges_update_view script s :
  edges_update (mkAState script (eheap s) (edges_of (g_this s))) s = with_script script s.
Proof. destruct s as [? ? ? [? [? ?] ?]]. done. Qed.

Lemma nodes_update_id s : nodes_update (nodes_view s) s = s.
Proof. destruct s as [? ? ? [[?] ? ?]]. done. Qed.

Lemma edges_update_id s : edges_update (edges_view s) s = s.
Proof. destruct s as [? ? ? [? [? ?] ?]]. done. Qed.

Lemma Nodes_size_eq s : Nodes_size s = Ok s (node_count (g_this s)).
Proof. destruct s as [? ? ? [[?] ? ?]]. done. Qed.

Lemma Edges_size_eq s : Edges_size s = Ok s (edge_count (g_this s)).
Proof. destruct s as [? ? ? [? [? ?] ?]]. done. Qed.

(** what a successful [nodes().add(id, data)] establishes *)
Definition add_node_post (id : N) (data : NData) s s' (p : ptr) : Prop :=
  id = node_count (g_this s) /\
  Graph_wf s' /\
  node_count (g_this s') = id + 1 /\
  node_at s' id = Some (mkNode id data) /\
  ref (nodes_of (g_this s')) id = Some p /\
  (forall i, i < id -> node_at s' i = node_at s i /\
                       ref (nodes_of (g_this s')) i = ref (nodes_of (g_this s)) i) /\
  eheap s' = eheap s /\
  edges_of (g_this s') = edges_of (g_this s) /\
  is_undirected (g_this s') = is_undirected (g_this s) /\
  matrix_of (g_this s') = grown (matrix_of (g_this s)) /\
  frame_nodes s s'.

Lemma Nodes_add_spec id data s :
  Graph_wf s ->
  wp (Nodes_add NData_init id data) s
    (fun s' p => add_node_post id data s s' p /\ (g_script s = [] -> g_script s' = []))
    (fun s' ex =>
       (node_count (g_this s) < id /\ ex = InvalidIdentifierException /\ s' = s) \/
       (id < node_count (g_this s) /\ ex = ConflictingItemException /\ s' = s) \/
       (id = node_count (g_this s) /\ ex = UnavailableMemoryException /\ stable s s' /\
        g_script s <> [])).
Proof.
  intros Hwf. unfold Nodes_add.
  eapply wp_bind_eq; [apply Nodes_size_eq|].
  set (n := node_count (g_this s)).
  destruct (n <? id) eqn:E1; [apply N.ltb_lt in E1; apply wp_throw; auto|].
  destruct (id <? n) eqn:E2; [apply N.ltb_lt in E2; apply wp_throw; auto|].
  apply N.ltb_ge in E1, E2. assert (id = n) as -> by lia. clear E1 E2.
  set (x := mkNode n data).
  set (m := matrix_of (g_this s)).
  pose proof (wf_nodes _ Hwf) as Hwfn.
  set (Mid := fun s1 : @GState NData EData => exists t script,
         push_back_post x (nodes_view s) t /\
         s1 = with_script script (with_matrix (grown m) (nodes_update t s)) /\
         (g_script s = [] -> script = [])).
  set (Fail := fun s1 : @GState NData EData =>
         g_script s <> [] /\
         ((exists script, s1 = with_script script s) \/
          (exists t script, push_back_post x (nodes_view s) t /\
             s1 = with_script script (nodes_update t s)))).
  apply wp_bind, wp_try_catch.
  eapply (wp_mono _ _ (fun s1 _ => Mid s1) _ (fun s1 _ => Fail s1)).
  - apply wp_bind. apply wp_zoom.
    eapply wp_mono; [apply Array_push_back_spec; exact Hwfn | |].
    + intros t [] Hpost. cbv beta.
      pose proof (push_back_post_script _ _ _ Hpost) as Hquiet.
      eapply wp_mono; [apply (grow_adjacency_matrix_calm _ (N.to_nat n)); apply Hwf | |].
      * intros s1 [] (script & -> & Hscript). exists t, script. split; [done|].
        split; [done|]. intros Hs. apply Hscript, Hquiet, Hs.
      * intros s1 ex (-> & (script & ->) & Hscript). split.
        -- intros Hs. apply Hscript, Hquiet, Hs.
        -- right. exists t, script. done.
    + intros t ex (-> & Hh & Ha & _ & Halloc). split.
      * by eapply alloc_attempt_fails.
      * left. exists (a_script t).
        destruct t as [script h a]. simpl in *. subst. apply nodes_update_view.
  - intros s1 [] (t & script & Hpost & -> & Hquiet). cbv beta.
    destruct (push_back_post_elem x (nodes_view s) t Hwfn Hpost) as [Hnew Hold].
    destruct Hpost as (p & Hwf' & Hbs & Hec & Hp & Hld & Hrefs & Hother & Hfr & Hdata).
    change (a_this (nodes_view s)) with (nodes_of (g_this s)) in *.
    change (a_heap (nodes_view s)) with (nheap s) in *.
    change (element_count_ (nodes_of (g_this s))) with n in *.
    set (s1 := with_script script (with_matrix (grown m) (nodes_update t s))).
    assert (node_count (g_this s1) = n + 1) as Hn1 by exact Hec.
    assert (Graph_wf s1) as Hwf1.
    { apply (Graph_wf_nodes_change s s1); try done.
      - rewrite Hn1. fold n. lia.
      - intros i nd Hnd. change (node_at s1 i) with (elem (a_heap t) (a_this t) i) in Hnd.
        destruct (decide (i < n)) as [Hi|Hi].
        + rewrite (Hold i Hi) in Hnd. by apply (wf_node_ids _ Hwf).
        + assert (i = n) as ->.
          { apply elem_lt in Hnd. rewrite Hec in Hnd. lia. }
          rewrite Hnew in Hnd. by injection Hnd as <-.
      - rewrite Hn1.
        replace (N.to_nat (n + 1)) with (Datatypes.S (N.to_nat n)) by lia.
        apply square_grown, Hwf.
      - intros src tgt q. apply (matrix_get_grown_Some (N.to_nat n)), Hwf. }
    eapply wp_bind_eq; [apply Nodes_size_eq|].
    rewrite Hn1.
    replace (n + 1 - 1) with n by lia.
    apply wp_zoom. eapply wp_mono; [apply Array_get__spec; exact Hwf' | |].
    + intros t' q (-> & _ & Hq). rewrite nodes_update_id.
      split; [|exact Hquiet].
      unfold add_node_post. split_and!; try done.
      * intros i Hi. split; [by apply Hold | by apply Hrefs].
      * split; [exact Hfr|]. intros b Hb.
        change (nodes_of (g_this s1)) with (a_this t) in Hb.
        destruct Hdata as [(_ & Hd & _) | (_ & Hd & _)]; rewrite Hd in Hb.
        -- by left.
        -- apply elem_of_app in Hb as [?| ->%list_elem_of_singleton]; [by left | right; simpl; lia].
    + intros t' ex (-> & Hge & _). exfalso.
      change (element_count_ (a_this (nodes_view s1))) with (node_count (g_this s1)) in Hge.
      lia.
  - intros s1 _ [Hbusy [(script & ->) | (t & script & Hpost & ->)]].
    + eapply wp_bind_eq; [apply Nodes_size_eq|].
      change (node_count (g_this (with_script script s))) with n.
      rewrite N.ltb_irrefl. apply wp_bind, wp_ret. apply wp_throw.
      right. right. split; [done|]. split; [done|]. split; [|done].
      by apply stable_with_script.
    + destruct (push_back_post_elem x (nodes_view s) t Hwfn Hpost) as [Hnew Hold].
      destruct Hpost as (p & Hwf' & Hbs & Hec & Hp & Hld & Hrefs & Hother & Hfr & Hdata).
      change (a_this (nodes_view s)) with (nodes_of (g_this s)) in *.
      change (a_heap (nodes_view s)) with (nheap s) in *.
      change (element_count_ (nodes_of (g_this s))) with n in *.
      set (s1 := with_script script (nodes_update t s)).
      assert (node_count (g_this s1) = n + 1) as Hn1 by exact Hec.
      eapply wp_bind_eq; [apply Nodes_size_eq|]. rewrite Hn1.
      rewrite (proj2 (N.ltb_lt n (n + 1))) by lia.
      apply wp_bind, wp_zoom.
      eapply wp_mono; [apply Array_pop_back_spec; exact Hwf' | |].
      * intros t2 [] (_ & Hsc & Hthis & Hwf2 & Hfr2 & Hlen2 & Hold2). cbv beta.
        apply wp_throw. right. right. split; [done|]. split; [done|].
        change (a_heap (nodes_view s1)) with (a_heap t) in *.
        change (a_this (nodes_view s1)) with (a_this t) in *.
        rewrite Hec in Hthis, Hold2. replace (n + 1 - 1) with n in Hthis, Hold2 by lia.
        set (s3 := nodes_update t2 s1).
        assert (node_count (g_this s3) = n) as Hn3.
        { change (node_count (g_this s3)) with (element_count_ (a_this t2)). by rewrite Hthis. }
        assert (forall i, ref (nodes_of (g_this s3)) i = ref (a_this t) i) as Hr3.
        { intros i. change (nodes_of (g_this s3)) with (a_this t2). by rewrite Hthis. }
        assert (forall i, node_at s3 i = node_at s i) as Hcontent.
        { intros i. change (node_at s3 i) with (elem (a_heap t2) (a_this t2) i).
          destruct (decide (i < n)) as [Hi|Hi].
          - rewrite (Hold2 i Hi). by apply Hold.
          - rewrite elem_ge by (rewrite Hthis; simpl; lia).
            symmetry. apply elem_ge. change (n <= i). lia. }
        assert (frame_nodes s s3) as Hframe.
        { assert (forall b, b ∈ data_ (a_this t) ->
                    b ∈ data_ (nodes_of (g_this s)) \/ (length (nheap s) <= b)%nat) as Hown.
          { intros b Hb. destruct Hdata as [(_ & Hd & _) | (_ & Hd & _)]; rewrite Hd in Hb.
            - by left.
            - apply elem_of_app in Hb as [?| ->%list_elem_of_singleton]; [by left | right; lia]. }
          split.
          - eapply heap_frame_trans'; [exact Hfr | exact Hfr2 | exact Hown].
          - intros b Hb. change (nodes_of (g_this s3)) with (a_this t2) in Hb.
            rewrite Hthis in Hb. by apply Hown. }
        split; [|exact Hbusy]. split_and!.
        -- apply (Graph_wf_nodes_change s s3); try done.
           ++ rewrite Hn3. fold n. lia.
           ++ intros i Hi. rewrite Hr3. by apply Hrefs.
           ++ intros i nd. rewrite Hcontent. apply Hwf.
           ++ rewrite Hn3. apply Hwf.
        -- split_and!; try done. intros i Hi. rewrite Hr3. by apply Hrefs.
        -- done.
        -- exact (frame_edges_refl s).
      * intros t2 ex (_ & Hz & _). exfalso.
        change (element_count_ (a_this (nodes_view s1))) with (node_count (g_this s1)) in Hz.
        lia.
Qed.

Lemma Array_get__eq {element} (t : @AState element) i p :
  i < element_count_ (a_this t) -> ref (a_this t) i = Some p -> Array_get_ i t = Ok t p.
Proof.
  intros Hi Hp. unfold Array_get_, bind, Array_size, gets.
  rewrite (proj2 (N.leb_gt _ _) Hi). unfold slot. unfold ref in Hp. by rewrite Hp.
Qed.

Lemma on_nodes_get_eq s i p :
  i < node_count (g_this s) -> ref (nodes_of (g_this s)) i = Some p ->
  on_nodes (Array_get_ i) s = Ok s p.
Proof.
  intros Hi Hp. unfold on_nodes, zoom.
  rewrite (Array_get__eq (nodes_view s) i p Hi Hp). by rewrite nodes_update_id.
Qed.

Lemma on_edges_get_eq s i p :
  i < edge_count (g_this s) -> ref (edges_of (g_this s)) i = Some p ->
  on_edges (Array_get_ i) s = Ok s p.
Proof.
  intros Hi Hp. unfold on_edges, zoom.
  rewrite (Array_get__eq (edges_view s) i p Hi Hp). by rewrite edges_update_id.
Qed.

Lemma Nodes_get_eq s i p :
  i < node_count (g_this s) -> ref (nodes_of (g_this s)) i = Some p ->
  Nodes_get i s = Ok s p.
Proof.
  intros Hi Hp. unfold Nodes_get, Nodes_exists, bind. rewrite Nodes_size_eq.
  unfold ret. rewrite (proj2 (N.ltb_lt _ _) Hi). simpl. by apply on_nodes_get_eq.
Qed.

Lemma Nodes_get_ge s i :
  node_count (g_this s) <= i -> Nodes_get i s = Throw s NonexistingItemException.
Proof.
  intros Hi. unfold Nodes_get, Nodes_exists, bind. rewrite Nodes_size_eq.
  unfold ret. by rewrite (proj2 (N.ltb_ge _ _) Hi).
Qed.

Lemma matrix_read_eq s a b cell :
  matrix_get (matrix_of (g_this s)) a b = Some cell -> matrix_read a b s = Ok s cell.
Proof. intros H. unfold matrix_read, bind, the_matrix, gets. unfold matrix_of in H. by rewrite H. Qed.

Lemma matrix_write_eq s a b v m' :
  matrix_set (matrix_of (g_this s)) a b v = Some m' ->
  matrix_write a b v s = Ok (with_matrix m' s) tt.
Proof. intros H. unfold matrix_write, bind, the_matrix, gets. unfold matrix_of in H. by rewrite H. Qed.

(** In an undirected graph the matrix is symmetric. *)
Lemma matrix_symmetric s a b :
  Graph_wf s -> is_undirected (g_this s) = true ->
  matrix_get (matrix_of (g_this s)) a b = matrix_get (matrix_of (g_this s)) b a.
Proof.
  intros Hwf Hun.
  assert (forall a b q, matrix_get (matrix_of (g_this s)) a b = Some (Some q) ->
                        matrix_get (matrix_of (g_this s)) b a = Some (Some q)) as Hsym.
  { intros a' b' q. rewrite !(wf_cells _ Hwf). intros (i & e & He & Hp & Hl).
    exists i, e. split; [done|]. split; [done|]. unfold links in *. rewrite Hun in *. tauto. }
  pose proof (matrix_get_lt _ _ a b (wf_square _ Hwf)) as Hab.
  pose proof (matrix_get_lt _ _ b a (wf_square _ Hwf)) as Hba.
  destruct (matrix_get (matrix_of (g_this s)) a b) as [[q|]|] eqn:E1.
  - symmetry. by apply Hsym.
  - destruct (matrix_get (matrix_of (g_this s)) b a) as [[q|]|] eqn:E2.
    + apply Hsym in E2. congruence.
    + done.
    + exfalso. assert (is_Some (None : option (option ptr))) as [? ?]; [|done].
      apply Hba. destruct Hab as [_ Hab]. destruct Hab; [eauto | done].
  - destruct (matrix_get (matrix_of (g_this s)) b a) as [c|] eqn:E2; [|done].
    exfalso. assert (is_Some (None : option (option ptr))) as [? ?]; [|done].
    apply Hab. destruct Hba as [_ Hba]. destruct Hba; [eauto | done].
Qed.

(** the cells that [edges().add(id, source, target, data)] writes *)
Definition cell_written (undirected : bool) (source target src tgt : N) : Prop :=
  (src = source /\ tgt = target) \/ (undirected = true /\ src = target /\ tgt = source).

Global Instance cell_written_dec u source target src tgt :
  Decision (cell_written u source target src tgt).
Proof. unfold cell_written. apply _. Defined.

Lemma Graph_wf_add_edge s s' source target data p :
  Graph_wf s ->
  source < node_count (g_this s) -> target < node_count (g_this s) ->
  matrix_get (matrix_of (g_this s)) source target = Some None ->
  nheap s' = nheap s ->
  nodes_of (g_this s') = nodes_of (g_this s) ->
  is_undirected (g_this s') = is_undirected (g_this s) ->
  Array_wf (eheap s') (edges_of (g_this s')) ->
  edge_count (g_this s') = edge_count (g_this s) + 1 ->
  edge_at s' (edge_count (g_this s)) =
    Some (mkEdge (edge_count (g_this s)) (ref (nodes_of (g_this s)) source)
            (ref (nodes_of (g_this s)) target) data) ->
  ref (edges_of (g_this s')) (edge_count (g_this s)) = Some p ->
  (forall i, i < edge_count (g_this s) ->
     edge_at s' i = edge_at s i /\
     ref (edges_of (g_this s')) i = ref (edges_of (g_this s)) i) ->
  square (N.to_nat (node_count (g_this s))) (matrix_of (g_this s')) ->
  (forall src tgt,
     matrix_get (matrix_of (g_this s')) src tgt =
       if decide (cell_written (is_undirected (g_this s)) source target src tgt)
       then Some (Some p) else matrix_get (matrix_of (g_this s)) src tgt) ->
  Graph_wf s'.
Proof.
  intros Hwf Hs Ht Hfree Hnh Hnd Hun Hwfe Hcount Hnew Hp Hold Hsq Hm.
  set (me := edge_count (g_this s)) in *.
  set (new := mkEdge me (ref (nodes_of (g_this s)) source)
                (ref (nodes_of (g_this s)) target) data) in *.
  assert (joins (g_this s) new source target) as Hjnew by (by repeat split).
  assert (forall e src tgt, joins (g_this s') e src tgt <-> joins (g_this s) e src tgt) as Hj.
  { intros e src tgt. unfold joins, node_count. by rewrite Hnd. }
  assert (forall e src tgt, links (g_this s') e src tgt <-> links (g_this s) e src tgt) as Hl.
  { intros e src tgt. unfold links. by rewrite Hun, !Hj. }
  assert (forall i e, edge_at s' i = Some e ->
            (i < me /\ edge_at s i = Some e) \/ (i = me /\ e = new)) as Hcases.
  { intros i e He. destruct (decide (i < me)) as [Hi|Hi].
    - left. split; [done|]. by rewrite <- (proj1 (Hold i Hi)).
    - right. assert (i = me) as ->.
      { apply elem_lt in He. change (element_count_ (edges_of (g_this s')))
          with (edge_count (g_this s')) in He. lia. }
      split; [done | congruence]. }
  assert (forall a b,
            cell_written (is_undirected (g_this s)) source target a b ->
            matrix_get (matrix_of (g_this s)) a b = Some None) as Hfree'.
  { intros a b [[-> ->] | (Hu & -> & ->)]; [done|].
    by rewrite (matrix_symmetric s target source Hwf Hu). }
  split.
  - rewrite Hnh, Hnd. apply Hwf.
  - done.
  - intros i n. unfold node_at. rewrite Hnh, Hnd. apply (wf_node_ids _ Hwf).
  - intros i e [[_ He] | [-> ->]]%Hcases; [by apply (wf_edge_ids _ Hwf) | done].
  - intros i e [[_ He] | [-> ->]]%Hcases.
    + destruct (wf_endpoints _ Hwf _ _ He) as (src & tgt & Hjoin).
      exists src, tgt. by apply Hj.
    + exists source, target. by apply Hj.
  - unfold node_count. rewrite Hnd. exact Hsq.
  - intros src tgt q. rewrite Hm. case_decide as Hw.
    + split.
      * intros [= <-]. exists me, new. split; [done|]. split; [done|]. apply Hl.
        destruct Hw as [[-> ->] | (Hu & -> & ->)]; [by left | by right].
      * intros (i & e & [[Hi He] | [-> ->]]%Hcases & Hq & Hlk).
        -- exfalso. apply Hl in Hlk. rewrite (proj2 (Hold i Hi)) in Hq.
           assert (matrix_get (matrix_of (g_this s)) src tgt = Some (Some q)) as Hocc.
           { apply (wf_cells _ Hwf). eauto. }
           rewrite (Hfree' _ _ Hw) in Hocc. done.
        -- congruence.
    + rewrite (wf_cells _ Hwf). split.
      * intros (i & e & He & Hq & Hlk). exists i, e.
        assert (i < me) as Hi by (by eapply elem_lt).
        destruct (Hold i Hi) as [-> ->]. split; [done|]. split; [done|]. by apply Hl.
      * intros (i & e & [[Hi He] | [-> ->]]%Hcases & Hq & Hlk).
        -- exists i, e. rewrite (proj2 (Hold i Hi)) in Hq. split; [done|]. split; [done|].
           by apply Hl.
        -- exfalso. apply Hw. apply Hl in Hlk.
           destruct Hlk as [Hjoin | [Hu Hjoin]].
           ++ destruct (joins_inj s new _ _ _ _ (wf_nodes _ Hwf) Hjoin Hjnew) as [-> ->].
              by left.
           ++ destruct (joins_inj s new _ _ _ _ (wf_nodes _ Hwf) Hjoin Hjnew) as [-> ->].
              by right.
Qed.

(** what a successful [edges().add(id, source, target, data)] establishes *)
Definition add_edge_post (id source target : N) (data : EData) s s' (p : ptr) : Prop :=
  id = edge_count (g_this s) /\
  source < node_count (g_this s) /\ target < node_count (g_this s) /\
  matrix_get (matrix_of (g_this s)) source target = Some None /\
  Graph_wf s' /\
  edge_count (g_this s') = id + 1 /\
  edge_at s' id = Some (mkEdge id (ref (nodes_of (g_this s)) source)
                          (ref (nodes_of (g_this s)) target) data) /\
  ref (edges_of (g_this s')) id = Some p /\
  (forall i, i < id -> edge_at s' i = edge_at s i /\
                       ref (edges_of (g_this s')) i = ref (edges_of (g_this s)) i) /\
  nheap s' = nheap s /\
  nodes_of (g_this s') = nodes_of (g_this s) /\
  is_undirected (g_this s') = is_undirected (g_this s) /\
  (forall src tgt,
     matrix_get (matrix_of (g_this s')) src tgt =
       if decide (cell_written (is_undirected (g_this s)) source target src tgt)
       then Some (Some p) else matrix_get (matrix_of (g_this s)) src tgt) /\
  frame_edges s s'.

Lemma Edges_add_spec id source target data s :
  Graph_wf s ->
  wp (Edges_add EData_init id source target data) s
    (fun s' p => add_edge_post id source target data s s' p /\
                 (g_script s = [] -> g_script s' = []))
    (fun s' ex =>
       (edge_count (g_this s) < id /\ ex = InvalidIdentifierException /\ s' = s) \/
       (id < edge_count (g_this s) /\ ex = ConflictingItemException /\ s' = s) \/
       (id = edge_count (g_this s) /\
        (node_count (g_this s) <= source \/ node_count (g_this s) <= target) /\
        ex = NonexistingItemException /\ s' = s) \/
       (id = edge_count (g_this s) /\
        (exists q, matrix_get (matrix_of (g_this s)) source target = Some (Some q)) /\
        ex = ConflictingItemException /\ s' = s) \/
       (id = edge_count (g_this s) /\
        matrix_get (matrix_of (g_this s)) source target = Some None /\
        ex = UnavailableMemoryException /\ stable s s' /\ g_script s <> [])).
Proof.
  intros Hwf. unfold Edges_add.
  eapply wp_bind_eq; [apply Edges_size_eq|].
  set (me := edge_count (g_this s)).
  destruct (me <? id) eqn:E1; [apply N.ltb_lt in E1; apply wp_throw; auto|].
  destruct (id <? me) eqn:E2; [apply N.ltb_lt in E2; apply wp_throw; auto|].
  apply N.ltb_ge in E1, E2. assert (id = me) as -> by lia. clear E1 E2.
  eapply wp_bind_eq; [apply Nodes_size_eq|].
  set (n := node_count (g_this s)).
  destruct ((n <=? source) || (n <=? target)) eqn:E3.
  { apply wp_throw. right. right. left. split; [done|]. split; [|done].
    apply orb_true_iff in E3 as [?%N.leb_le | ?%N.leb_le]; auto. }
  apply orb_false_iff in E3 as [Hs%N.leb_gt Ht%N.leb_gt].
  set (m := matrix_of (g_this s)).
  pose proof (wf_square _ Hwf) as Hsq. fold n m in Hsq.
  destruct (proj1 (matrix_get_lt _ m source target Hsq)) as [cell Hcell]; [lia|].
  eapply wp_bind_eq; [by apply matrix_read_eq|].
  destruct cell as [q|].
  { rewrite bool_decide_eq_true_2 by eauto. apply wp_throw.
    right. right. right. left. eauto. }
  rewrite bool_decide_eq_false_2 by (by intros [? ?]).
  apply wp_bind, wp_gets.
  set (u := is_undirected (g_this s)).
  pose proof (wf_nodes _ Hwf) as Hwfn. pose proof (wf_edges _ Hwf) as Hwfe.
  destruct (ref_lt_Some _ _ _ Hwfn Hs) as [ps Hps].
  destruct (ref_lt_Some _ _ _ Hwfn Ht) as [pt Hpt].
  set (x := mkEdge me (Some ps) (Some pt) data).
  set (Mid := fun s1 : @GState NData EData => exists t p m',
         push_back_post x (edges_view s) t /\
         ref (a_this t) me = Some p /\
         square (N.to_nat n) m' /\
         (forall src tgt, matrix_get m' src tgt =
            if decide (cell_written u source target src tgt)
            then Some (Some p) else matrix_get m src tgt) /\
         s1 = with_matrix m' (edges_update t s)).
  set (Fail := fun s1 : @GState NData EData =>
         g_script s <> [] /\ exists script, s1 = with_script script s).
  apply wp_bind, wp_try_catch.
  eapply (wp_mono _ _ (fun s1 _ => Mid s1) _ (fun s1 _ => Fail s1)).
  - eapply wp_bind_eq; [by apply Nodes_get_eq|].
    eapply wp_bind_eq; [by apply Nodes_get_eq|].
    apply wp_bind, wp_zoom. fold x.
    eapply wp_mono; [apply Array_push_back_spec; exact Hwfe | |].
    + intros t [] Hpost. cbv beta.
      pose proof Hpost as (p & Hwf' & Hbs & Hec & Hp & _).
      change (a_this (edges_view s)) with (edges_of (g_this s)) in *.
      change (element_count_ (edges_of (g_this s))) with me in *.
      set (sa := edges_update t s).
      assert (edge_count (g_this sa) = me + 1) as Hna by exact Hec.
      assert (forall m0, on_edges (Array_get_ (me + 1 - 1)) (with_matrix m0 sa)
                         = Ok (with_matrix m0 sa) p) as Hget.
      { intros m0. apply on_edges_get_eq.
        - change (edge_count (g_this (with_matrix m0 sa))) with (edge_count (g_this sa)). lia.
        - replace (me + 1 - 1) with me by lia. exact Hp. }
      eapply wp_bind_eq; [apply Edges_size_eq|]. rewrite Hna.
      eapply wp_bind_eq.
      { rewrite <- (with_matrix_id sa). apply Hget. }
      rewrite with_matrix_id.
      destruct (matrix_set_is_Some m source target (Some p)) as [m1 Hm1]; [by rewrite Hcell|].
      eapply wp_bind_eq; [apply matrix_write_eq; exact Hm1|].
      pose proof (matrix_set_square _ _ _ _ _ _ Hsq Hm1) as Hsq1.
      destruct u eqn:Hu.
      * eapply wp_bind_eq; [apply Edges_size_eq|].
        replace (edge_count (g_this (with_matrix m1 (edges_update t s)))) with (me + 1)
          by (symmetry; exact Hna).
        eapply wp_bind_eq; [apply Hget|].
        destruct (matrix_set_is_Some m1 target source (Some p)) as [m2 Hm2].
        { apply (matrix_get_lt _ _ _ _ Hsq1). lia. }
        unfold wp. rewrite (matrix_write_eq (with_matrix m1 sa) _ _ _ m2 Hm2).
        exists t, p, m2. split; [done|]. split; [done|].
        split; [by eapply matrix_set_square|]. split; [|done].
        intros src tgt. rewrite (matrix_get_set _ _ _ _ _ src tgt Hm2).
        rewrite (matrix_get_set _ _ _ _ _ src tgt Hm1).
        unfold cell_written. repeat case_decide; try done; exfalso; tauto.
      * apply wp_ret. exists t, p, m1. split; [done|]. split; [done|].
        split; [done|]. split; [|done].
        intros src tgt. rewrite (matrix_get_set _ _ _ _ _ src tgt Hm1).
        unfold cell_written. repeat case_decide; try done; exfalso; intuition congruence.
    + intros t ex (-> & Hh & Ha & _ & Halloc). split; [by eapply alloc_attempt_fails|].
      exists (a_script t).
      destruct t as [script h a]. simpl in *. subst. apply edges_update_view.
  - intros s1 [] (t & p & m' & Hpost & Hp & Hsq' & Hm' & ->). cbv beta.
    pose proof (push_back_post_script _ _ _ Hpost) as Hquiet.
    destruct (push_back_post_elem x (edges_view s) t Hwfe Hpost) as [Hnew Hold].
    destruct Hpost as (p' & Hwf' & Hbs & Hec & Hp' & Hld & Hrefs & Hother & Hfr & Hdata).
    change (a_this (edges_view s)) with (edges_of (g_this s)) in *.
    change (a_heap (edges_view s)) with (eheap s) in *.
    change (element_count_ (edges_of (g_this s))) with me in *.
    set (s1 := with_matrix m' (edges_update t s)).
    assert (edge_count (g_this s1) = me + 1) as Hn1 by exact Hec.
    eapply wp_bind_eq; [apply Edges_size_eq|]. rewrite Hn1.
    replace (me + 1 - 1) with me by lia.
    unfold wp. rewrite (on_edges_get_eq s1 me p) by (rewrite ?Hn1; done || lia).
    assert (forall i, i < me -> edge_at s1 i = edge_at s i /\
              ref (edges_of (g_this s1)) i = ref (edges_of (g_this s)) i) as Hold'.
    { intros i Hi. split; [by apply Hold | by apply Hrefs]. }
    assert (edge_at s1 me = Some (mkEdge me (ref (nodes_of (g_this s)) source)
                                    (ref (nodes_of (g_this s)) target) data)) as Hnew'.
    { rewrite Hps, Hpt. exact Hnew. }
    split; [|exact Hquiet].
    unfold add_edge_post. split_and!; try done.
    + by apply (Graph_wf_add_edge s s1 source target data p).
    + split; [exact Hfr|]. intros b Hb.
      change (edges_of (g_this s1)) with (a_this t) in Hb.
      destruct Hdata as [(_ & Hd & _) | (_ & Hd & _)]; rewrite Hd in Hb.
      * by left.
      * apply elem_of_app in Hb as [?| ->%list_elem_of_singleton]; [by left | right; lia].
  - intros s1 _ (Hbusy & script & ->).
    eapply wp_bind_eq; [apply Edges_size_eq|].
    change (edge_count (g_this (with_script script s))) with me.
    rewrite N.ltb_irrefl. apply wp_bind, wp_ret.
    eapply wp_bind_eq.
    { apply matrix_write_eq. apply matrix_set_same. exact Hcell. }
    change (with_matrix (matrix_of (g_this (with_script script s))) (with_script script s))
      with (with_script script (with_matrix (matrix_of (g_this s)) s)).
    rewrite with_matrix_id.
    destruct u eqn:Hu.
    + eapply wp_bind_eq.
      { apply matrix_write_eq. apply matrix_set_same.
        change (matrix_of (g_this (with_script script s))) with m.
        unfold m. rewrite <- (matrix_symmetric s source target Hwf Hu). exact Hcell. }
      change (with_matrix (matrix_of (g_this (with_script script s))) (with_script script s))
        with (with_script script (with_matrix (matrix_of (g_this s)) s)).
      rewrite with_matrix_id. apply wp_throw.
      right. right. right. right. split_and!; try done. by apply stable_with_script.
    + apply wp_bind, wp_ret. apply wp_throw.
      right. right. right. right. split_and!; try done. by apply stable_with_script.
Qed.
End GraphSpecs.

(** ** Copying an array *)

Section ArrayCopy.
Context {element : Type}.
Variable value_init : element.
Variable destroy : element -> element.
Implicit Types (h : list (list element)) (a : Array) (p q : ptr) (i j : N).
Implicit Types s : @AState element.

(** the blocks of [a] are distinct, allocated, and of the right size *)
Definition blocks_ok h a : Prop :=
  0 < block_size_ a /\ NoDup (data_ a) /\
  forall b, b ∈ data_ a ->
    exists blk, h !! b = Some blk /\ length blk = N.to_nat (block_size_ a).

Lemma Array_wf_alt h a :
  Array_wf h a <-> blocks_ok h a /\ element_count_ a <= capacity a.
Proof.
  split.
  - intros [H1 H2 H3 H4]. by repeat split.
  - intros [(H1 & H2 & H3) H4]. by split.
Qed.

(** [k] new blocks after those of [h] *)
Definition fresh_blocks (bs : N) (k : nat) : list (list element) :=
  replicate k (replicate (N.to_nat bs) value_init).

Lemma fresh_blocks_S bs k :
  fresh_blocks bs (Datatypes.S k) = fresh_blocks bs k ++ [replicate (N.to_nat bs) value_init].
Proof. unfold fresh_blocks. by rewrite replicate_S_end. Qed.

Lemma blocks_ok_fresh h data bs ec ec' k :
  blocks_ok h (mkArray data bs ec) ->
  blocks_ok (h ++ fresh_blocks bs k) (mkArray (data ++ seq (length h) k) bs ec').
Proof.
  intros (H1 & H2 & H3). simpl in *. repeat split; simpl.
  - done.
  - apply NoDup_app. split; [done|]. split; [|apply NoDup_seq].
    intros b Hb Hin%elem_of_seq.
    destruct (H3 b Hb) as (blk & Hblk%lookup_lt_Some & _). lia.
  - intros b [Hb|Hb%elem_of_seq]%elem_of_app.
    + destruct (H3 b Hb) as (blk & Hblk & Hl). exists blk. split; [|done].
      by apply lookup_app_l_Some.
    + exists (replicate (N.to_nat bs) value_init). split; [|by rewrite length_replicate].
      rewrite lookup_app_r by lia. apply lookup_replicate_2. lia.
Qed.

(** the state after [k] successful calls of [add_block_] *)
Definition with_blocks (script : list bool) h a (k : nat) : AState :=
  mkAState script (h ++ fresh_blocks (block_size_ a) k)
    (mkArray (data_ a ++ seq (length h) k) (block_size_ a) (element_count_ a)).

Lemma add_block_with_blocks script h a k :
  wp (add_block_ value_init) (with_blocks script h a k)
    (fun s' _ => exists script', s' = with_blocks script' h a (Datatypes.S k))
    (fun s' ex => ex = UnavailableMemoryException /\
                  exists script', s' = with_blocks script' h a k).
Proof.
  eapply wp_mono; [apply add_block_spec | |].
  - intros [script' h' a'] [] (Hh & Ha & _). simpl in *. subst. exists script'.
    unfold with_blocks. rewrite fresh_blocks_S, seq_S, !(assoc_L (++)).
    rewrite length_app. replace (length (fresh_blocks (block_size_ a) k)) with k
      by (unfold fresh_blocks; by rewrite length_replicate).
    done.
  - intros [script' h' a'] ex (-> & Hh & Ha & _). simpl in *. subst. eauto.
Qed.

Lemma with_blocks_0 script h a : with_blocks script h a 0 = mkAState script h a.
Proof. unfold with_blocks, fresh_blocks. simpl. rewrite !app_nil_r. by destruct a. Qed.

Lemma add_blocks_for script h a n :
  wp (for_ (N.of_nat n) (fun _ => add_block_ value_init)) (mkAState script h a)
    (fun s' _ => exists script', s' = with_blocks script' h a n)
    (fun s' ex => ex = UnavailableMemoryException /\
                  exists k script', s' = with_blocks script' h a k).
Proof.
  eapply wp_mono;
    [apply (wp_for (fun k s' => exists script', s' = with_blocks script' h a (N.to_nat k))
              _ (fun s' ex => ex = UnavailableMemoryException /\
                   exists k script', s' = with_blocks script' h a k)) | |].
  - exists script. by rewrite with_blocks_0.
  - intros k s' Hk (script' & ->).
    eapply wp_mono; [apply add_block_with_blocks | |].
    + intros s'' [] (script'' & ->). exists script''.
      by replace (N.to_nat (k + 1)) with (Datatypes.S (N.to_nat k)) by lia.
    + intros s'' ex (-> & script'' & ->). eauto.
  - intros s' [] (script' & ->). exists script'. by rewrite Nat2N.id.
  - intros s' ex H. exact H.
Qed.

Lemma add_blocks_while_spec fuel target script h a k :
  0 < block_size_ a ->
  (N.to_nat target <= fuel + N.to_nat (capacity a) + k * N.to_nat (block_size_ a))%nat ->
  wp (add_blocks_while value_init fuel target) (with_blocks script h a k)
    (fun s' _ => exists k' script', s' = with_blocks script' h a k' /\
                 target <= capacity (a_this s'))
    (fun s' ex => ex = UnavailableMemoryException /\
                  exists k' script', s' = with_blocks script' h a k').
Proof.
  intros Hbs. revert script k. induction fuel as [|fuel IH]; intros script k Hfuel.
  - unfold wp. simpl.
    assert (capacity (a_this (with_blocks script h a k)) =
            capacity a + N.of_nat k * block_size_ a) as Hcap.
    { unfold capacity. simpl. rewrite length_app, length_seq. lia. }
    unfold capacity in Hcap. simpl in Hcap. rewrite Hcap.
    rewrite (proj2 (N.ltb_ge _ _)) by (unfold capacity in *; lia).
    exists k, script. split; [done|]. unfold capacity. simpl. rewrite length_app, length_seq.
    unfold capacity in *. lia.
  - unfold wp. simpl.
    assert (capacity (a_this (with_blocks script h a k)) =
            capacity a + N.of_nat k * block_size_ a) as Hcap.
    { unfold capacity. simpl. rewrite length_app, length_seq. lia. }
    unfold capacity in Hcap. simpl in Hcap. rewrite Hcap.
    destruct (_ <? target) eqn:E.
    + apply N.ltb_lt in E.
      change (wp (add_block_ value_init ;;; add_blocks_while value_init fuel target)
                (with_blocks script h a k)
                (fun s' _ => exists k' script', s' = with_blocks script' h a k' /\
                   target <= capacity (a_this s'))
                (fun s' ex => ex = UnavailableMemoryException /\
                   exists k' script', s' = with_blocks script' h a k')).
      apply wp_bind. eapply wp_mono; [apply add_block_with_blocks | |].
      * intros s' [] (script' & ->). apply IH. unfold capacity in *. lia.
      * intros s' ex (-> & script' & ->). eauto.
    + apply N.ltb_ge in E. exists k, script. split; [done|].
      unfold capacity. simpl. rewrite length_app, length_seq. unfold capacity in *. lia.
Qed.

Lemma heap_frame_length_eq own h h' b :
  heap_frame own h h' -> length h' = length h -> (b < length h')%nat -> (b < length h)%nat.
Proof. lia. Qed.

(** the loop that copies the elements of [other] into the slots of [a1] *)
Lemma copy_elements_spec script h1 a1 other :
  Array_wf h1 a1 -> Array_wf h1 other ->
  block_size_ a1 = block_size_ other ->
  element_count_ a1 = element_count_ other ->
  (forall b, b ∈ data_ a1 -> b ∉ data_ other) ->
  wp (for_ (element_count_ other) (fun i =>
        let* bs := gets (fun s => block_size_ (a_this s)) in
        let* src := from_option (element_ref (data_ other) bs i) in
        let* x := read src in
        let* dst := slot i in
        assign dst x))
     (mkAState script h1 a1)
     (fun s' _ =>
        a_this s' = a1 /\ a_script s' = script /\
        Array_wf (a_heap s') a1 /\
        heap_frame (data_ a1) h1 (a_heap s') /\
        length (a_heap s') = length h1 /\
        forall i, elem (a_heap s') a1 i = elem h1 other i)
     (fun _ _ => False).
Proof.
  intros Hwf1 Hwfo Hbs Hec Hdisj.
  eapply wp_mono;
    [apply (wp_for (fun k s' =>
        a_this s' = a1 /\ a_script s' = script /\
        Array_wf (a_heap s') a1 /\
        heap_frame (data_ a1) h1 (a_heap s') /\
        length (a_heap s') = length h1 /\
        forall i, i < k -> elem (a_heap s') a1 i = elem h1 other i)
        _ (fun _ _ => False)) | |].
  - simpl. split_and!; try done; [apply heap_frame_refl | intros; lia].
  - intros k [script' h' a'] Hk (Ha & Hs & Hwf' & Hfr & Hlen & Hdone). simpl in *. subst a' script'.
    apply wp_bind, wp_gets. simpl.
    destruct (ref_lt_Some _ _ _ Hwfo Hk) as [q Hq].
    destruct (ref_load _ _ _ _ Hwfo Hq) as [x Hx].
    assert (load h' q = Some x) as Hx'.
    { rewrite <- Hx. eapply load_frame; [exact Hfr | |].
      - eapply wf_owned_lt; [exact Hwfo | by eapply ref_owned].
      - intros Hin. by eapply Hdisj, ref_owned. }
    apply wp_bind. eapply wp_from_option; [rewrite Hbs; exact Hq|].
    apply wp_bind. unfold read. simpl. eapply wp_from_option; [exact Hx'|].
    destruct (ref_lt_Some _ _ _ Hwf' ltac:(rewrite Hec; exact Hk)) as [d Hd].
    apply wp_bind. unfold slot. simpl. eapply wp_from_option; [exact Hd|].
    destruct (store_is_Some h' d x) as [h2 Hst]; [by eapply ref_load|].
    unfold wp, assign. simpl. rewrite Hst.
    pose proof (heap_frame_store_own (data_ a1) _ _ _ _ Hst (ref_owned a1 _ _ Hd)) as Hfr2.
    split; [done|]. split; [done|]. split; [by eapply Array_wf_frame|].
    split; [by eapply heap_frame_trans|]. simpl.
    split; [by rewrite (store_length _ _ _ _ Hst)|].
    { intros i Hi. destruct (decide (i = k)) as [->|Hne].
      * unfold elem. rewrite Hec, !(proj2 (N.ltb_lt _ _) Hk). rewrite Hd, Hq. simpl.
        rewrite (load_store _ _ _ _ _ Hst). rewrite decide_True by done. done.
      * rewrite <- (Hdone i) by lia. unfold elem.
        destruct (i <? element_count_ a1); [|done].
        destruct (ref a1 i) as [r|] eqn:Hr; [|done]. simpl.
        rewrite (load_store _ _ _ _ _ Hst). rewrite decide_False; [done|].
        intros ->. apply Hne. eapply element_ref_inj; [apply Hwf1 | exact Hr | exact Hd]. }
  - intros [script' h' a'] [] (Ha & Hs & Hwf' & Hfr & Hlen & Hdone). simpl in *.
    split_and!; try done.
    intros i. destruct (decide (i < element_count_ other)) as [Hi|Hi].
    + by apply Hdone.
    + rewrite !elem_ge by lia. done.
  - done.
Qed.

(** the loop that runs the destructor of every element *)
Lemma destroy_elements_spec script h a :
  Array_wf h a ->
  wp (for_ (element_count_ a) (fun i =>
        let* p := slot i in let* x := read p in assign p (destroy x)))
     (mkAState script h a)
     (fun s' _ =>
        a_this s' = a /\ a_script s' = script /\
        Array_wf (a_heap s') a /\
        heap_frame (data_ a) h (a_heap s') /\
        length (a_heap s') = length h)
     (fun _ _ => False).
Proof.
  intros Hwf.
  eapply wp_mono;
    [apply (wp_for (fun (k : N) s' =>
        a_this s' = a /\ a_script s' = script /\
        Array_wf (a_heap s') a /\
        heap_frame (data_ a) h (a_heap s') /\
        length (a_heap s') = length h)
        _ (fun _ _ => False)) | |].
  - simpl. split_and!; try done. apply heap_frame_refl.
  - intros k [script' h' a'] Hk (Ha & Hs & Hwf' & Hfr & Hlen). simpl in *. subst a' script'.
    destruct (ref_lt_Some _ _ _ Hwf' Hk) as [p Hp].
    destruct (ref_load _ _ _ _ Hwf' Hp) as [x Hx].
    apply wp_bind. unfold slot. simpl. eapply wp_from_option; [exact Hp|].
    apply wp_bind. unfold read. simpl. eapply wp_from_option; [exact Hx|].
    destruct (store_is_Some h' p (destroy x)) as [h2 Hst]; [by rewrite Hx|].
    unfold wp, assign. simpl. rewrite Hst.
    pose proof (heap_frame_store_own (data_ a) _ _ _ _ Hst (ref_owned a _ _ Hp)) as Hfr2.
    split; [done|]. split; [done|]. split; [by eapply Array_wf_frame|].
    split; [by eapply heap_frame_trans|]. simpl.
    by rewrite (store_length _ _ _ _ Hst).
  - intros s' [] H. exact H.
  - done.
Qed.

(** what a successful copy of [other] into the array of the state establishes *)
Definition copy_post (own : list nat) (other : Array) s s' : Prop :=
  Array_wf (a_heap s') (a_this s') /\
  block_size_ (a_this s') = block_size_ other /\
  element_count_ (a_this s') = element_count_ other /\
  (forall b, b ∈ data_ (a_this s') -> b ∈ own \/ (length (a_heap s) <= b)%nat) /\
  heap_frame own (a_heap s) (a_heap s') /\
  forall i, elem (a_heap s') (a_this s') i = elem (a_heap s) other i.

Lemma copy_into_blocks own script h a2 other k :
  Array_wf h other ->
  blocks_ok h a2 ->
  block_size_ a2 = block_size_ other ->
  element_count_ a2 = element_count_ other ->
  (forall b, b ∈ data_ a2 -> b ∈ own /\ b ∉ data_ other) ->
  element_count_ other <= capacity (a_this (with_blocks script h a2 k)) ->
  wp (for_ (element_count_ other) (fun i =>
        let* bs := gets (fun s => block_size_ (a_this s)) in
        let* src := from_option (element_ref (data_ other) bs i) in
        let* x := read src in
        let* dst := slot i in
        assign dst x))
     (with_blocks script h a2 k)
     (fun s' _ =>
        Array_wf (a_heap s') (a_this s') /\
        block_size_ (a_this s') = block_size_ other /\
        element_count_ (a_this s') = element_count_ other /\
        (forall b, b ∈ data_ (a_this s') -> b ∈ own \/ (length h <= b)%nat) /\
        heap_frame own h (a_heap s') /\
        forall i, elem (a_heap s') (a_this s') i = elem h other i)
     (fun _ _ => False).
Proof.
  intros Hwfo Hok Hbs Hec Hown Hcap.
  set (h1 := h ++ fresh_blocks (block_size_ a2) k).
  set (a1 := mkArray (data_ a2 ++ seq (length h) k) (block_size_ a2) (element_count_ a2)).
  assert (Array_wf h1 a1) as Hwf1.
  { apply Array_wf_alt. split; [|unfold a1 at 1; simpl; by rewrite Hec].
    destruct a2 as [d2 bs2 ec2]. by apply blocks_ok_fresh with (ec := ec2). }
  assert (heap_frame own h h1) as Hfr1 by apply heap_frame_app.
  assert (Array_wf h1 other) as Hwfo1 by (by eapply Array_wf_frame).
  assert (forall b, b ∈ data_ a1 -> b ∉ data_ other) as Hdisj.
  { intros b [Hb|Hb%elem_of_seq]%elem_of_app; [by apply Hown|].
    intros Hin. pose proof (wf_owned_lt _ _ _ Hwfo Hin). lia. }
  eapply wp_mono; [apply (copy_elements_spec script h1 a1 other); done | | done].
  intros [script' h' a'] [] (Ha & Hs & Hwf' & Hfr & Hlen & Hel). simpl in *. subst a' script'.
  split; [done|]. split; [done|]. split; [done|]. split.
  { intros b [Hb|Hb%elem_of_seq]%elem_of_app; [left; by apply Hown | right; lia]. }
  split.
  { eapply heap_frame_trans'; [exact Hfr1 | exact Hfr |].
    intros b [Hb|Hb%elem_of_seq]%elem_of_app; [left; by apply Hown | right; lia]. }
  intros i. rewrite Hel. unfold elem. destruct (i <? element_count_ other); [|done].
  destruct (ref other i) as [q|] eqn:Hq; [|done]. simpl.
  unfold load, h1. rewrite lookup_app_l; [done|].
  eapply wf_owned_lt; [exact Hwfo | by eapply ref_owned].
Qed.

Lemma Array_copy_ctor_spec other s :
  Array_wf (a_heap s) other ->
  wp (Array_copy_ctor value_init other) s
     (fun s' _ => copy_post [] other s s')
     (fun s' ex => ex = UnavailableMemoryException /\ heap_frame [] (a_heap s) (a_heap s')).
Proof.
  intros Hwfo. destruct s as [script h a]. simpl in *.
  unfold Array_copy_ctor. apply wp_bind, wp_modify.
  unfold set_this. simpl.
  set (a2 := mkArray [] (block_size_ other) (element_count_ other)).
  apply wp_bind. eapply wp_mono; [apply add_blocks_for | |].
  - intros s1 [] (script' & ->). apply wp_bind, wp_gets.
    eapply wp_mono; [apply (copy_into_blocks [] script' h a2 other) | | done]; try done.
    + repeat split; [apply Hwfo | apply NoDup_nil_2 | by intros b ?%elem_of_nil].
    + by intros b ?%elem_of_nil.
    + unfold capacity. simpl. rewrite length_seq.
      pose proof (wf_count _ _ Hwfo). by unfold capacity in *.
  - intros s1 ex (-> & k & script' & ->). split; [done|]. apply heap_frame_app.
Qed.

Lemma Array_copy_assign_spec other s :
  Array_wf (a_heap s) (a_this s) ->
  Array_wf (a_heap s) other ->
  (forall b, b ∈ data_ (a_this s) -> b ∉ data_ other) ->
  wp (Array_copy_assign value_init destroy other) s
     (fun s' _ => copy_post (data_ (a_this s)) other s s')
     (fun s' ex => ex = UnavailableMemoryException).
Proof.
  intros Hwf Hwfo Hdisj. destruct s as [script h a]. simpl in *.
  unfold Array_copy_assign. apply wp_bind, wp_gets. simpl.
  apply wp_bind. eapply wp_mono; [by apply destroy_elements_spec | | done].
  intros [script1 h1 a1] [] (Ha & Hs & Hwf1 & Hfr1 & Hlen1). simpl in *. subst a1 script1.
  apply wp_bind, wp_modify. apply wp_bind, wp_gets. simpl.
  assert (Array_wf h1 other) as Hwfo1 by (by eapply Array_wf_frame).
  assert (forall i, elem h1 other i = elem h other i) as Helo.
  { intros i. eapply elem_frame; [exact Hwfo | exact Hfr1 |]. intros b Hb Hin. by eapply Hdisj. }
  set (a2 := if negb (block_size_ a =? block_size_ other)
             then mkArray [] (block_size_ other) (element_count_ other)
             else mkArray (data_ a) (block_size_ a) (element_count_ other)).
  assert (blocks_ok h1 a2 /\ block_size_ a2 = block_size_ other /\
          element_count_ a2 = element_count_ other /\
          (forall b, b ∈ data_ a2 -> b ∈ data_ a /\ b ∉ data_ other)) as (Hok & Hbs & Hec & Hown).
  { unfold a2. destruct (block_size_ a =? block_size_ other) eqn:E; simpl.
    - apply N.eqb_eq in E. split_and!; try done.
      + apply Array_wf_alt in Hwf1 as [? _]. done.
      + intros b Hb. split; [done | by apply Hdisj].
    - split_and!; try done.
      + repeat split; [apply Hwfo | apply NoDup_nil_2 | by intros b ?%elem_of_nil].
      + by intros b ?%elem_of_nil. }
  apply wp_bind.
  eapply (wp_mono _ _ (fun s' _ => s' = mkAState script h1 a2));
    [| |intros ? ? H; exact H].
  { unfold a2. destruct (negb _); [by apply wp_modify | by apply wp_ret]. }
  intros ? [] ->.
  apply wp_bind. rewrite <- (with_blocks_0 script h1 a2).
  eapply wp_mono; [apply add_blocks_while_spec | |].
  - rewrite Hbs. apply Hwfo.
  - lia.
  - intros s3 [] (k & script' & -> & Hcap).
    eapply wp_mono; [apply (copy_into_blocks (data_ a) script' h1 a2 other k) | | done];
      try done.
    intros s4 [] (G1 & G2 & G3 & G4 & G5 & G6). unfold copy_post. simpl.
    split; [done|]. split; [done|]. split; [done|]. split.
    { intros b Hb. destruct (G4 b Hb); [by left | right; lia]. }
    split.
    { eapply heap_frame_trans; [exact Hfr1 | exact G5]. }
    intros i. by rewrite G6.
  - by intros s3 ex (-> & _).
Qed.
End ArrayCopy.

(** ** Copying a graph *)

Section GraphCopy.
Context {NData EData : Type}.
Variable NData_init : NData.
Variable EData_init : EData.
Implicit Types (s : @GState NData EData) (g : Graph) (i j src tgt : N).
Implicit Types (e : Edge EData).

Definition with_eheap (h : list (list (Edge EData))) s : GState :=
  mkGState (g_script s) (nheap s) h (g_this s).

Lemma edge_at_Some s i e :
  edge_at s i = Some e ->
  i < edge_count (g_this s) /\
  exists p, ref (edges_of (g_this s)) i = Some p /\ load (eheap s) p = Some e.
Proof.
  intros He. split; [by eapply elem_lt|].
  unfold edge_at, elem in He. destruct (i <? _); [|done].
  destruct (ref (edges_of (g_this s)) i) as [p|]; [|done]. eauto.
Qed.

Lemma node_at_Some s i n :
  node_at s i = Some n ->
  i < node_count (g_this s) /\
  exists p, ref (nodes_of (g_this s)) i = Some p /\ load (nheap s) p = Some n.
Proof.
  intros He. split; [by eapply elem_lt|].
  unfold node_at, elem in He. destruct (i <? _); [|done].
  destruct (ref (nodes_of (g_this s)) i) as [p|]; [|done]. eauto.
Qed.

Lemma on_edges_read_eq s p e :
  load (eheap s) p = Some e -> on_edges (read p) s = Ok s e.
Proof.
  intros H. unfold on_edges, zoom, read. simpl. rewrite H. simpl. by rewrite edges_update_id.
Qed.

Lemma on_edges_assign_eq s p x h' :
  store (eheap s) p x = Some h' -> on_edges (assign p x) s = Ok (with_eheap h' s) tt.
Proof.
  intros H. unfold on_edges, zoom, assign. simpl. rewrite H.
  destruct s as [? ? ? [? [? ?] ?]]. done.
Qed.

Lemma edges_subscript_eq s i e :
  edge_at s i = Some e -> edges_subscript i s = Ok s e.
Proof.
  intros (Hi & p & Hp & Hl)%edge_at_Some. unfold edges_subscript, bind.
  rewrite (on_edges_get_eq s i p Hi Hp). by apply on_edges_read_eq.
Qed.

Lemma deref_node_eq s q n :
  load (nheap s) q = Some n -> deref_node (Some q) s = Ok s n.
Proof. intros H. unfold deref_node, bind, from_option, ret, gets. by rewrite H. Qed.

Lemma source_id_of_eq s i e q n :
  edge_at s i = Some e -> Edge_source_ e = Some q -> load (nheap s) q = Some n ->
  source_id_of i s = Ok s (Node_id_ n).
Proof.
  intros He Hq Hn. unfold source_id_of, bind. rewrite (edges_subscript_eq s i e He).
  rewrite Hq. by rewrite (deref_node_eq s q n Hn).
Qed.

Lemma target_id_of_eq s i e q n :
  edge_at s i = Some e -> Edge_target_ e = Some q -> load (nheap s) q = Some n ->
  target_id_of i s = Ok s (Node_id_ n).
Proof.
  intros He Hq Hn. unfold target_id_of, bind. rewrite (edges_subscript_eq s i e He).
  rewrite Hq. by rewrite (deref_node_eq s q n Hn).
Qed.

(** [e] points at the slots [src] and [tgt] of the node array [a], which
    hold nodes that carry their positions as ids *)
Definition points_into (h : list (list (Node NData))) (a : Array) (count : N)
    e src tgt : Prop :=
  src < count /\ tgt < count /\
  (exists q n, Edge_source_ e = Some q /\ ref a src = Some q /\
               load h q = Some n /\ Node_id_ n = src) /\
  (exists q n, Edge_target_ e = Some q /\ ref a tgt = Some q /\
               load h q = Some n /\ Node_id_ n = tgt).

(** the edge [e] rebound to the slots [src] and [tgt] of [a] *)
Definition rebound (a : Array) e src tgt : Edge EData :=
  mkEdge (Edge_id_ e) (ref a src) (ref a tgt) (Edge_data_ e).

Lemma update_source_and_target_pointers_spec s (old : Array) :
  Array_wf (nheap s) (nodes_of (g_this s)) ->
  Array_wf (eheap s) (edges_of (g_this s)) ->
  (forall i e, edge_at s i = Some e ->
     exists src tgt, points_into (nheap s) old (node_count (g_this s)) e src tgt) ->
  wp update_source_and_target_pointers s
    (fun s' _ =>
       exists h', s' = with_eheap h' s /\
         Array_wf h' (edges_of (g_this s)) /\
         heap_frame (data_ (edges_of (g_this s))) (eheap s) h' /\
         forall i e, edge_at s i = Some e ->
           exists src tgt, points_into (nheap s) old (node_count (g_this s)) e src tgt /\
             edge_at s' i = Some (rebound (nodes_of (g_this s)) e src tgt))
    (fun _ _ => False).
Proof.
  intros Hwfn Hwfe Hpts. unfold update_source_and_target_pointers.
  eapply wp_bind_eq; [apply Edges_size_eq|].
  set (n := node_count (g_this s)). set (Ce := edges_of (g_this s)).
  set (Cn := nodes_of (g_this s)).
  eapply wp_mono;
    [apply (wp_for (fun k s' =>
       exists h', s' = with_eheap h' s /\
         Array_wf h' Ce /\ heap_frame (data_ Ce) (eheap s) h' /\
         forall i e, edge_at s i = Some e ->
           (i < k -> exists src tgt, points_into (nheap s) old n e src tgt /\
                       edge_at s' i = Some (rebound Cn e src tgt)) /\
           (k <= i -> edge_at s' i = Some e))
       _ (fun _ _ => False)) | |].
  - exists (eheap s). split; [by destruct s|]. split; [done|].
    split; [apply heap_frame_refl|]. intros i e He. split; [lia|]. intros _.
    replace (with_eheap (eheap s) s) with s by (by destruct s). done.
  - intros k s1 Hk (h1 & -> & Hwf1 & Hfr1 & Hinv).
    set (s1 := with_eheap h1 s).
    destruct (elem_is_Some _ _ k Hwfe Hk) as [e He].
    fold (edge_at s k) in He.
    destruct (Hpts _ _ He) as (src & tgt & Hsrc & Htgt & (qs & ns & Hes & Hrs & Hls & Hids)
                                 & (qt & nt & Het & Hrt & Hlt & Hidt)).
    pose proof (proj2 (Hinv k e He) ltac:(lia)) as He1.
    destruct (ref_lt_Some _ _ _ Hwfn Hsrc) as [ps Hps].
    destruct (ref_lt_Some _ _ _ Hwfn Htgt) as [pt Hpt].
    eapply wp_bind_eq; [by apply (source_id_of_eq s1 k e qs ns)|]. rewrite Hids.
    eapply wp_bind_eq; [by apply (Nodes_get_eq s1 src ps)|].
    eapply wp_bind_eq; [by apply (target_id_of_eq s1 k e qt nt)|]. rewrite Hidt.
    eapply wp_bind_eq; [by apply (Nodes_get_eq s1 tgt pt)|].
    destruct (edge_at_Some _ _ _ He1) as (_ & p & Hp & Hlp).
    eapply wp_bind_eq; [by apply (on_edges_get_eq s1 k p)|].
    eapply wp_bind_eq; [by apply on_edges_read_eq|].
    destruct (store_is_Some h1 p (update_node_pointers ps pt e)) as [h2 Hst].
    { exists e. exact Hlp. }
    unfold wp. rewrite (on_edges_assign_eq s1 _ _ h2 Hst).
    exists h2. split; [done|].
    pose proof (heap_frame_store_own (data_ Ce) _ _ _ _ Hst (ref_owned Ce _ _ Hp)) as Hfr2.
    split; [by eapply Array_wf_frame|]. split; [by eapply heap_frame_trans|].
    intros i e' He'. destruct (Hinv i e' He') as [Hlo Hhi].
    assert (forall e0, edge_at s1 i = Some e0 -> i <> k ->
              edge_at (with_eheap h2 (with_eheap h1 s)) i = Some e0) as Hkeep.
    { intros e0 (Hi & r & Hr & Hlr)%edge_at_Some Hne.
      unfold edge_at, elem. simpl. fold Ce.
      assert (ref Ce i = Some r) as Hr' by exact Hr.
      rewrite (proj2 (N.ltb_lt i (element_count_ Ce)) Hi), Hr'. simpl. rewrite (load_store _ _ _ _ _ Hst). rewrite decide_False; [done|].
      intros ->. apply Hne. eapply element_ref_inj; [apply Hwfe | exact Hr | exact Hp]. }
    split.
    + intros Hi. destruct (decide (i = k)) as [->|Hne].
      * assert (e' = e) as -> by congruence.
        exists src, tgt. split; [by repeat split; eauto 10|].
        unfold edge_at, elem. simpl. fold Ce.
        assert (ref Ce k = Some p) as Hp' by exact Hp.
        rewrite (proj2 (N.ltb_lt k (element_count_ Ce)) Hk), Hp'. simpl. rewrite (load_store _ _ _ _ _ Hst). rewrite decide_True by done.
        unfold rebound, update_node_pointers.
        assert (ref Cn src = Some ps) as -> by exact Hps.
        assert (ref Cn tgt = Some pt) as -> by exact Hpt. done.
      * destruct Hlo as (src' & tgt' & Hp' & He2); [lia|].
        exists src', tgt'. split; [done|]. by apply Hkeep.
    + intros Hi. apply Hkeep; [apply Hhi; lia | lia].
  - intros s1 [] (h1 & -> & Hwf1 & Hfr1 & Hinv). exists h1.
    split; [done|]. split; [done|]. split; [done|].
    intros i e He. destruct (Hinv i e He) as [Hlo _]. apply Hlo. by eapply elem_lt.
  - done.
Qed.

(** the invariant of the two stores, the matrix left aside *)
Record stores_wf s : Prop := {
  sw_nodes : Array_wf (nheap s) (nodes_of (g_this s));
  sw_edges : Array_wf (eheap s) (edges_of (g_this s));
  sw_node_ids : forall i n, node_at s i = Some n -> Node_id_ n = i;
  sw_edge_ids : forall i e, edge_at s i = Some e -> Edge_id_ e = i;
  sw_endpoints : forall i e, edge_at s i = Some e ->
    exists src tgt, joins (g_this s) e src tgt
}.

(** no two stored edges are recorded for the same ordered pair *)
Definition unique_links s : Prop :=
  forall i j e e' src tgt,
    edge_at s i = Some e -> edge_at s j = Some e' ->
    links (g_this s) e src tgt -> links (g_this s) e' src tgt -> i = j.

Lemma Graph_wf_stores s : Graph_wf s -> stores_wf s.
Proof. intros []. by split. Qed.

Lemma Graph_wf_unique s : Graph_wf s -> unique_links s.
Proof.
  intros Hwf i j e e' src tgt He He' Hl Hl'.
  destruct (edge_at_Some _ _ _ He) as (_ & p & Hp & _).
  destruct (edge_at_Some _ _ _ He') as (_ & p' & Hp' & _).
  assert (matrix_get (matrix_of (g_this s)) src tgt = Some (Some p)) as H1.
  { apply (wf_cells _ Hwf). eauto. }
  assert (matrix_get (matrix_of (g_this s)) src tgt = Some (Some p')) as H2.
  { apply (wf_cells _ Hwf). eauto. }
  assert (p' = p) as -> by congruence.
  eapply element_ref_inj; [apply (wf_edges _ Hwf) | exact Hp | exact Hp'].
Qed.

Lemma joins_source_id s e src tgt :
  stores_wf s -> joins (g_this s) e src tgt ->
  exists q n, Edge_source_ e = Some q /\ load (nheap s) q = Some n /\ Node_id_ n = src.
Proof.
  intros Hsw (Hs & Ht & Hes & Het).
  destruct (elem_is_Some _ _ src (sw_nodes _ Hsw) Hs) as [n Hn].
  fold (node_at s src) in Hn. pose proof (sw_node_ids _ Hsw _ _ Hn) as Hid.
  apply node_at_Some in Hn as (_ & q & Hq & Hl). exists q, n.
  split; [congruence | done].
Qed.

Lemma joins_target_id s e src tgt :
  stores_wf s -> joins (g_this s) e src tgt ->
  exists q n, Edge_target_ e = Some q /\ load (nheap s) q = Some n /\ Node_id_ n = tgt.
Proof.
  intros Hsw (Hs & Ht & Hes & Het).
  destruct (elem_is_Some _ _ tgt (sw_nodes _ Hsw) Ht) as [n Hn].
  fold (node_at s tgt) in Hn. pose proof (sw_node_ids _ Hsw _ _ Hn) as Hid.
  apply node_at_Some in Hn as (_ & q & Hq & Hl). exists q, n.
  split; [congruence | done].
Qed.

Lemma square_replicate n : square n (replicate n (replicate n (None : option ptr))).
Proof.
  split; [by rewrite length_replicate|].
  intros row ->%elem_of_replicate_inv. by rewrite length_replicate.
Qed.

Lemma matrix_get_replicate k n a b (p : ptr) :
  matrix_get (replicate k (replicate n None)) a b <> Some (Some p).
Proof.
  unfold matrix_get. destruct (replicate k _ !! _) as [row|] eqn:Hrow; [|done]. simpl.
  apply lookup_replicate in Hrow as [-> _].
  destruct (replicate n _ !! _) as [c|] eqn:Hc; [|done].
  apply lookup_replicate in Hc as [-> _]. done.
Qed.

Lemma construct_adjacency_matrix_spec s :
  stores_wf s -> unique_links s ->
  wp construct_adjacency_matrix s
    (fun s' _ => exists m' script', s' = with_script script' (with_matrix m' s) /\ Graph_wf s')
    (fun s' ex => ex = UnavailableMemoryException).
Proof.
  intros Hsw Huniq. unfold construct_adjacency_matrix.
  apply wp_bind, wp_modify.
  eapply wp_bind_eq; [apply Nodes_size_eq|].
  change (node_count (g_this (set_graph (set_matrix []) s))) with (node_count (g_this s)).
  set (n := node_count (g_this s)).
  set (m0 := replicate (N.to_nat n) (replicate (N.to_nat n) (None : option ptr))).
  apply wp_bind, wp_try_catch.
  eapply (wp_mono _ _ (fun s1 _ => exists script, s1 = with_script script (with_matrix m0 s))
            _ (fun _ _ => True)).
  - eapply wp_mono;
      [apply (wp_for (fun k s1 => exists script,
         s1 = with_script script
                (with_matrix (replicate (N.to_nat k) (replicate (N.to_nat n) None)) s))
         _ (fun _ _ => True)) | |].
    + exists (g_script s). by destruct s.
    + intros k s1 Hk (script & ->). apply wp_bind.
      eapply wp_mono; [apply vector_alloc_spec | | done].
      intros s2 [] (script2 & ->). apply wp_bind, wp_gets. apply wp_modify.
      exists script2. replace (N.to_nat (k + 1)) with (Datatypes.S (N.to_nat k)) by lia.
      rewrite replicate_S_end. done.
    + intros s1 [] H. exact H.
    + done.
  - intros s1 [] (script & ->). cbv beta.
    set (s1 := with_script script (with_matrix m0 s)).
    eapply wp_bind_eq; [apply Edges_size_eq|].
    change (edge_count (g_this s1)) with (edge_count (g_this s)).
    set (Ce := edges_of (g_this s)). set (u := is_undirected (g_this s)).
    eapply wp_mono;
      [apply (wp_for (fun k s2 => exists m,
         s2 = with_script script (with_matrix m s) /\
         square (N.to_nat n) m /\
         forall src tgt p,
           matrix_get m src tgt = Some (Some p) <->
           exists i e, i < k /\ edge_at s i = Some e /\ ref Ce i = Some p /\
                       links (g_this s) e src tgt)
         _ (fun _ _ => False)) | |].
    + exists m0. split; [done|]. split; [apply square_replicate|].
      intros src tgt p. split.
      * intros H. by apply matrix_get_replicate in H.
      * intros (i & e & Hi & _). lia.
    + intros k s2 Hk (m & -> & Hsq & Hcells).
      set (s2 := with_script script (with_matrix m s)).
      destruct (elem_is_Some _ _ k (sw_edges _ Hsw) Hk) as [e He].
      fold (edge_at s k) in He.
      destruct (sw_endpoints _ Hsw _ _ He) as (src & tgt & Hjoin).
      destruct (joins_source_id _ _ _ _ Hsw Hjoin) as (qs & ns & Hes & Hls & Hids).
      destruct (joins_target_id _ _ _ _ Hsw Hjoin) as (qt & nt & Het & Hlt & Hidt).
      destruct (edge_at_Some _ _ _ He) as (_ & p & Hp & _).
      change (ref Ce k = Some p) in Hp.
      eapply wp_bind_eq; [by apply (source_id_of_eq s2 k e qs ns)|]. rewrite Hids.
      eapply wp_bind_eq; [by apply (target_id_of_eq s2 k e qt nt)|]. rewrite Hidt.
      eapply wp_bind_eq; [by apply (on_edges_get_eq s2 k p)|].
      pose proof Hjoin as (Hs & Ht & _).
      destruct (matrix_set_is_Some m src tgt (Some p)) as [m1 Hm1].
      { apply (matrix_get_lt _ _ _ _ Hsq). unfold n. lia. }
      eapply wp_bind_eq; [apply (matrix_write_eq s2 _ _ _ m1 Hm1)|].
      pose proof (matrix_set_square _ _ _ _ _ _ Hsq Hm1) as Hsq1.
      apply wp_bind, wp_gets.
      change (is_undirected (g_this (with_matrix m1 s2))) with u.
      assert (forall m2,
        square (N.to_nat n) m2 ->
        (forall a b, matrix_get m2 a b =
           if decide (cell_written u src tgt a b) then Some (Some p) else matrix_get m a b) ->
        exists m', with_script script (with_matrix m2 s) = with_script script (with_matrix m' s) /\
          square (N.to_nat n) m' /\
          forall a b r,
            matrix_get m' a b = Some (Some r) <->
            exists i e0, i < k + 1 /\ edge_at s i = Some e0 /\ ref Ce i = Some r /\
                         links (g_this s) e0 a b) as Hfinish.
      { intros m2 Hsq2 Hm2. exists m2. split; [done|]. split; [done|].
        intros a b r. rewrite Hm2. case_decide as Hw.
        - split.
          + intros [= <-]. exists k, e. split; [lia|]. split; [done|]. split; [done|].
            destruct Hw as [[-> ->] | (Hu & -> & ->)]; [by left | right; by split].
          + intros (i & e0 & Hi & He0 & Hr & Hl).
            assert (links (g_this s) e a b) as Hlk.
            { destruct Hw as [[-> ->] | (Hu & -> & ->)]; [by left | right; by split]. }
            assert (i = k) as -> by (by eapply (Huniq i k e0 e a b)).
            congruence.
        - rewrite Hcells. split.
          + intros (i & e0 & Hi & He0 & Hr & Hl). exists i, e0. split; [lia | done].
          + intros (i & e0 & Hi & He0 & Hr & Hl). exists i, e0.
            split; [|done]. destruct (decide (i = k)) as [->|Hne]; [|lia].
            exfalso. apply Hw. assert (e0 = e) as -> by congruence.
            destruct Hl as [Hj | [Hu Hj]].
            * destruct (joins_inj s e _ _ _ _ (sw_nodes _ Hsw) Hj Hjoin) as [-> ->]. by left.
            * destruct (joins_inj s e _ _ _ _ (sw_nodes _ Hsw) Hj Hjoin) as [-> ->]. by right. }
      destruct u eqn:Hu.
      * eapply wp_bind_eq; [by apply (on_edges_get_eq (with_matrix m1 s2) k p)|].
        destruct (matrix_set_is_Some m1 tgt src (Some p)) as [m2 Hm2].
        { apply (matrix_get_lt _ _ _ _ Hsq1). unfold n. lia. }
        unfold wp. rewrite (matrix_write_eq (with_matrix m1 s2) _ _ _ m2 Hm2).
        apply (Hfinish m2); [by eapply matrix_set_square|].
        intros a b. rewrite (matrix_get_set _ _ _ _ _ a b Hm2).
        rewrite (matrix_get_set _ _ _ _ _ a b Hm1).
        unfold cell_written. repeat case_decide; try done; exfalso; tauto.
      * apply wp_ret. apply (Hfinish m1); [done|].
        intros a b. rewrite (matrix_get_set _ _ _ _ _ a b Hm1).
        unfold cell_written. repeat case_decide; try done; exfalso; intuition congruence.
    + intros s2 [] (m & -> & Hsq & Hcells). exists m, script. split; [done|].
      destruct Hsw as [H1 H2 H3 H4 H5]. split; try done.
      intros src tgt p. rewrite (Hcells src tgt p). split.
      * intros (i & e & _ & He & Hr & Hl). eauto.
      * intros (i & e & He & Hr & Hl). exists i, e. split; [by eapply elem_lt | done].
    + done.
  - done.
Qed.

(** the graph [g] seen in the memory of [s] *)
Definition graph_in s g : GState := mkGState (g_script s) (nheap s) (eheap s) g.

(** [s'] holds a faithful copy of the graph of [s0]: the same nodes, and
    the same edges between the same positions, rebound to the node store
    of the copy *)
Definition copy_of s0 s' : Prop :=
  node_count (g_this s') = node_count (g_this s0) /\
  edge_count (g_this s') = edge_count (g_this s0) /\
  (forall i, node_at s' i = node_at s0 i) /\
  (forall i e, edge_at s0 i = Some e ->
     exists src tgt, joins (g_this s0) e src tgt /\
       edge_at s' i = Some (rebound (nodes_of (g_this s')) e src tgt)).

(** Rebinding the node pointers and reconstructing the matrix, in that
    order, turn element-wise copies of the two stores into a well-formed
    graph. *)
Lemma rebuild_spec s0 s2 :
  Graph_wf s0 ->
  Array_wf (nheap s2) (nodes_of (g_this s2)) ->
  Array_wf (eheap s2) (edges_of (g_this s2)) ->
  node_count (g_this s2) = node_count (g_this s0) ->
  edge_count (g_this s2) = edge_count (g_this s0) ->
  (forall i, node_at s2 i = node_at s0 i) ->
  (forall i, edge_at s2 i = edge_at s0 i) ->
  (forall i, node_at (graph_in s2 (g_this s0)) i = node_at s0 i) ->
  is_undirected (g_this s2) = is_undirected (g_this s0) ->
  wp (update_source_and_target_pointers ;;; construct_adjacency_matrix) s2
    (fun s' _ => exists h' m' script',
       s' = with_script script' (with_matrix m' (with_eheap h' s2)) /\
       Graph_wf s' /\
       heap_frame (data_ (edges_of (g_this s2))) (eheap s2) h' /\
       copy_of s0 s')
    (fun _ ex => ex = UnavailableMemoryException).
Proof.
  intros Hwf0 Hwfn Hwfe Hn Hm Hnodes Hedges Hintact Hun.
  set (G := g_this s0). set (C := g_this s2).
  assert (forall i e, edge_at s2 i = Some e ->
            exists src tgt, points_into (nheap s2) (nodes_of G) (node_count C) e src tgt) as Hpts.
  { intros i e He. rewrite Hedges in He.
    destruct (wf_endpoints _ Hwf0 _ _ He) as (src & tgt & Hs & Ht & Hes & Het).
    exists src, tgt. unfold C. rewrite Hn. split; [done|]. split; [done|].
    split.
    - destruct (elem_is_Some _ _ src (wf_nodes _ Hwf0) Hs) as [nd Hnd].
      fold (node_at s0 src) in Hnd. pose proof (wf_node_ids _ Hwf0 _ _ Hnd) as Hid.
      rewrite <- Hintact in Hnd. apply node_at_Some in Hnd as (_ & q & Hq & Hl).
      exists q, nd. split; [|done]. unfold G. by rewrite Hes.
    - destruct (elem_is_Some _ _ tgt (wf_nodes _ Hwf0) Ht) as [nd Hnd].
      fold (node_at s0 tgt) in Hnd. pose proof (wf_node_ids _ Hwf0 _ _ Hnd) as Hid.
      rewrite <- Hintact in Hnd. apply node_at_Some in Hnd as (_ & q & Hq & Hl).
      exists q, nd. split; [|done]. unfold G. by rewrite Het. }
  apply wp_bind.
  eapply wp_mono;
    [apply (update_source_and_target_pointers_spec s2 (nodes_of G)); done | | done].
  intros s3 [] (h3 & -> & Hwfe3 & Hfr3 & Hreb). cbv beta.
  set (s3 := with_eheap h3 s2).
  assert (forall i e, edge_at s0 i = Some e ->
            exists src tgt, joins G e src tgt /\
              edge_at s3 i = Some (rebound (nodes_of C) e src tgt)) as Hreb'.
  { intros i e He. pose proof He as He2. rewrite <- Hedges in He2.
    destruct (Hreb _ _ He2) as (src & tgt & (Hs & Ht & (q & nd & Hes & Hq & _) & (q' & nd' & Het & Hq' & _)) & He3).
    exists src, tgt. split; [|done].
    unfold C in Hs, Ht. rewrite Hn in Hs, Ht. repeat split; try done; congruence. }
  assert (forall i e', edge_at s3 i = Some e' ->
            exists e src tgt, edge_at s0 i = Some e /\ joins G e src tgt /\
              e' = rebound (nodes_of C) e src tgt) as Hinv.
  { intros i e' He'.
    assert (i < edge_count (g_this s0)) as Hi.
    { apply elem_lt in He'. change (element_count_ (edges_of (g_this s3))) with (edge_count C) in He'.
      unfold C in He'. lia. }
    destruct (elem_is_Some _ _ i (wf_edges _ Hwf0) Hi) as [e He].
    fold (edge_at s0 i) in He. destruct (Hreb' _ _ He) as (src & tgt & Hj & He3).
    exists e, src, tgt. split; [done|]. split; [done|]. congruence. }
  assert (forall e src tgt, joins G e src tgt ->
            joins C (rebound (nodes_of C) e src tgt) src tgt) as Hjoin.
  { intros e src tgt (Hs & Ht & _). unfold C. unfold joins. rewrite Hn. by repeat split. }
  assert (forall e src tgt a b, joins G e src tgt ->
            links C (rebound (nodes_of C) e src tgt) a b -> links G e a b) as Hlinks.
  { intros e src tgt a b Hj [Hj' | [Hu Hj']].
    - destruct (joins_inj s2 _ _ _ _ _ Hwfn Hj' (Hjoin _ _ _ Hj)) as [-> ->]. by left.
    - destruct (joins_inj s2 _ _ _ _ _ Hwfn Hj' (Hjoin _ _ _ Hj)) as [-> ->].
      right. split; [|done]. unfold G. rewrite <- Hun. exact Hu. }
  eapply wp_mono; [apply (construct_adjacency_matrix_spec s3) | | done].
  - split.
    + exact Hwfn.
    + exact Hwfe3.
    + intros i nd Hnd. change (node_at s3 i) with (node_at s2 i) in Hnd.
      rewrite Hnodes in Hnd. by apply (wf_node_ids _ Hwf0).
    + intros i e' (e & src & tgt & He & _ & ->)%Hinv. simpl. by apply (wf_edge_ids _ Hwf0).
    + intros i e' (e & src & tgt & He & Hj & ->)%Hinv. exists src, tgt. by apply Hjoin.
  - intros i j e1 e2 a b (e & src & tgt & He & Hj & ->)%Hinv
      (e' & src' & tgt' & He' & Hj' & ->)%Hinv Hl1 Hl2.
    eapply (Graph_wf_unique _ Hwf0 i j e e' a b); try done.
    + by eapply Hlinks.
    + by eapply Hlinks.
  - intros s4 [] (m' & script' & -> & Hwf4). exists h3, m', script'.
    split; [done|]. split; [done|]. split; [done|].
    split; [exact Hn|]. split; [exact Hm|]. split; [exact Hnodes|]. exact Hreb'.
Qed.

(** what copy construction of a graph from [other] establishes: a
    well-formed faithful copy in blocks of its own, [other] untouched *)
Definition copy_ctor_post (undirected : bool) (other : Graph) s s' : Prop :=
  Graph_wf s' /\
  is_undirected (g_this s') = undirected /\
  copy_of (graph_in s other) s' /\
  heap_frame [] (nheap s) (nheap s') /\
  heap_frame [] (eheap s) (eheap s') /\
  (forall b, b ∈ data_ (nodes_of (g_this s')) -> (length (nheap s) <= b)%nat) /\
  (forall b, b ∈ data_ (edges_of (g_this s')) -> (length (eheap s) <= b)%nat).

Lemma Graph_copy_ctor_spec undirected other s :
  Graph_wf (graph_in s other) ->
  is_undirected other = undirected ->
  wp (Graph_copy_ctor NData_init EData_init undirected other ;;; construct_adjacency_matrix) s
    (fun s' _ => copy_ctor_post undirected other s s')
    (fun _ ex => ex = UnavailableMemoryException).
Proof.
  intros Hwf0 Hun. set (s0 := graph_in s other).
  apply wp_bind. unfold Graph_copy_ctor. apply wp_bind, wp_modify.
  set (sp := set_graph _ s).
  apply wp_bind, wp_zoom.
  eapply wp_mono; [apply Array_copy_ctor_spec; exact (wf_nodes _ Hwf0) | | by intros ? ? [? _]].
  intros t1 [] (N1 & N2 & N3 & N4 & N5 & N6). cbv beta.
  set (s1 := nodes_update t1 sp).
  apply wp_bind, wp_zoom.
  eapply wp_mono; [apply Array_copy_ctor_spec; exact (wf_edges _ Hwf0) | | by intros ? ? [? _]].
  intros t2 [] (E1 & E2 & E3 & E4 & E5 & E6). cbv beta.
  set (s2 := edges_update t2 s1).
  apply wp_bind_inv.
  eapply wp_mono; [apply (rebuild_spec s0 s2); try done | | done].
  - intros i. change (node_at (graph_in s2 (g_this s0)) i)
      with (elem (a_heap t1) (nodes_of other) i).
    eapply elem_frame; [exact (wf_nodes _ Hwf0) | exact N5 |].
    by intros b _ ?%elem_of_nil.
  - intros s4 [] (h' & m' & script' & -> & Hwf4 & Hfr & Hcopy).
    split; [done|]. split; [done|]. split; [done|]. split; [exact N5|].
    split.
    { eapply heap_frame_trans'; [exact E5 | exact Hfr |].
      intros b Hb. right. by apply (E4 b) in Hb as [?%elem_of_nil|?]. }
    split.
    + intros b Hb. by apply (N4 b) in Hb as [?%elem_of_nil|?].
    + intros b Hb. by apply (E4 b) in Hb as [?%elem_of_nil|?].
Qed.

Lemma DirectedGraph_copy_ctor_spec other s :
  Graph_wf (graph_in s other) -> is_undirected other = false ->
  wp (DirectedGraph_copy_ctor NData_init EData_init other) s
    (fun s' _ => copy_ctor_post false other s s')
    (fun _ ex => ex = UnavailableMemoryException).
Proof. apply Graph_copy_ctor_spec. Qed.

Lemma UndirectedGraph_copy_ctor_spec other s :
  Graph_wf (graph_in s other) -> is_undirected other = true ->
  wp (UndirectedGraph_copy_ctor NData_init EData_init other) s
    (fun s' _ => copy_ctor_post true other s s')
    (fun _ ex => ex = UnavailableMemoryException).
Proof. apply Graph_copy_ctor_spec. Qed.

(** what copy assignment from a distinct graph [other] establishes *)
Definition copy_assign_post (other : Graph) s s' : Prop :=
  Graph_wf s' /\
  is_undirected (g_this s') = is_undirected (g_this s) /\
  copy_of (graph_in s other) s' /\
  frame_nodes s s' /\ frame_edges s s'.

Lemma Graph_copy_assign_spec other s :
  Graph_wf s ->
  Graph_wf (graph_in s other) ->
  is_undirected other = is_undirected (g_this s) ->
  (forall b, b ∈ data_ (nodes_of (g_this s)) -> b ∉ data_ (nodes_of other)) ->
  (forall b, b ∈ data_ (edges_of (g_this s)) -> b ∉ data_ (edges_of other)) ->
  wp (Graph_copy_assign NData_init EData_init other) s
    (fun s' _ => copy_assign_post other s s')
    (fun _ ex => ex = UnavailableMemoryException).
Proof.
  intros Hwf Hwf0 Hun Hdn Hde. set (s0 := graph_in s other).
  unfold Graph_copy_assign, Nodes_copy_assign, Edges_copy_assign.
  apply wp_bind, wp_zoom.
  eapply wp_mono;
    [apply Array_copy_assign_spec; [exact (wf_nodes _ Hwf) | exact (wf_nodes _ Hwf0) | exact Hdn]
    | | done].
  intros t1 [] (N1 & N2 & N3 & N4 & N5 & N6). cbv beta.
  set (s1 := nodes_update t1 s).
  apply wp_bind, wp_zoom.
  eapply wp_mono;
    [apply Array_copy_assign_spec; [exact (wf_edges _ Hwf) | exact (wf_edges _ Hwf0) | exact Hde]
    | | done].
  intros t2 [] (E1 & E2 & E3 & E4 & E5 & E6). cbv beta.
  set (s2 := edges_update t2 s1).
  eapply wp_mono; [apply (rebuild_spec s0 s2); try done | | done].
  - intros i. change (node_at (graph_in s2 (g_this s0)) i)
      with (elem (a_heap t1) (nodes_of other) i).
    eapply elem_frame; [exact (wf_nodes _ Hwf0) | exact N5 |].
    intros b Hb Hin. by eapply Hdn.
  - intros s4 [] (h' & m' & script' & -> & Hwf4 & Hfr & Hcopy).
    split; [done|]. split; [done|]. split; [done|]. split.
    + split; [exact N5 | exact N4].
    + split; [|exact E4].
      eapply heap_frame_trans'; [exact E5 | exact Hfr | exact E4].
Qed.
End GraphCopy.

(** ** Every operation keeps the invariant and touches only its own blocks *)

Section Evolution.
Context {NData EData : Type}.
Variable NData_init : NData.
Variable EData_init : EData.
Variable NData_extract : string -> NData.
Variable EData_extract : string -> EData.
Implicit Types (s : @GState NData EData) (g : Graph) (i j src tgt : N).
Implicit Types (e : Edge EData).

(** [s'] is a well-formed state of the graph of [s], reached by writing
    only to blocks of that graph or to new ones *)
Definition evolves s s' : Prop :=
  Graph_wf s' /\ frame_nodes s s' /\ frame_edges s s' /\
  is_undirected (g_this s') = is_undirected (g_this s).

Lemma frame_nodes_trans s1 s2 s3 :
  frame_nodes s1 s2 -> frame_nodes s2 s3 -> frame_nodes s1 s3.
Proof.
  intros [F1 O1] [F2 O2]. split.
  - eapply heap_frame_trans'; [exact F1 | exact F2 | exact O1].
  - intros b Hb. destruct (O2 b Hb) as [Hb'|Hb'].
    + by apply O1.
    + right. destruct F1 as (L & _). lia.
Qed.

Lemma frame_edges_trans s1 s2 s3 :
  frame_edges s1 s2 -> frame_edges s2 s3 -> frame_edges s1 s3.
Proof.
  intros [F1 O1] [F2 O2]. split.
  - eapply heap_frame_trans'; [exact F1 | exact F2 | exact O1].
  - intros b Hb. destruct (O2 b Hb) as [Hb'|Hb'].
    + by apply O1.
    + right. destruct F1 as (L & _). lia.
Qed.

Lemma evolves_refl s : Graph_wf s -> evolves s s.
Proof. intros H. split; [done|]. split; [apply frame_nodes_refl|]. split; [apply frame_edges_refl | done]. Qed.

Lemma evolves_trans s1 s2 s3 : evolves s1 s2 -> evolves s2 s3 -> evolves s1 s3.
Proof.
  intros (_ & N1 & E1 & U1) (W2 & N2 & E2 & U2). split; [done|].
  split; [by eapply frame_nodes_trans|]. split; [by eapply frame_edges_trans | congruence].
Qed.

Lemma stable_evolves s s' : stable s s' -> evolves s s'.
Proof. intros (W & C & N & E). split; [done|]. split; [done|]. split; [done|]. apply C. Qed.

Lemma add_node_post_evolves id data s s' p :
  add_node_post id data s s' p -> evolves s s'.
Proof.
  intros (_ & W & _ & _ & _ & _ & Heh & Hed & Hun & _ & Hfr).
  split; [done|]. split; [done|]. split; [|done].
  unfold frame_edges. rewrite Heh, Hed. split; [apply heap_frame_refl | auto].
Qed.

Lemma add_edge_post_evolves id source target data s s' p :
  add_edge_post id source target data s s' p -> evolves s s'.
Proof.
  intros (_ & _ & _ & _ & W & _ & _ & _ & _ & Hnh & Hnd & Hun & _ & Hfr).
  split; [done|]. split; [|done].
  unfold frame_nodes. rewrite Hnh, Hnd. split; [apply heap_frame_refl | auto].
Qed.

Lemma Nodes_add_evolves id data s :
  Graph_wf s ->
  wp (Nodes_add NData_init id data) s (fun s' _ => evolves s s') (fun s' _ => evolves s s').
Proof.
  intros Hwf. eapply wp_mono; [by apply Nodes_add_spec | |].
  - intros s' p [Hpost _]. by eapply add_node_post_evolves.
  - intros s' ex [(_ & _ & ->) | [(_ & _ & ->) | (_ & _ & Hst & _)]];
      [by apply evolves_refl | by apply evolves_refl | by apply stable_evolves].
Qed.

Lemma Edges_add_evolves id source target data s :
  Graph_wf s ->
  wp (Edges_add EData_init id source target data) s
    (fun s' _ => evolves s s') (fun s' _ => evolves s s').
Proof.
  intros Hwf. eapply wp_mono; [by apply Edges_add_spec | |].
  - intros s' p [Hpost _]. by eapply add_edge_post_evolves.
  - intros s' ex [(_ & _ & ->) | [(_ & _ & ->) | [(_ & _ & _ & ->) | [(_ & _ & _ & ->) | (_ & _ & _ & Hst & _)]]]];
      try (by apply evolves_refl). by apply stable_evolves.
Qed.

Lemma import_node_evolves iss s :
  Graph_wf s ->
  wp (import_node NData_init NData_extract iss) s
    (fun s' _ => evolves s s') (fun s' _ => evolves s s').
Proof.
  intros Hwf. unfold import_node. destruct (negb (good iss)); [by apply wp_ret, evolves_refl|].
  destruct (parse_id _ _) as [[id iss1]|]; [|by apply wp_throw, evolves_refl].
  destruct (getline _ _) as [data_string iss2].
  apply wp_bind. eapply wp_mono; [by apply Nodes_add_evolves | | done].
  intros s' p H. by apply wp_ret.
Qed.

Lemma import_edge_evolves iss s :
  Graph_wf s ->
  wp (import_edge EData_init EData_extract iss) s
    (fun s' _ => evolves s s') (fun s' _ => evolves s s').
Proof.
  intros Hwf. unfold import_edge. destruct (negb (good iss)); [by apply wp_ret, evolves_refl|].
  destruct (parse_id _ _) as [[source_id iss1]|]; [|by apply wp_throw, evolves_refl].
  destruct (parse_id _ _) as [[edge_id iss2]|]; [|by apply wp_throw, evolves_refl].
  destruct (getline _ _) as [data_string iss3].
  destruct (parse_id _ _) as [[target_id iss4]|]; [|by apply wp_throw, evolves_refl].
  apply wp_bind. eapply wp_mono; [by apply Edges_add_evolves | | done].
  intros s' p H. by apply wp_ret.
Qed.

Lemma import_line_evolves iss s :
  Graph_wf s ->
  wp (import_line NData_init EData_init NData_extract EData_extract iss) s
    (fun s' _ => evolves s s') (fun s' _ => evolves s s').
Proof.
  intros Hwf. unfold import_line. destruct (negb (good iss)); [by apply wp_ret, evolves_refl|].
  destruct (getline _ _) as [prefix iss1].
  destruct (String.eqb prefix "node"); [by apply import_node_evolves|].
  destruct (String.eqb prefix "edge"); [by apply import_edge_evolves|].
  by apply wp_ret, evolves_refl.
Qed.

Lemma getline_chars_Some buf delim str rest :
  getline_chars buf delim = (str, Some rest) ->
  (String.length rest < String.length buf)%nat.
Proof.
  revert str. induction buf as [|c buf IH]; intros str; simpl; [done|].
  destruct (Ascii.eqb c delim).
  - intros [= <- <-]. lia.
  - destruct (getline_chars buf delim) as [str' after] eqn:E.
    intros [= <- ->]. specialize (IH _ eq_refl). lia.
Qed.

Lemma getline_chars_None buf delim str :
  getline_chars buf delim = (str, None) -> str = buf.
Proof.
  revert str. induction buf as [|c buf IH]; intros str; simpl; [by intros [= <-]|].
  destruct (Ascii.eqb c delim); [done|].
  destruct (getline_chars buf delim) as [str' after] eqn:E.
  intros [= <- ->]. by rewrite (IH _ eq_refl).
Qed.

(** The import loop terminates within its fuel and keeps the invariant,
    whatever the text. *)
Lemma import_lines_evolves fuel stream s :
  Graph_wf s ->
  (good stream = true -> (String.length (buffer stream) <= fuel)%nat) ->
  wp (import_lines NData_init EData_init NData_extract EData_extract fuel stream) s
    (fun s' _ => evolves s s') (fun s' _ => evolves s s').
Proof.
  revert stream s. induction fuel as [|fuel IH]; intros stream s Hwf Hfuel.
  - simpl. unfold getline. destruct (good stream) eqn:Hg; [|by apply wp_ret, evolves_refl].
    specialize (Hfuel eq_refl). destruct (buffer stream); [|simpl in Hfuel; lia].
    simpl. by apply wp_ret, evolves_refl.
  - simpl. unfold getline. destruct (good stream) eqn:Hg; [|by apply wp_ret, evolves_refl].
    specialize (Hfuel eq_refl).
    destruct (getline_chars (buffer stream) "010") as [str [rest|]] eqn:E; simpl.
    + apply wp_bind. eapply wp_mono; [by apply import_line_evolves | | done].
      intros s1 [] H1. cbv beta.
      eapply wp_mono; [apply IH; [apply H1|] | |].
      * simpl. intros _. apply getline_chars_Some in E. lia.
      * intros s2 [] H2. by eapply evolves_trans.
      * intros s2 ex H2. by eapply evolves_trans.
    + destruct (String.eqb str "") eqn:Es; [by apply wp_ret, evolves_refl|].
      apply wp_bind. eapply wp_mono; [by apply import_line_evolves | | done].
      intros s1 [] H1. cbv beta.
      eapply wp_mono; [apply IH; [apply H1|] | |].
      * simpl. done.
      * intros s2 [] H2. by eapply evolves_trans.
      * intros s2 ex H2. by eapply evolves_trans.
Qed.

Lemma Graph_import_evolves text s :
  Graph_wf s ->
  wp (Graph_import NData_init EData_init NData_extract EData_extract (istringstream text)) s
    (fun s' _ => evolves s s') (fun s' _ => evolves s s').
Proof. intros Hwf. unfold Graph_import. simpl. by apply import_lines_evolves. Qed.

(** A graph is not affected by writes to blocks it does not own. *)
Lemma Graph_wf_frame own_n own_e s nh eh script :
  Graph_wf s ->
  heap_frame own_n (nheap s) nh -> heap_frame own_e (eheap s) eh ->
  (forall b, b ∈ data_ (nodes_of (g_this s)) -> b ∉ own_n) ->
  (forall b, b ∈ data_ (edges_of (g_this s)) -> b ∉ own_e) ->
  Graph_wf (mkGState script nh eh (g_this s)).
Proof.
  intros Hwf Hfn Hfe Hdn Hde.
  set (s' := mkGState script nh eh (g_this s)).
  assert (forall i, node_at s' i = node_at s i) as Hnode.
  { intros i. eapply elem_frame; [apply Hwf | exact Hfn | exact Hdn]. }
  assert (forall i, edge_at s' i = edge_at s i) as Hedge.
  { intros i. eapply elem_frame; [apply Hwf | exact Hfe | exact Hde]. }
  split.
  - eapply Array_wf_frame; [apply Hwf | exact Hfn].
  - eapply Array_wf_frame; [apply Hwf | exact Hfe].
  - intros i n. rewrite Hnode. apply Hwf.
  - intros i e. rewrite Hedge. apply Hwf.
  - intros i e. rewrite Hedge. apply (wf_endpoints _ Hwf).
  - apply Hwf.
  - intros src tgt p. change (matrix_of (g_this s')) with (matrix_of (g_this s)).
    rewrite (wf_cells _ Hwf). by setoid_rewrite Hedge.
Qed.

Lemma Graph_wf_new script nh eh undirected :
  Graph_wf (mkGState script nh eh (Graph_ctor undirected) : @GState NData EData).
Proof.
  assert (forall h : list (list (Node NData)), Array_wf h (Array_ctor DEFAULT_BLOCK_SIZE)) as H1.
  { intros h. split; simpl; [done | apply NoDup_nil_2 | by intros b ?%elem_of_nil | done]. }
  assert (forall h : list (list (Edge EData)), Array_wf h (Array_ctor DEFAULT_BLOCK_SIZE)) as H2.
  { intros h. split; simpl; [done | apply NoDup_nil_2 | by intros b ?%elem_of_nil | done]. }
  split; simpl.
  - apply H1.
  - apply H2.
  - intros i n Hn. apply elem_lt in Hn. simpl in Hn. lia.
  - intros i e He. apply elem_lt in He. simpl in He. lia.
  - intros i e He. apply elem_lt in He. simpl in He. lia.
  - split; [done|]. by intros row ?%elem_of_nil.
  - intros src tgt p. split; [done|]. intros (i & e & He & _).
    apply elem_lt in He. simpl in He. lia.
Qed.
End Evolution.

(** ** Reachable worlds *)

Section WorldInvariant.
Context {NData EData : Type}.
Variable NData_init : NData.
Variable EData_init : EData.
Variable NData_extract : string -> NData.
Variable EData_extract : string -> EData.
Implicit Types (w : @World NData EData) (g : Graph).

(** two graphs own different blocks *)
Definition separate g1 g2 : Prop :=
  (forall b, b ∈ data_ (nodes_of g1) -> b ∉ data_ (nodes_of g2)) /\
  (forall b, b ∈ data_ (edges_of g1) -> b ∉ data_ (edges_of g2)).

(** Every graph of the world is well-formed, and no two share a block. *)
Definition World_inv w : Prop :=
  (forall i g, w_graphs w !! i = Some g -> Graph_wf (enter [] w g)) /\
  (forall i j gi gj, i <> j -> w_graphs w !! i = Some gi -> w_graphs w !! j = Some gj ->
     separate gi gj).

Lemma separate_sym g1 g2 : separate g1 g2 -> separate g2 g1.
Proof. intros [H1 H2]. split; intros b Hb Hb'; [by apply (H1 b) | by apply (H2 b)]. Qed.

Lemma Graph_wf_script script w g : Graph_wf (enter [] w g) <-> Graph_wf (enter script w g).
Proof. split; intros []; by split. Qed.

Lemma World_inv_evolve script i w g s' :
  World_inv w -> w_graphs w !! i = Some g ->
  evolves (enter script w g) s' -> World_inv (leave i w s').
Proof.
  intros [Hwf Hsep] Hg (Hwf' & [Fn On] & [Fe Oe] & _).
  pose proof (proj1 (Graph_wf_script script w g) (Hwf _ _ Hg)) as Hwfg.
  simpl in Fn, On, Fe, Oe.
  assert (forall k gk, k <> i -> w_graphs w !! k = Some gk -> separate gk (g_this s')) as Hnew.
  { intros k gk Hk Hgk. destruct (Hsep k i gk g Hk Hgk Hg) as [S1 S2].
    pose proof (Hwf _ _ Hgk) as Hwfk. split.
    - intros b Hb Hb'. destruct (On b Hb') as [?|Hlen]; [by eapply S1|].
      pose proof (wf_owned_lt _ _ _ (wf_nodes _ Hwfk) Hb). simpl in *. lia.
    - intros b Hb Hb'. destruct (Oe b Hb') as [?|Hlen]; [by eapply S2|].
      pose proof (wf_owned_lt _ _ _ (wf_edges _ Hwfk) Hb). simpl in *. lia. }
  split.
  - intros k gk Hk. unfold leave in Hk. simpl in Hk.
    destruct (decide (k = i)) as [->|Hne].
    + rewrite list_lookup_insert_eq in Hk by (by eapply lookup_lt_Some).
      injection Hk as <-. destruct Hwf'. by split.
    + rewrite list_lookup_insert_ne in Hk by done.
      destruct (Hsep k i gk g Hne Hk Hg) as [S1 S2].
      apply (Graph_wf_frame (data_ (nodes_of g)) (data_ (edges_of g)) (enter [] w gk));
        [by apply (Hwf k) | exact Fn | exact Fe | exact S1 | exact S2].
  - intros k l gk gl Hkl Hk Hl. unfold leave in Hk, Hl. simpl in Hk, Hl.
    destruct (decide (k = i)) as [->|Hk'], (decide (l = i)) as [->|Hl']; [done | | |].
    + rewrite list_lookup_insert_eq in Hk by (by eapply lookup_lt_Some).
      rewrite list_lookup_insert_ne in Hl by done. injection Hk as <-.
      apply separate_sym. by eapply Hnew.
    + rewrite list_lookup_insert_eq in Hl by (by eapply lookup_lt_Some).
      rewrite list_lookup_insert_ne in Hk by done. injection Hl as <-. by eapply Hnew.
    + rewrite list_lookup_insert_ne in Hk by done.
      rewrite list_lookup_insert_ne in Hl by done. exact (Hsep k l gk gl Hkl Hk Hl).
Qed.

(** A member function that keeps its graph well-formed and the memory of
    the others untouched keeps the world in order; [P] is what is known
    when it throws. *)
Lemma on_graph_inv {A} (P : Prop) script i (m : M GState A) w :
  World_inv w ->
  (forall g, w_graphs w !! i = Some g -> Graph_wf (enter script w g) ->
     wp m (enter script w g)
       (fun s' _ => evolves (enter script w g) s')
       (fun s' _ => P -> evolves (enter script w g) s')) ->
  match on_graph script i m w with
  | Ok w' _ => World_inv w'
  | Throw w' _ => P -> World_inv w'
  | Undefined => True
  end.
Proof.
  intros Hinv Hm. unfold on_graph. destruct (w_graphs w !! i) as [g|] eqn:Hg; [|done].
  pose proof (proj1 (Graph_wf_script script w g) (proj1 Hinv _ _ Hg)) as Hwfg.
  specialize (Hm g eq_refl Hwfg). unfold wp in Hm.
  destruct (m (enter script w g)) as [s' a|s' ex|]; [| |done].
  - by eapply World_inv_evolve.
  - intros HP. eapply World_inv_evolve; [done..|]. by apply Hm.
Qed.

(** a new graph object whose blocks, if any, are new *)
Lemma World_inv_push w nh eh g :
  World_inv w ->
  Graph_wf (mkGState [] nh eh g : @GState NData EData) ->
  heap_frame [] (w_nheap w) nh -> heap_frame [] (w_eheap w) eh ->
  (forall b, b ∈ data_ (nodes_of g) -> (length (w_nheap w) <= b)%nat) ->
  (forall b, b ∈ data_ (edges_of g) -> (length (w_eheap w) <= b)%nat) ->
  World_inv (mkWorld nh eh (w_graphs w ++ [g])).
Proof.
  intros [Hwf Hsep] Hwfg Fn Fe Hn He.
  assert (forall k gk, w_graphs w !! k = Some gk -> separate gk g) as Hnew.
  { intros k gk Hgk. pose proof (Hwf _ _ Hgk) as Hwfk. split.
    - intros b Hb Hb'. pose proof (wf_owned_lt _ _ _ (wf_nodes _ Hwfk) Hb).
      specialize (Hn b Hb'). simpl in *. lia.
    - intros b Hb Hb'. pose proof (wf_owned_lt _ _ _ (wf_edges _ Hwfk) Hb).
      specialize (He b Hb'). simpl in *. lia. }
  split; simpl.
  - intros k gk Hk. apply lookup_app_Some in Hk as [Hk | [_ Hk]].
    + apply (Graph_wf_frame [] [] (enter [] w gk)); [by apply (Hwf k) | done | done | |];
        intros b _; apply not_elem_of_nil.
    + apply list_lookup_singleton_Some in Hk as [_ <-]. exact Hwfg.
  - intros k l gk gl Hkl Hk Hl.
    apply lookup_app_Some in Hk as [Hk | [Hk1 Hk]];
      apply lookup_app_Some in Hl as [Hl | [Hl1 Hl]].
    + exact (Hsep k l gk gl Hkl Hk Hl).
    + apply list_lookup_singleton_Some in Hl as [_ <-]. by eapply Hnew.
    + apply list_lookup_singleton_Some in Hk as [_ <-]. apply separate_sym. by eapply Hnew.
    + apply list_lookup_singleton_Some in Hk as [Hk _].
      apply list_lookup_singleton_Some in Hl as [Hl _]. lia.
Qed.

(** Every admissible operation that returns, and every transactional one
    that throws, keeps the world in order. *)
Lemma run_inv script op w :
  World_inv w -> admissible w op ->
  match run NData_init EData_init NData_extract EData_extract script op w with
  | Ok w' _ => World_inv w'
  | Throw w' _ => transactional op -> World_inv w'
  | Undefined => True
  end.
Proof.
  intros Hinv Hadm. destruct op as [u|g id data|g id src tgt data|g|dst src|g|dst src|g text];
    unfold run.
  - destruct w as [nh eh gs]. apply (World_inv_push (mkWorld nh eh gs)); try done.
    + apply Graph_wf_new.
    + apply heap_frame_refl.
    + apply heap_frame_refl.
    + intros b Hb. by apply not_elem_of_nil in Hb.
    + intros b Hb. by apply not_elem_of_nil in Hb.
  - apply on_graph_inv; [done|]. intros g0 _ Hwf. apply wp_bind.
    eapply wp_mono; [by apply Nodes_add_evolves | |]; [by intros; apply wp_ret | done].
  - apply on_graph_inv; [done|]. intros g0 _ Hwf. apply wp_bind.
    eapply wp_mono; [by apply Edges_add_evolves | |]; [by intros; apply wp_ret | done].
  - destruct (w_graphs w !! g) as [other|] eqn:Hg; [|done].
    pose proof (proj1 (Graph_wf_script script w other) (proj1 Hinv _ _ Hg)) as Hwf.
    assert (wp (if is_undirected other
                then UndirectedGraph_copy_ctor NData_init EData_init other
                else DirectedGraph_copy_ctor NData_init EData_init other)
              (enter script w other)
              (fun s' _ => copy_ctor_post (is_undirected other) other (enter script w other) s')
              (fun _ ex => ex = UnavailableMemoryException)) as Hspec.
    { destruct (is_undirected other) eqn:Hu.
      - by apply UndirectedGraph_copy_ctor_spec.
      - by apply DirectedGraph_copy_ctor_spec. }
    unfold wp in Hspec.
    set (ctor := if is_undirected other
                 then UndirectedGraph_copy_ctor NData_init EData_init other
                 else DirectedGraph_copy_ctor NData_init EData_init other) in *.
    destruct (ctor (enter script w other)) as [s' []|s' ex|]; [| |done].
    + destruct Hspec as (Hwf' & _ & _ & Fn & Fe & Hn & He).
      apply (World_inv_push w); try done. destruct Hwf'. by split.
    + intros [].
  - destruct Hadm as [Hne Hun].
    destruct (w_graphs w !! src) as [other|] eqn:Hsrc; [|done].
    eapply (on_graph_inv False); [done|]. intros g0 Hdst Hwf.
    rewrite Hdst in Hun. simpl in Hun. injection Hun as Hun.
    destruct (proj2 Hinv dst src g0 other Hne Hdst Hsrc) as [S1 S2].
    eapply wp_mono.
    + apply (Graph_copy_assign_spec NData_init EData_init other (enter script w g0));
        [done | | done | exact S1 | exact S2].
      apply (Graph_wf_script script w other), (proj1 Hinv _ _ Hsrc).
    + intros s' [] (Hwf' & Hu & _ & Fn & Fe). by split.
    + by intros s' ex _ [].
  - destruct (w_graphs w !! g) as [other|] eqn:Hg; [|done].
    pose proof (proj1 (Graph_wf_script script w other) (proj1 Hinv _ _ Hg)) as Hwf.
    assert (wp (if is_undirected other
                then UndirectedGraph_copy_ctor NData_init EData_init other
                else DirectedGraph_copy_ctor NData_init EData_init other)
              (enter script w other)
              (fun s' _ => copy_ctor_post (is_undirected other) other (enter script w other) s')
              (fun _ ex => ex = UnavailableMemoryException)) as Hspec.
    { destruct (is_undirected other) eqn:Hu.
      - by apply UndirectedGraph_copy_ctor_spec.
      - by apply DirectedGraph_copy_ctor_spec. }
    unfold wp in Hspec.
    set (ctor := if is_undirected other
                 then UndirectedGraph_copy_ctor NData_init EData_init other
                 else DirectedGraph_copy_ctor NData_init EData_init other) in *.
    destruct (ctor (enter script w other)) as [s' []|s' ex|]; [| |done].
    + destruct Hspec as (Hwf' & _ & _ & Fn & Fe & Hn & He).
      apply (World_inv_push w); try done. destruct Hwf'. by split.
    + intros [].
  - destruct Hadm as [Hne Hun].
    destruct (w_graphs w !! src) as [other|] eqn:Hsrc; [|done].
    eapply (on_graph_inv False); [done|]. intros g0 Hdst Hwf.
    rewrite Hdst in Hun. simpl in Hun. injection Hun as Hun.
    destruct (proj2 Hinv dst src g0 other Hne Hdst Hsrc) as [S1 S2].
    eapply wp_mono.
    + apply (Graph_copy_assign_spec NData_init EData_init other (enter script w g0));
        [done | | done | exact S1 | exact S2].
      apply (Graph_wf_script script w other), (proj1 Hinv _ _ Hsrc).
    + intros s' [] (Hwf' & Hu & _ & Fn & Fe). by split.
    + by intros s' ex _ [].
  - apply on_graph_inv; [done|]. intros g0 _ Hwf.
    eapply wp_mono;
      [by apply (Graph_import_evolves NData_init EData_init NData_extract EData_extract)
      | done | by intros s' ex Hev _].
Qed.

(** The worlds a program can reach are in order. *)
Lemma reachable_inv w :
  reachable NData_init EData_init NData_extract EData_extract w -> World_inv w.
Proof.
  induction 1 as [|w script op w' Hw IH Hadm Hrun|w script op w' ex Hw IH Htr Hrun].
  - split; intros i; intros; simpl in *; by rewrite ?lookup_nil in *.
  - pose proof (run_inv script op w IH Hadm) as Hstep. by rewrite Hrun in Hstep.
  - assert (admissible w op) as Hadm by (by destruct op).
    pose proof (run_inv script op w IH Hadm) as Hstep. rewrite Hrun in Hstep. by apply Hstep.
Qed.
End WorldInvariant.


(** * The properties of the specification *)

Section Specification.
Context {NData EData : Type}.
Variable NData_init : NData.
Variable EData_init : EData.
Implicit Types (s : @GState NData EData) (g : Graph) (i j src tgt : N).
Implicit Types (e : Edge EData).

(** C6: adding to a node store or to an edge store of current size [n] with
    an explicit id throws [InvalidIdentifierException] when the id is above
    [n] and [ConflictingItemException] when it is below [n], the state being
    exactly what it was; when the id is [n] the id is accepted: the node add
    returns with one node more or fails for lack of memory only, the edge
    add never reports an invalid id and reports a conflict only for an
    occupied cell of the adjacency matrix. *)
Theorem add_validates_the_id s id ndata edata source target :
  Graph_wf s ->
  let n := node_count (g_this s) in
  let m := edge_count (g_this s) in
  (n < id -> Nodes_add NData_init id ndata s = Throw s InvalidIdentifierException) /\
  (id < n -> Nodes_add NData_init id ndata s = Throw s ConflictingItemException) /\
  (id = n ->
     wp (Nodes_add NData_init id ndata) s
       (fun s' _ => node_count (g_this s') = n + 1)
       (fun _ ex => ex = UnavailableMemoryException)) /\
  (m < id ->
     Edges_add EData_init id source target edata s = Throw s InvalidIdentifierException) /\
  (id < m ->
     Edges_add EData_init id source target edata s = Throw s ConflictingItemException) /\
  (id = m ->
     wp (Edges_add EData_init id source target edata) s
       (fun s' _ => edge_count (g_this s') = m + 1)
       (fun _ ex =>
          ex <> InvalidIdentifierException /\
          (ex = ConflictingItemException ->
           exists q, matrix_get (matrix_of (g_this s)) source target = Some (Some q)))).
Proof.
  intros Hwf n m. subst n m. split_and!.
  - intros Hid. unfold Nodes_add, bind. rewrite Nodes_size_eq.
    by rewrite (proj2 (N.ltb_lt _ _) Hid).
  - intros Hid. unfold Nodes_add, bind. rewrite Nodes_size_eq.
    rewrite (proj2 (N.ltb_ge _ _)) by lia. by rewrite (proj2 (N.ltb_lt _ _) Hid).
  - intros ->. eapply wp_mono; [by apply Nodes_add_spec | |].
    + by intros s' p [(_ & _ & Hn & _) _].
    + intros s' ex [(Hlt & _) | [(Hlt & _) | (_ & -> & _)]]; [lia.. | done].
  - intros Hid. unfold Edges_add, bind. rewrite Edges_size_eq.
    by rewrite (proj2 (N.ltb_lt _ _) Hid).
  - intros Hid. unfold Edges_add, bind. rewrite Edges_size_eq.
    rewrite (proj2 (N.ltb_ge _ _)) by lia. by rewrite (proj2 (N.ltb_lt _ _) Hid).
  - intros ->. eapply wp_mono; [by apply Edges_add_spec | |].
    + by intros s' p [(_ & _ & _ & _ & _ & Hm & _) _].
    + intros s' ex [(Hlt & _) | [(Hlt & _) | [(_ & _ & -> & _) | [(_ & Hq & -> & _) | (_ & _ & -> & _)]]]];
        [lia.. | done | done | done].
Qed.

(** C7: the pair form of [exists] throws [NonexistingItemException] exactly
    when the source or the target is not below the number of nodes, which is
    the dimension of the adjacency matrix; for a pair in range it returns,
    leaving the state alone, [true] exactly when the cell of the pair is
    occupied, that is when an edge of the store is recorded for the pair,
    and [false] otherwise. *)
Theorem exists_pair_asymmetry s source target :
  Graph_wf s ->
  let n := node_count (g_this s) in
  N.of_nat (length (matrix_of (g_this s))) = n /\
  (Edges_exists_pair source target s = Throw s NonexistingItemException <->
   n <= source \/ n <= target) /\
  (source < n -> target < n ->
   exists b, Edges_exists_pair source target s = Ok s b /\
     (b = true <-> exists p, matrix_get (matrix_of (g_this s)) source target = Some (Some p)) /\
     (b = true <-> exists i e, edge_at s i = Some e /\ links (g_this s) e source target)).
Proof.
  intros Hwf n. pose proof (wf_square _ Hwf) as Hsq. fold n in Hsq.
  assert (N.of_nat (length (matrix_of (g_this s))) = n) as Hdim.
  { destruct Hsq as [-> _]. lia. }
  assert (source < n -> target < n ->
          exists cell, matrix_get (matrix_of (g_this s)) source target = Some cell /\
            Edges_exists_pair source target s = Ok s (bool_decide (is_Some cell))) as Hin.
  { intros Hs Ht.
    destruct (proj1 (matrix_get_lt _ _ source target Hsq)) as [cell Hcell]; [lia|].
    exists cell. split; [done|]. unfold Edges_exists_pair, bind, the_matrix, gets.
    fold (matrix_of (g_this s)). rewrite Hdim.
    rewrite (proj2 (N.leb_gt _ _) Hs), (proj2 (N.leb_gt _ _) Ht). simpl.
    by rewrite (matrix_read_eq s source target cell Hcell). }
  split; [done|]. split.
  - split.
    + intros Hthrow. destruct (decide (source < n)) as [Hs|Hs]; [|lia].
      destruct (decide (target < n)) as [Ht|Ht]; [|lia].
      destruct (Hin Hs Ht) as (cell & _ & Heq). by rewrite Heq in Hthrow.
    + intros Hout. unfold Edges_exists_pair, bind, the_matrix, gets.
      fold (matrix_of (g_this s)). rewrite Hdim.
      destruct Hout as [H | H]; rewrite (proj2 (N.leb_le _ _) H); by rewrite ?orb_true_r.
  - intros Hs Ht. destruct (Hin Hs Ht) as (cell & Hcell & Heq).
    exists (bool_decide (is_Some cell)). split; [done|].
    assert (bool_decide (is_Some cell) = true <->
            exists p, matrix_get (matrix_of (g_this s)) source target = Some (Some p)) as Hocc.
    { rewrite bool_decide_eq_true, Hcell. split.
      - intros [p ->]. by exists p.
      - intros [p [= ->]]. by exists p. }
    split; [done|]. rewrite Hocc. split.
    + intros [p Hp]. apply (wf_cells _ Hwf) in Hp as (i & e & He & _ & Hl). eauto.
    + intros (i & e & He & Hl). destruct (edge_at_Some _ _ _ He) as (_ & p & Hp & _).
      exists p. apply (wf_cells _ Hwf). eauto.
Qed.

(** C2: when [nodes().add(id, data)] with [id] the current number of nodes
    fails, the exception is [UnavailableMemoryException] and the graph is as
    before the call: it is well-formed, [nodes().size()] and [exists(i)] for
    every [i] answer as before, the nodes and the edges are the same records
    at the same addresses, and the adjacency matrix, hence its dimensions,
    is the same. *)
Theorem node_add_is_transactional s id data s' ex :
  Graph_wf s ->
  id = node_count (g_this s) ->
  Nodes_add NData_init id data s = Throw s' ex ->
  ex = UnavailableMemoryException /\
  Graph_wf s' /\
  Nodes_size s' = Ok s' (node_count (g_this s)) /\
  (forall i, Nodes_exists i s' = Ok s' (i <? node_count (g_this s))) /\
  (forall i, Nodes_exists i s = Ok s (i <? node_count (g_this s))) /\
  (forall i, node_at s' i = node_at s i) /\
  (forall i, edge_at s' i = edge_at s i) /\
  matrix_of (g_this s') = matrix_of (g_this s).
Proof.
  intros Hwf -> Hrun. pose proof (Nodes_add_spec NData_init (node_count (g_this s)) data s Hwf) as Hspec.
  unfold wp in Hspec. rewrite Hrun in Hspec.
  destruct Hspec as [(Hlt & _) | [(Hlt & _) | (_ & -> & Hst & _)]]; [lia.. |].
  destruct Hst as (Hwf' & (Hn & Hnodes & _ & _ & Hedges & _ & Hm & _) & _).
  assert (forall (t : @GState NData EData) i,
            Nodes_exists i t = Ok t (i <? node_count (g_this t))) as Hex.
  { intros t i. unfold Nodes_exists, bind. by rewrite Nodes_size_eq. }
  split_and!; try done.
  - by rewrite Nodes_size_eq, Hn.
  - intros i. by rewrite Hex, Hn.
Qed.

(** C10: in a graph where node [src] exists and the cell [(src, src)] of the
    adjacency matrix is free, adding an edge from [src] to [src] under the
    next edge id returns when memory can be had: the edge is stored with both
    ends on the node of position [src], the cell [(src, src)] and no other
    now refers to it, in a directed graph as in an undirected one, and
    [exists(src, src)] answers [true]. *)
Theorem self_loops_are_permitted s id src data :
  Graph_wf s ->
  g_script s = [] ->
  id = edge_count (g_this s) ->
  src < node_count (g_this s) ->
  matrix_get (matrix_of (g_this s)) src src = Some None ->
  exists s' p e,
    Edges_add EData_init id src src data s = Ok s' p /\
    Graph_wf s' /\
    edge_count (g_this s') = id + 1 /\
    edge_at s' id = Some e /\ ref (edges_of (g_this s')) id = Some p /\
    Edge_id_ e = id /\ Edge_data_ e = data /\
    joins (g_this s') e src src /\
    (forall a b, matrix_get (matrix_of (g_this s')) a b =
       if decide (a = src /\ b = src) then Some (Some p)
       else matrix_get (matrix_of (g_this s)) a b) /\
    Edges_exists_pair src src s' = Ok s' true.
Proof.
  intros Hwf Hscript -> Hsrc Hfree.
  pose proof (Edges_add_spec EData_init (edge_count (g_this s)) src src data s Hwf) as Hspec.
  unfold wp in Hspec.
  destruct (Edges_add EData_init (edge_count (g_this s)) src src data s) as [s' p|s' ex|];
    [| |done].
  - destruct Hspec as [(_ & _ & _ & _ & Hwf' & Hcount & He & Hp & _ & _ & Hnodes & Hun & Hcells & _) _].
    eexists s', p, _. split; [done|]. split; [done|]. split; [done|].
    split; [exact He|]. split; [done|]. split; [done|]. split; [done|].
    assert (forall a b, matrix_get (matrix_of (g_this s')) a b =
              if decide (a = src /\ b = src) then Some (Some p)
              else matrix_get (matrix_of (g_this s)) a b) as Hcells'.
    { intros a b. rewrite Hcells. unfold cell_written.
      repeat case_decide; try done; exfalso; tauto. }
    split; [|split; [exact Hcells'|]].
    + unfold joins, node_count. rewrite Hnodes. done.
    + unfold Edges_exists_pair, bind, the_matrix, gets. fold (matrix_of (g_this s')).
      pose proof (wf_square _ Hwf') as [Hlen _].
      assert (node_count (g_this s') = node_count (g_this s)) as Hn
        by (unfold node_count; by rewrite Hnodes).
      rewrite Hlen, N2Nat.id, Hn. rewrite (proj2 (N.leb_gt _ _) Hsrc). simpl.
      rewrite (matrix_read_eq s' src src (Some p)).
      * by rewrite bool_decide_eq_true_2.
      * rewrite Hcells'. by rewrite decide_True.
  - exfalso.
    destruct Hspec as [(Hlt & _) | [(Hlt & _) | [(_ & Hout & _) | [(_ & [q Hq] & _) | (_ & _ & _ & _ & Hbusy)]]]];
      [lia | lia | lia | congruence | done].
Qed.


(** The graph of [s'] is equal to the graph of [s0] in the copy-fidelity
    sense: node for node and edge for edge the same ids, payloads and
    end-point ids. *)
Definition same_graph s0 s' : Prop :=
  node_count (g_this s') = node_count (g_this s0) /\
  edge_count (g_this s') = edge_count (g_this s0) /\
  (forall i n, node_at s0 i = Some n ->
     exists n', node_at s' i = Some n' /\
       Node_id_ n' = Node_id_ n /\ Node_data_ n' = Node_data_ n) /\
  (forall j e, edge_at s0 j = Some e ->
     exists e' src tgt,
       edge_at s' j = Some e' /\
       Edge_id_ e' = Edge_id_ e /\ Edge_data_ e' = Edge_data_ e /\
       source_id_of j s0 = Ok s0 src /\ target_id_of j s0 = Ok s0 tgt /\
       source_id_of j s' = Ok s' src /\ target_id_of j s' = Ok s' tgt).


Lemma copy_of_same_graph s0 s' :
  Graph_wf s0 -> Graph_wf s' -> copy_of s0 s' -> same_graph s0 s'.
Proof.
  intros Hwf0 Hwf' (Hn & Hm & Hnodes & Hedges).
  pose proof (Graph_wf_stores _ Hwf0) as Hsw0. pose proof (Graph_wf_stores _ Hwf') as Hsw'.
  split; [done|]. split; [done|]. split.
  - intros i n Hi. exists n. by rewrite Hnodes.
  - intros j e He. destruct (Hedges j e He) as (src & tgt & Hj & He').
    exists (rebound (nodes_of (g_this s')) e src tgt), src, tgt.
    split; [done|]. split; [done|]. split; [done|].
    assert (joins (g_this s') (rebound (nodes_of (g_this s')) e src tgt) src tgt) as Hj'.
    { destruct Hj as (Hs & Ht & _). unfold joins. rewrite Hn. by split_and!. }
    destruct (joins_source_id _ _ _ _ Hsw0 Hj) as (q & n & Hq & Hl & Hid).
    destruct (joins_target_id _ _ _ _ Hsw0 Hj) as (q2 & n2 & Hq2 & Hl2 & Hid2).
    destruct (joins_source_id _ _ _ _ Hsw' Hj') as (q' & n' & Hq' & Hl' & Hid').
    destruct (joins_target_id _ _ _ _ Hsw' Hj') as (q2' & n2' & Hq2' & Hl2' & Hid2').
    split_and!.
    + rewrite <- Hid. by eapply source_id_of_eq.
    + rewrite <- Hid2. by eapply target_id_of_eq.
    + rewrite <- Hid'. by eapply source_id_of_eq.
    + rewrite <- Hid2'. by eapply target_id_of_eq.
Qed.


End Specification.

Section Container.
Context {element : Type}.
Variable value_init : element.
Variable destroy : element -> element.
Implicit Types (h : list (list element)) (a : Array) (p q : ptr) (i j : N).
Implicit Types s : @AState element.

(** The states of an array that a program reaches from a constructed one
    with [push_back] and [pop_back], whether the calls return or throw, in
    a memory and with an allocator that are arbitrary at the start.  The
    constructor takes any block size, 0 included. *)
Inductive Array_reachable : AState -> Prop :=
| reachable_ctor script h block_size :
    Array_reachable (mkAState script h (Array_ctor block_size))
| reachable_push_back s x s' :
    Array_reachable s -> Array_push_back value_init x s = Ok s' tt -> Array_reachable s'
| reachable_push_back_throws s x s' e :
    Array_reachable s -> Array_push_back value_init x s = Throw s' e -> Array_reachable s'
| reachable_pop_back s s' :
    Array_reachable s -> Array_pop_back destroy s = Ok s' tt -> Array_reachable s'
| reachable_pop_back_throws s s' e :
    Array_reachable s -> Array_pop_back destroy s = Throw s' e -> Array_reachable s'.

(** [push_back] on an array of block size 0 that has no block never returns:
    it fails to allocate, or it divides by the block size. *)
Lemma push_back_block_size_0 x script h :
  match Array_push_back value_init x (mkAState script h (Array_ctor 0)) with
  | Ok _ _ => False
  | Throw s' _ => a_this s' = Array_ctor 0
  | Undefined => True
  end.
Proof. destruct script as [|[] script]; done. Qed.

(** A reachable array of positive block size is well-formed; one of block
    size 0 is as its constructor left it, since nothing can be stored in
    it. *)
Lemma Array_reachable_inv s :
  Array_reachable s ->
  (0 < block_size_ (a_this s) /\ Array_wf (a_heap s) (a_this s)) \/
  a_this s = Array_ctor 0.
Proof.
  induction 1 as [script h B|s x s' _ IH Hrun|s x s' e _ IH Hrun|s s' _ IH Hrun
                  |s s' e _ IH Hrun].
  - destruct (decide (B = 0)) as [->|HB]; [by right|]. left. split; [simpl; lia|].
    split; simpl; [lia | apply NoDup_nil_2 | | unfold capacity; simpl; lia].
    intros b Hb. by apply not_elem_of_nil in Hb.
  - destruct IH as [[HB IH]|IH].
    + left. pose proof (Array_push_back_spec value_init x s IH) as Hspec.
      unfold wp in Hspec. rewrite Hrun in Hspec.
      destruct Hspec as (p & Hwf & Hbs & _). split; [by rewrite Hbs | done].
    + exfalso. destruct s as [script h a]. simpl in IH. subst a.
      pose proof (push_back_block_size_0 x script h) as H0. by rewrite Hrun in H0.
  - destruct IH as [[HB IH]|IH].
    + left. pose proof (Array_push_back_spec value_init x s IH) as Hspec.
      unfold wp in Hspec. rewrite Hrun in Hspec.
      destruct Hspec as (_ & -> & -> & _). done.
    + right. destruct s as [script h a]. simpl in IH. subst a.
      pose proof (push_back_block_size_0 x script h) as H0. by rewrite Hrun in H0.
  - destruct IH as [[HB IH]|IH].
    + left. pose proof (Array_pop_back_spec destroy s IH) as Hspec.
      unfold wp in Hspec. rewrite Hrun in Hspec.
      destruct Hspec as (_ & _ & Hthis & Hwf & _). split; [by rewrite Hthis | done].
    + exfalso. destruct s as [script h a]. simpl in IH. subst a. done.
  - destruct IH as [[HB IH]|IH].
    + left. pose proof (Array_pop_back_spec destroy s IH) as Hspec.
      unfold wp in Hspec. rewrite Hrun in Hspec. by destruct Hspec as (-> & _).
    + right. destruct s as [script h a]. simpl in IH. subst a.
      by injection Hrun as <- _.
Qed.

Lemma Array_reachable_wf s :
  Array_reachable s -> 0 < block_size_ (a_this s) -> Array_wf (a_heap s) (a_this s).
Proof.
  intros Hreach HB. destruct (Array_reachable_inv s Hreach) as [[_ Hwf]|Hzero]; [done|].
  rewrite Hzero in HB. simpl in HB. lia.
Qed.

(** C3, as the code has it, for an array of positive block size.
    [push_back] on an array with no free slot, whose size is then a multiple
    of the block size, asks the allocator for one block: when the allocator
    grants it, the call returns with exactly this one block more, and when
    the allocator refuses, the call throws [UnavailableMemoryException] and
    leaves the array and the memory as they were.  With a free slot, which
    is the case whenever the size is not a multiple of the block size, it
    asks for nothing, allocates nothing and always returns.  When it returns
    the new element is in the slot next to the last one, every older element
    is at the address it had and has the value it had, and no other slot of
    the memory is written. *)
Theorem push_back_allocates_when_full x s :
  Array_reachable s ->
  0 < block_size_ (a_this s) ->
  let a := a_this s in
  let h := a_heap s in
  (free_space_count_ a = 0 <->
   N.of_nat (length (data_ a)) * block_size_ a = element_count_ a) /\
  (free_space_count_ a = 0 -> element_count_ a mod block_size_ a = 0) /\
  (element_count_ a mod block_size_ a <> 0 -> free_space_count_ a <> 0) /\
  wp (Array_push_back value_init x) s
    (fun s' _ =>
       (if decide (free_space_count_ a = 0)
        then alloc_attempt (a_script s) = (true, a_script s') /\
             data_ (a_this s') = data_ a ++ [length h] /\
             length (a_heap s') = Datatypes.S (length h)
        else a_script s' = a_script s /\
             data_ (a_this s') = data_ a /\ length (a_heap s') = length h) /\
       block_size_ (a_this s') = block_size_ a /\
       element_count_ (a_this s') = element_count_ a + 1 /\
       elem (a_heap s') (a_this s') (element_count_ a) = Some x /\
       (forall i, i < element_count_ a ->
          ref (a_this s') i = ref a i /\ elem (a_heap s') (a_this s') i = elem h a i) /\
       exists p, ref (a_this s') (element_count_ a) = Some p /\
         forall q, q <> p -> (q.1 < length h)%nat -> load (a_heap s') q = load h q)
    (fun s' e =>
       e = UnavailableMemoryException /\ free_space_count_ a = 0 /\
       alloc_attempt (a_script s) = (false, a_script s') /\
       a_heap s' = h /\ a_this s' = a) /\
  (free_space_count_ a <> 0 ->
   exists s', Array_push_back value_init x s = Ok s' tt) /\
  (free_space_count_ a = 0 ->
   forall rest,
     (alloc_attempt (a_script s) = (true, rest) ->
      exists s', Array_push_back value_init x s = Ok s' tt /\ a_script s' = rest) /\
     (alloc_attempt (a_script s) = (false, rest) ->
      Array_push_back value_init x s = Throw (mkAState rest h a) UnavailableMemoryException)).
Proof.
  intros Hreach HB a h. pose proof (Array_reachable_wf s Hreach HB) as Hwf.
  pose proof (free_space_count_no_underflow _ _ Hwf) as Hle. fold a in Hle.
  assert (free_space_count_ a = 0 -> element_count_ a mod block_size_ a = 0) as Hmod.
  { intros Hfree. unfold free_space_count_ in Hfree.
    replace (element_count_ a) with (N.of_nat (length (data_ a)) * block_size_ a) by lia.
    apply N.Div0.mod_mul. }
  assert (wp (Array_push_back value_init x) s
            (fun s' _ =>
               (if decide (free_space_count_ a = 0)
                then alloc_attempt (a_script s) = (true, a_script s') /\
                     data_ (a_this s') = data_ a ++ [length h] /\
                     length (a_heap s') = Datatypes.S (length h)
                else a_script s' = a_script s /\
                     data_ (a_this s') = data_ a /\ length (a_heap s') = length h) /\
               block_size_ (a_this s') = block_size_ a /\
               element_count_ (a_this s') = element_count_ a + 1 /\
               elem (a_heap s') (a_this s') (element_count_ a) = Some x /\
               (forall i, i < element_count_ a ->
                  ref (a_this s') i = ref a i /\
                  elem (a_heap s') (a_this s') i = elem h a i) /\
               exists p, ref (a_this s') (element_count_ a) = Some p /\
                 forall q, q <> p -> (q.1 < length h)%nat -> load (a_heap s') q = load h q)
            (fun s' e =>
               e = UnavailableMemoryException /\ free_space_count_ a = 0 /\
               alloc_attempt (a_script s) = (false, a_script s') /\
               a_heap s' = h /\ a_this s' = a)) as Hwp.
  { eapply wp_mono; [by apply Array_push_back_spec | |].
    - intros s' [] Hpost. destruct (push_back_post_elem x s s' Hwf Hpost) as [Hnew Hold].
      destruct Hpost as (p & _ & Hbs & Hec & Hp & _ & Hrefs & Hother & _ & Hdata).
      split_and!; try done.
      + fold a h in Hdata. case_decide as Hfree.
        * destruct Hdata as [(Hne & _) | (_ & Hd & Hl & Hs)]; done.
        * destruct Hdata as [(_ & Hd & Hl & Hs) | (He & _)]; done.
      + intros i Hi. split; [by apply Hrefs | by apply Hold].
      + by exists p.
    - intros s' e (-> & Hh & Ha & Hfree & Hs). done. }
  split_and!; try done.
  - unfold free_space_count_. lia.
  - intros Hne Hfree. by apply Hne, Hmod.
  - intros Hfree. unfold wp in Hwp.
    destruct (Array_push_back value_init x s) as [s' []|s' e|]; [by eexists | | done].
    by destruct Hwp as (_ & Hzero & _).
  - intros Hfree rest. unfold wp in Hwp.
    destruct (Array_push_back value_init x s) as [s' []|s' e|]; [| |done].
    + destruct Hwp as [Hblocks _]. rewrite decide_True in Hblocks by done.
      destruct Hblocks as (Halloc & _). rewrite Halloc. split; [|done].
      intros [= <-]. by eexists.
    + destruct Hwp as (-> & _ & Halloc & Hh & Ha). rewrite Halloc. split; [done|].
      intros [= <-]. destruct s' as [script' h' a']. simpl in *. by subst.
Qed.
End Container.

(** * Export and import *)

(** ** Decimal numerals *)

(** the value of a numeral read from the left, continuing [acc] *)
Fixpoint uint_value (d : Decimal.uint) (acc : N) : N :=
  match d with
  | Decimal.Nil => acc
  | Decimal.D0 l => uint_value l (10 * acc + 0)
  | Decimal.D1 l => uint_value l (10 * acc + 1)
  | Decimal.D2 l => uint_value l (10 * acc + 2)
  | Decimal.D3 l => uint_value l (10 * acc + 3)
  | Decimal.D4 l => uint_value l (10 * acc + 4)
  | Decimal.D5 l => uint_value l (10 * acc + 5)
  | Decimal.D6 l => uint_value l (10 * acc + 6)
  | Decimal.D7 l => uint_value l (10 * acc + 7)
  | Decimal.D8 l => uint_value l (10 * acc + 8)
  | Decimal.D9 l => uint_value l (10 * acc + 9)
  end.

Lemma read_digits_uint d acc :
  read_digits (NilEmpty.string_of_uint d) acc
  = (uint_value d acc, String.length (NilEmpty.string_of_uint d)).
Proof.
  revert acc. induction d; intros acc; simpl; [done | by rewrite IHd..].
Qed.

Lemma of_uint_acc_value d p : N.pos (Pos.of_uint_acc d p) = uint_value d (N.pos p).
Proof.
  revert p. induction d; intros p; simpl; [done | rewrite IHd; f_equal; lia..].
Qed.

Lemma of_uint_value d : N.of_uint d = uint_value d 0.
Proof.
  unfold N.of_uint. induction d; simpl; [done | done | by rewrite of_uint_acc_value..].
Qed.

Lemma uint_value_to_uint n : uint_value (N.to_uint n) 0 = n.
Proof. rewrite <- of_uint_value. apply DecimalN.Unsigned.of_to. Qed.

Lemma to_uint_nonnil n : N.to_uint n <> Decimal.Nil.
Proof. destruct n; simpl; [done | apply Unsigned.to_uint_nonnil]. Qed.

(** the characters of a numeral are digits *)
Definition is_digit (c : ascii) : bool := bool_decide (is_Some (digit_of c)).

Fixpoint chars (s : string) : list ascii :=
  match s with
  | EmptyString => []
  | String c rest => c :: chars rest
  end.

Lemma chars_uint d : Forall (fun c => is_digit c = true) (chars (NilEmpty.string_of_uint d)).
Proof. induction d; simpl; constructor; done. Qed.

Lemma stoi_uint d :
  d <> Decimal.Nil ->
  stoi (NilEmpty.string_of_uint d)
  = if (Z.of_N (uint_value d 0) <=? INT_MAX)%Z
    then Some (Z.of_N (uint_value d 0), String.length (NilEmpty.string_of_uint d))
    else None.
Proof.
  intros Hd. unfold stoi.
  assert (skip_spaces (NilEmpty.string_of_uint d) = (NilEmpty.string_of_uint d, O)) as ->
    by (by destruct d).
  assert ((match NilEmpty.string_of_uint d with
           | String "-"%char rest => (true, rest, 1%nat)
           | String "+"%char rest => (false, rest, 1%nat)
           | _ => (false, NilEmpty.string_of_uint d, O)
           end) = (false, NilEmpty.string_of_uint d, O)) as -> by (by destruct d).
  rewrite read_digits_uint.
  destruct (String.length (NilEmpty.string_of_uint d)) as [|k] eqn:Hlen.
  { by destruct d. }
  assert ((INT_MIN <=? Z.of_N (uint_value d 0))%Z = true) as ->.
  { apply Z.leb_le. unfold INT_MIN. lia. }
  done.
Qed.

(** [std::stoi] reads back what [operator<<] writes for a [size_t], when
    the value is an [int] *)
Lemma stoi_print_size_t n :
  stoi (print_size_t n)
  = if n <=? 2147483647 then Some (Z.of_N n, String.length (print_size_t n)) else None.
Proof.
  unfold print_size_t. rewrite stoi_uint by apply to_uint_nonnil.
  rewrite uint_value_to_uint. unfold INT_MAX.
  destruct (n <=? 2147483647) eqn:E.
  - apply N.leb_le in E. by rewrite (proj2 (Z.leb_le _ _)) by lia.
  - apply N.leb_gt in E. by rewrite (proj2 (Z.leb_gt _ _)) by lia.
Qed.

(** ** Reading what was written *)

(** [c] does not occur in [s] *)
Fixpoint lacks (c : ascii) (s : string) : bool :=
  match s with
  | EmptyString => true
  | String x rest => negb (Ascii.eqb x c) && lacks c rest
  end.

Lemma lacks_app c a b : lacks c (a +:+ b) = lacks c a && lacks c b.
Proof. induction a as [|x a IH]; simpl; [done|]. by rewrite IH, andb_assoc. Qed.

Lemma lacks_uint c d : is_digit c = false -> lacks c (NilEmpty.string_of_uint d) = true.
Proof.
  intros Hc. induction d; [done|..]; cbn [lacks NilEmpty.string_of_uint];
    rewrite IHd, andb_true_r; apply negb_true_iff, Ascii.eqb_neq; intros <-; done.
Qed.

Lemma lacks_print_size_t c n : is_digit c = false -> lacks c (print_size_t n) = true.
Proof. apply lacks_uint. Qed.

Lemma getline_chars_app a c rest :
  lacks c a = true -> getline_chars (a +:+ String c rest) c = (a, Some rest).
Proof.
  induction a as [|x a IH]; simpl.
  - by rewrite Ascii.eqb_refl.
  - intros [Hx Ha]%andb_true_iff. apply negb_true_iff in Hx. rewrite Hx. by rewrite IH.
Qed.

Lemma getline_chars_lacks a c : lacks c a = true -> getline_chars a c = (a, None).
Proof.
  induction a as [|x a IH]; simpl; [done|].
  intros [Hx Ha]%andb_true_iff. apply negb_true_iff in Hx. rewrite Hx. by rewrite IH.
Qed.

Lemma getline_app a c rest :
  lacks c a = true ->
  getline (mkIstream (a +:+ String c rest) false false) c = (a, mkIstream rest false false).
Proof. intros Ha. unfold getline. simpl. by rewrite getline_chars_app. Qed.

Lemma size_t_of_int_of_N n : n < 2 ^ 64 -> size_t_of_int (Z.of_N n) = n.
Proof.
  intros Hn. unfold size_t_of_int. rewrite Z.mod_small; [apply N2Z.id|].
  split; [lia|]. change (2 ^ 64)%Z with (Z.of_N (2 ^ 64)). lia.
Qed.

(** [parse_id] on a written id, followed by the delimiter *)
Lemma parse_id_print n delim rest :
  is_digit delim = false ->
  parse_id (mkIstream (print_size_t n +:+ String delim rest) false false) delim
  = if n <=? 2147483647 then Some (n, mkIstream rest false false) else None.
Proof.
  intros Hd. unfold parse_id. rewrite getline_app by (by apply lacks_print_size_t).
  rewrite stoi_print_size_t. destruct (n <=? 2147483647) eqn:E; [|done].
  rewrite Nat.eqb_refl. apply N.leb_le in E. rewrite size_t_of_int_of_N; [done|].
  eapply N.le_lt_trans; [exact E | done].
Qed.

Lemma istream_get_cons c rest :
  istream_get (mkIstream (String c rest) false false) = mkIstream rest false false.
Proof. done. Qed.

(** appending to a string that starts with a known character *)
Ltac string_cons :=
  repeat first
    [ progress change (String ?c ?a +:+ ?b) with (String c (a +:+ b))
    | progress change (EmptyString +:+ ?b) with b ].

Section Lines.
Context {NData EData : Type}.
Variable NData_init : NData.
Variable EData_init : EData.
Variable NData_extract : string -> NData.
Variable EData_extract : string -> EData.

(** the lines of the export, without the end of line *)
Definition node_line (id : N) (text : string) : string :=
  "node (" +:+ print_size_t id +:+ " {" +:+ text +:+ "})".

Definition edge_line (source id : N) (text : string) (target : N) : string :=
  "edge (" +:+ print_size_t source +:+ ")-[" +:+ print_size_t id +:+ " {" +:+ text
  +:+ "}]->(" +:+ print_size_t target +:+ ")".

Lemma import_line_node id text (s : @GState NData EData) :
  id <= 2147483647 -> lacks "}" text = true ->
  import_line NData_init EData_init NData_extract EData_extract
    (istringstream (node_line id text)) s
  = (Nodes_add NData_init id (NData_extract text) ;;; ret tt) s.
Proof.
  intros Hid Htext. unfold import_line, node_line, istringstream. string_cons.
  change (String "n" (String "o" (String "d" (String "e" (String " " ?x)))))
    with ("node" +:+ String " " x).
  rewrite (getline_app "node" " ") by done. cbn [good eofbit failbit negb andb].
  change (String.eqb "node" "node") with true. cbv iota.
  unfold import_node. cbn [good eofbit failbit negb andb].
  rewrite istream_get_cons, parse_id_print by done.
  rewrite (proj2 (N.leb_le _ _) Hid). rewrite istream_get_cons.
  by rewrite getline_app.
Qed.

Lemma import_line_edge source id text target (s : @GState NData EData) :
  source <= 2147483647 -> lacks "}" text = true ->
  import_line NData_init EData_init NData_extract EData_extract
    (istringstream (edge_line source id text target)) s
  = if (id <=? 2147483647) && (target <=? 2147483647)
    then (Edges_add EData_init id source target (EData_extract text) ;;; ret tt) s
    else Throw s ParsingException.
Proof.
  intros Hsource Htext. unfold import_line, edge_line, istringstream. string_cons.
  change (String "e" (String "d" (String "g" (String "e" (String " " ?x)))))
    with ("edge" +:+ String " " x).
  rewrite (getline_app "edge" " ") by done. cbn [good eofbit failbit negb andb].
  change (String.eqb "edge" "node") with false.
  change (String.eqb "edge" "edge") with true. cbv iota.
  unfold import_edge. cbn [good eofbit failbit negb andb].
  rewrite istream_get_cons, parse_id_print by done.
  rewrite (proj2 (N.leb_le _ _) Hsource). rewrite !istream_get_cons.
  rewrite parse_id_print by done.
  destruct (id <=? 2147483647); [|done]. rewrite istream_get_cons.
  rewrite getline_app by done. rewrite !istream_get_cons.
  rewrite parse_id_print by done.
  by destruct (target <=? 2147483647).
Qed.

(** an edge id that is not an [int] stops the import *)
Lemma import_line_edge_large source id text target (s : @GState NData EData) :
  source <= 2147483647 -> 2147483647 < id -> lacks "}" text = true ->
  import_line NData_init EData_init NData_extract EData_extract
    (istringstream (edge_line source id text target)) s
  = Throw s ParsingException.
Proof.
  intros Hsource Hid Htext. rewrite import_line_edge by done.
  by rewrite (proj2 (N.leb_gt _ _) Hid).
Qed.
End Lines.

Section RoundTrip.
Local Unset Default Proof Using.
Context {NData EData : Type}.
Variable NData_init : NData.
Variable EData_init : EData.
Variable NData_print : NData -> string.
Variable EData_print : EData -> string.
Variable NData_extract : string -> NData.
Variable EData_extract : string -> EData.
Implicit Types (s t : @GState NData EData) (i j src tgt : N) (e : Edge EData).

(** [count] lines, each with its end of line, from the one of index [from] *)
Fixpoint lines_from (count : nat) (from : N) (line : N -> string) : string :=
  match count with
  | O => EmptyString
  | S count' => line from +:+ endl +:+ lines_from count' (from + 1) line
  end.

(** the import of these lines, one after the other *)
Fixpoint import_from (count : nat) (from : N) (line : N -> string)
  : M (@GState NData EData) unit :=
  match count with
  | O => ret tt
  | S count' =>
      import_line NData_init EData_init NData_extract EData_extract
        (istringstream (line from)) ;;;
      import_from count' (from + 1) line
  end.

Lemma bind_assoc {S A B C} (m : M S A) (k : A -> M S B) (k' : B -> M S C) (s : S) :
  bind (bind m k) k' s = bind m (fun a => bind (k a) k') s.
Proof. unfold bind. by destruct (m s). Qed.

Lemma bind_ext {S A B} (m : M S A) (k k' : A -> M S B) (x : S) :
  (forall (y : S) a, k a y = k' a y) -> bind m k x = bind m k' x.
Proof. intros H. unfold bind. by destruct (m x). Qed.

Lemma append_assoc (a b c : string) : (a +:+ b) +:+ c = a +:+ (b +:+ c).
Proof.
  induction a as [|x a IH]; [done|].
  change (String x ((a +:+ b) +:+ c) = String x (a +:+ (b +:+ c))). by rewrite IH.
Qed.

Lemma length_append (a b : string) :
  String.length (a +:+ b) = (String.length a + String.length b)%nat.
Proof.
  induction a as [|x a IH]; [done|].
  change (Datatypes.S (String.length (a +:+ b))
          = Datatypes.S (String.length a + String.length b)).
  by rewrite IH.
Qed.

Lemma length_lines_from count from line rest :
  (count + String.length rest <= String.length (lines_from count from line +:+ rest))%nat.
Proof.
  revert from. induction count as [|count IH]; intros from; [done|].
  cbn [lines_from]. rewrite !append_assoc.
  rewrite (length_append (line from)), (length_append endl).
  change (String.length endl) with 1%nat. specialize (IH (from + 1)). lia.
Qed.

Lemma import_lines_empty fuel s :
  import_lines NData_init EData_init NData_extract EData_extract fuel
    (mkIstream EmptyString false false) s = Ok s tt.
Proof. by destruct fuel. Qed.

(** The loop of the import on lines that were written one by one. *)
Lemma import_lines_from count from line fuel rest s :
  (forall i, lacks "010" (line i) = true) ->
  (count <= fuel)%nat ->
  import_lines NData_init EData_init NData_extract EData_extract fuel
    (mkIstream (lines_from count from line +:+ rest) false false) s
  = (import_from count from line ;;;
     import_lines NData_init EData_init NData_extract EData_extract (fuel - count)
       (mkIstream rest false false)) s.
Proof.
  intros Hline. revert from fuel s. induction count as [|count IH]; intros from fuel s Hfuel.
  - simpl. by rewrite Nat.sub_0_r.
  - destruct fuel as [|fuel]; [lia|].
    cbn [lines_from import_from]. rewrite !append_assoc.
    change (endl +:+ ?x) with (String "010" x).
    cbn [import_lines]. rewrite getline_app by apply Hline. cbn [failbit].
    rewrite bind_assoc. unfold bind at 1 2.
    destruct (import_line _ _ _ _ _ s) as [s1 []|s1 ex|]; [|done..].
    rewrite IH by lia. done.
Qed.

(** *** What the export writes *)

Lemma print_from_lines count from item line s :
  (forall i, from <= i < from + N.of_nat count -> item i s = Ok s (line i +:+ endl)) ->
  print_from count from item s = Ok s (lines_from count from line).
Proof.
  revert from. induction count as [|count IH]; intros from Hitem; [done|].
  cbn [print_from lines_from]. unfold bind.
  rewrite Hitem by lia. rewrite IH by (intros i Hi; apply Hitem; lia).
  unfold ret. by rewrite append_assoc.
Qed.

(** the text of the payload of the node of position [i], and its line *)
Definition node_text s i : string :=
  match node_at s i with
  | Some n => NData_print (Node_data_ n)
  | None => EmptyString
  end.

Definition nodes_line s i : string := node_line i (node_text s i).

(** the id of the node an end of an edge points to *)
Definition end_id s (p : option ptr) : N :=
  match p ≫= load (nheap s) with
  | Some n => Node_id_ n
  | None => 0
  end.

Definition edges_line s j : string :=
  match edge_at s j with
  | Some e =>
      edge_line (end_id s (Edge_source_ e)) (Edge_id_ e) (EData_print (Edge_data_ e))
        (end_id s (Edge_target_ e))
  | None => EmptyString
  end.

Lemma on_nodes_read_eq s p n :
  load (nheap s) p = Some n -> on_nodes (read p) s = Ok s n.
Proof.
  intros H. unfold on_nodes, zoom, read. simpl. rewrite H. simpl. by rewrite nodes_update_id.
Qed.

Lemma Node_print_line (n : Node NData) :
  Node_print NData_print n = node_line (Node_id_ n) (NData_print (Node_data_ n)) +:+ endl.
Proof. unfold Node_print, node_line. by rewrite !append_assoc. Qed.

Lemma Nodes_print_eq s :
  Graph_wf s ->
  Nodes_print NData_print s
  = Ok s (lines_from (N.to_nat (node_count (g_this s))) 0 (nodes_line s)).
Proof.
  intros Hwf. unfold Nodes_print, bind. rewrite Nodes_size_eq.
  apply print_from_lines. intros i Hi.
  destruct (elem_is_Some _ _ i (wf_nodes _ Hwf)) as [n Hn]; [unfold node_count in Hi; lia|].
  fold (node_at s i) in Hn. pose proof (wf_node_ids _ Hwf _ _ Hn) as Hid.
  destruct (node_at_Some _ _ _ Hn) as (Hlt & p & Hp & Hl).
  rewrite (on_nodes_get_eq s i p Hlt Hp), (on_nodes_read_eq s p n Hl).
  unfold ret. rewrite Node_print_line, Hid. unfold nodes_line, node_text. by rewrite Hn.
Qed.

Lemma Edges_print_eq s :
  Graph_wf s ->
  Edges_print EData_print s
  = Ok s (lines_from (N.to_nat (edge_count (g_this s))) 0 (edges_line s)).
Proof.
  intros Hwf. unfold Edges_print, bind. rewrite Edges_size_eq.
  apply print_from_lines. intros j Hj.
  destruct (elem_is_Some _ _ j (wf_edges _ Hwf)) as [e He]; [unfold edge_count in Hj; lia|].
  fold (edge_at s j) in He. rewrite (edges_subscript_eq s j e He).
  destruct (wf_endpoints _ Hwf _ _ He) as (src & tgt & Hjoins).
  destruct (joins_source_id _ _ _ _ (Graph_wf_stores _ Hwf) Hjoins) as (q & n & Hq & Hl & _).
  destruct (joins_target_id _ _ _ _ (Graph_wf_stores _ Hwf) Hjoins) as (q' & n' & Hq' & Hl' & _).
  unfold Edge_print, bind. rewrite Hq, Hq'.
  rewrite (deref_node_eq s q n Hl), (deref_node_eq s q' n' Hl').
  unfold ret, edges_line, edge_line, end_id. rewrite He, Hq, Hq'. simpl. rewrite Hl, Hl'.
  by rewrite !append_assoc.
Qed.

Lemma Graph_print_eq s :
  Graph_wf s ->
  Graph_print NData_print EData_print s
  = Ok s (lines_from (N.to_nat (node_count (g_this s))) 0 (nodes_line s)
          +:+ lines_from (N.to_nat (edge_count (g_this s))) 0 (edges_line s)).
Proof.
  intros Hwf. unfold Graph_print, bind. by rewrite Nodes_print_eq, Edges_print_eq.
Qed.

(** *** What the import rebuilds *)

(** a payload survives the trip through its text, which has no closing
    brace and no end of line *)
Definition NData_safe (d : NData) : Prop :=
  NData_extract (NData_print d) = d /\
  lacks "}" (NData_print d) = true /\ lacks "010" (NData_print d) = true.

Definition EData_safe (d : EData) : Prop :=
  EData_extract (EData_print d) = d /\
  lacks "}" (EData_print d) = true /\ lacks "010" (EData_print d) = true.

(** the payloads of the graph are round-trip-safe *)
Definition safe_payloads s : Prop :=
  (forall i n, node_at s i = Some n -> NData_safe (Node_data_ n)) /\
  (forall j e, edge_at s j = Some e -> EData_safe (Edge_data_ e)).

Lemma lacks_node_line c id text :
  is_digit c = false -> lacks c "node ( {})" = true -> lacks c text = true ->
  lacks c (node_line id text) = true.
Proof.
  intros Hc Hlit Htext. unfold node_line. rewrite !lacks_app, Htext, lacks_print_size_t by done.
  revert Hlit. cbn [lacks]. rewrite !andb_true_r, !andb_true_iff. tauto.
Qed.

Lemma lacks_edge_line c source id text target :
  is_digit c = false -> lacks c "edge ()-[ {}]->()" = true -> lacks c text = true ->
  lacks c (edge_line source id text target) = true.
Proof.
  intros Hc Hlit Htext. unfold edge_line.
  rewrite !lacks_app, Htext, !lacks_print_size_t by done.
  revert Hlit. cbn [lacks]. rewrite !andb_true_r, !andb_true_iff. tauto.
Qed.

Lemma nodes_line_one_line s i : safe_payloads s -> lacks "010" (nodes_line s i) = true.
Proof.
  intros [Hsafe _]. apply lacks_node_line; [done..|]. unfold node_text.
  destruct (node_at s i) as [n|] eqn:Hn; [by apply (Hsafe i n Hn) | done].
Qed.

Lemma edges_line_one_line s j : safe_payloads s -> lacks "010" (edges_line s j) = true.
Proof.
  intros [_ Hsafe]. unfold edges_line. destruct (edge_at s j) as [e|] eqn:He; [|done].
  apply lacks_edge_line; [done..|]. by apply (Hsafe j e He).
Qed.

(** [t] holds the first [k] nodes and the first [j] edges of [s] *)
Definition imported (k j : N) s t : Prop :=
  Graph_wf t /\ g_script t = [] /\
  is_undirected (g_this t) = is_undirected (g_this s) /\
  node_count (g_this t) = k /\ edge_count (g_this t) = j /\
  (forall i, i < k -> node_at t i = node_at s i) /\
  (forall i e, i < j -> edge_at s i = Some e ->
     exists src tgt, joins (g_this s) e src tgt /\
       edge_at t i = Some (rebound (nodes_of (g_this t)) e src tgt)).

Lemma import_node_step s t k :
  Graph_wf s -> safe_payloads s -> k < node_count (g_this s) -> k <= 2147483647 ->
  imported k 0 s t ->
  wp (import_line NData_init EData_init NData_extract EData_extract
        (istringstream (nodes_line s k))) t
    (fun t' _ => imported (k + 1) 0 s t') (fun _ _ => False).
Proof.
  intros Hwf [Hsafe _] Hk Hint (Hwft & Hscript & Hun & Hn & Hm & Hnodes & Hedges).
  destruct (elem_is_Some _ _ k (wf_nodes _ Hwf) Hk) as [n Hnode].
  fold (node_at s k) in Hnode. pose proof (wf_node_ids _ Hwf _ _ Hnode) as Hid.
  destruct (Hsafe k n Hnode) as (Hback & Hbrace & _).
  unfold wp, nodes_line, node_text. rewrite Hnode.
  rewrite import_line_node by done. rewrite Hback.
  pose proof (Nodes_add_spec NData_init k (Node_data_ n) t Hwft) as Hspec.
  unfold wp in Hspec. unfold bind.
  destruct (Nodes_add NData_init k (Node_data_ n) t) as [t' p|t' ex|]; [| |done].
  - destruct Hspec as [(_ & Hwf' & Hn' & Hnew & _ & Hold & _ & Hedges' & Hun' & _) Hquiet].
    unfold ret. split_and!; try done.
    + by apply Hquiet.
    + congruence.
    + unfold edge_count. by rewrite Hedges'.
    + intros i Hi. destruct (decide (i = k)) as [->|Hne].
      * rewrite Hnew, Hnode. destruct n as [id d]. simpl in *. by subst.
      * rewrite <- Hnodes by lia. apply Hold. lia.
    + intros i e Hi. lia.
  - destruct Hspec as [(Hlt & _) | [(Hlt & _) | (_ & _ & _ & Hbusy)]]; [lia | lia | done].
Qed.

Lemma import_nodes s t count from :
  Graph_wf s -> safe_payloads s ->
  from + N.of_nat count <= node_count (g_this s) ->
  node_count (g_this s) <= 2147483648 ->
  imported from 0 s t ->
  wp (import_from count from (nodes_line s)) t
    (fun t' _ => imported (from + N.of_nat count) 0 s t') (fun _ _ => False).
Proof.
  intros Hwf Hsafe. revert from t.
  induction count as [|count IH]; intros from t Hle Hint Himp.
  - apply wp_ret. by rewrite N.add_0_r.
  - cbn [import_from]. apply wp_bind.
    eapply wp_mono; [apply import_node_step; [done | done | lia | lia | done] | | done].
    intros t1 [] H1. cbv beta.
    replace (from + N.of_nat (Datatypes.S count)) with (from + 1 + N.of_nat count) by lia.
    apply IH; [lia | done | done].
Qed.

Lemma joins_end_ids s e src tgt :
  Graph_wf s -> joins (g_this s) e src tgt ->
  end_id s (Edge_source_ e) = src /\ end_id s (Edge_target_ e) = tgt.
Proof.
  intros Hwf Hjoins.
  destruct (joins_source_id _ _ _ _ (Graph_wf_stores _ Hwf) Hjoins) as (q & n & Hq & Hl & Hid).
  destruct (joins_target_id _ _ _ _ (Graph_wf_stores _ Hwf) Hjoins) as (q' & n' & Hq' & Hl' & Hid').
  unfold end_id. rewrite Hq, Hq'. simpl. by rewrite Hl, Hl'.
Qed.

Lemma joins_rebound s t e src tgt :
  node_count (g_this t) = node_count (g_this s) ->
  joins (g_this s) e src tgt ->
  joins (g_this t) (rebound (nodes_of (g_this t)) e src tgt) src tgt.
Proof. intros Hn (Hs & Ht & _). unfold joins. rewrite Hn. by split_and!. Qed.

Lemma import_edge_step s t j :
  Graph_wf s -> safe_payloads s -> j < edge_count (g_this s) -> j <= 2147483647 ->
  node_count (g_this s) <= 2147483648 ->
  imported (node_count (g_this s)) j s t ->
  wp (import_line NData_init EData_init NData_extract EData_extract
        (istringstream (edges_line s j))) t
    (fun t' _ => imported (node_count (g_this s)) (j + 1) s t') (fun _ _ => False).
Proof.
  intros Hwf [_ Hsafe] Hj Hint Hnodes_int (Hwft & Hscript & Hun & Hn & Hm & Hnodes & Hedges).
  destruct (elem_is_Some _ _ j (wf_edges _ Hwf) Hj) as [e He].
  fold (edge_at s j) in He. pose proof (wf_edge_ids _ Hwf _ _ He) as Hid.
  destruct (wf_endpoints _ Hwf _ _ He) as (src & tgt & Hjoins).
  destruct (joins_end_ids s e src tgt Hwf Hjoins) as [Hsrc Htgt].
  pose proof Hjoins as (Hs & Ht & _).
  destruct (Hsafe j e He) as (Hback & Hbrace & _).
  unfold wp, edges_line. rewrite He, Hsrc, Htgt, Hid.
  rewrite import_line_edge by (done || lia).
  rewrite (proj2 (N.leb_le j _) Hint), (proj2 (N.leb_le tgt _)) by lia.
  cbn [andb]. rewrite Hback.
  pose proof (Edges_add_spec EData_init j src tgt (Edge_data_ e) t Hwft) as Hspec.
  unfold wp in Hspec. unfold bind.
  destruct (Edges_add EData_init j src tgt (Edge_data_ e) t) as [t' p|t' ex|]; [| |done].
  - destruct Hspec as [(_ & _ & _ & _ & Hwf' & Hm' & Hnew & _ & Hold & Hheap & Hnodes' & Hun' & _) Hquiet].
    unfold ret. split_and!; try done.
    + by apply Hquiet.
    + congruence.
    + unfold node_count. rewrite Hnodes'. exact Hn.
    + intros i Hi. rewrite <- Hnodes by done. unfold node_at. by rewrite Hheap, Hnodes'.
    + intros i e' Hi He'. destruct (decide (i = j)) as [->|Hne].
      * rewrite He in He'. injection He' as <-. exists src, tgt. split; [done|].
        rewrite Hnew, Hnodes'. unfold rebound. by rewrite Hid.
      * destruct (Hedges i e' ltac:(lia) He') as (src' & tgt' & Hj' & Ht').
        exists src', tgt'. split; [done|]. rewrite Hnodes'. rewrite <- Ht'. apply Hold. lia.
  - exfalso.
    destruct Hspec as [(Hlt & _) | [(Hlt & _) | [(_ & Hout & _) | [(_ & [q Hq] & _) | (_ & _ & _ & _ & Hbusy)]]]];
      [lia | lia | lia | | done].
    apply (wf_cells _ Hwft) in Hq as (i & e' & He' & _ & Hlinks).
    pose proof (elem_lt _ _ _ _ He') as Hi. fold (edge_count (g_this t)) in Hi.
    destruct (elem_is_Some _ _ i (wf_edges _ Hwf)) as [e0 He0]; [unfold edge_count in *; lia|].
    fold (edge_at s i) in He0.
    destruct (Hedges i e0 ltac:(lia) He0) as (src0 & tgt0 & Hj0 & Ht0).
    rewrite Ht0 in He'. injection He' as <-.
    pose proof (joins_rebound s t e0 src0 tgt0 Hn Hj0) as Hjt.
    assert (links (g_this s) e0 src tgt) as Hl0.
    { destruct Hlinks as [Hl | [Hu Hl]].
      - destruct (joins_inj t _ _ _ _ _ (wf_nodes _ Hwft) Hjt Hl) as [-> ->]. by left.
      - destruct (joins_inj t _ _ _ _ _ (wf_nodes _ Hwft) Hjt Hl) as [-> ->].
        right. split; [congruence | done]. }
    assert (i = j) as ->; [|lia].
    apply (Graph_wf_unique s Hwf i j e0 e src tgt He0 He Hl0). by left.
Qed.

Lemma import_edges s t count from :
  Graph_wf s -> safe_payloads s ->
  from + N.of_nat count <= edge_count (g_this s) ->
  edge_count (g_this s) <= 2147483648 ->
  node_count (g_this s) <= 2147483648 ->
  imported (node_count (g_this s)) from s t ->
  wp (import_from count from (edges_line s)) t
    (fun t' _ => imported (node_count (g_this s)) (from + N.of_nat count) s t')
    (fun _ _ => False).
Proof.
  intros Hwf Hsafe. revert from t.
  induction count as [|count IH]; intros from t Hle Hint Hnint Himp.
  - apply wp_ret. by rewrite N.add_0_r.
  - cbn [import_from]. apply wp_bind.
    eapply wp_mono; [apply import_edge_step; [done | done | lia | lia | done | done] | | done].
    intros t1 [] H1. cbv beta.
    replace (from + N.of_nat (Datatypes.S count)) with (from + 1 + N.of_nat count) by lia.
    apply IH; [lia | done | done | done].
Qed.

Lemma append_empty (a : string) : a +:+ EmptyString = a.
Proof.
  induction a as [|x a IH]; [done|].
  change (String x (a +:+ EmptyString) = String x a). by rewrite IH.
Qed.

Lemma imported_copy_of s t :
  imported (node_count (g_this s)) (edge_count (g_this s)) s t -> copy_of s t.
Proof.
  intros (Hwft & _ & _ & Hn & Hm & Hnodes & Hedges). split; [done|]. split; [done|]. split.
  - intros i. destruct (decide (i < node_count (g_this s))) as [Hi|Hi]; [by apply Hnodes|].
    unfold node_count in Hi, Hn. unfold node_at. rewrite !elem_ge; [done | lia..].
  - intros i e He. apply Hedges; [|done]. apply elem_lt in He. exact He.
Qed.

(** The round trip, for graphs whose ids are in the range of [int]:
    the export of a well-formed graph with round-trip-safe payloads, at most
    2147483648 nodes and at most 2147483648 edges, imported into a new graph
    of the same orientation with an allocator that never fails, gives an
    equal graph. *)
Lemma export_import_round_trip s nh eh :
  Graph_wf s -> safe_payloads s ->
  node_count (g_this s) <= 2147483648 ->
  edge_count (g_this s) <= 2147483648 ->
  exists text t,
    Graph_print NData_print EData_print s = Ok s text /\
    Graph_import NData_init EData_init NData_extract EData_extract (istringstream text)
      (mkGState [] nh eh (Graph_ctor (is_undirected (g_this s)))) = Ok t tt /\
    Graph_wf t /\ same_graph s t.
Proof.
  intros Hwf Hsafe Hnint Hmint.
  set (n := node_count (g_this s)) in *. set (m := edge_count (g_this s)) in *.
  set (t0 := mkGState [] nh eh (Graph_ctor (is_undirected (g_this s))) : @GState NData EData).
  set (text := lines_from (N.to_nat n) 0 (nodes_line s)
               +:+ lines_from (N.to_nat m) 0 (edges_line s)).
  assert (imported 0 0 s t0) as H0.
  { split; [apply Graph_wf_new|]. split_and!; try done; intros; lia. }
  assert (wp (import_from (N.to_nat n) 0 (nodes_line s) ;;;
              import_from (N.to_nat m) 0 (edges_line s)) t0
            (fun t _ => imported n m s t) (fun _ _ => False)) as Hrun.
  { apply wp_bind.
    eapply wp_mono; [apply import_nodes; [done | done | fold n; lia | done | done] | | done].
    intros t1 [] H1. cbv beta. rewrite N.add_0_l, N2Nat.id in H1.
    eapply wp_mono;
      [apply import_edges; [done | done | fold m; lia | done | done | done] | | done].
    intros t2 [] H2. cbv beta in H2. by rewrite N.add_0_l, N2Nat.id in H2. }
  assert (Graph_import NData_init EData_init NData_extract EData_extract
            (istringstream text) t0
          = (import_from (N.to_nat n) 0 (nodes_line s) ;;;
             import_from (N.to_nat m) 0 (edges_line s) ;;; ret tt) t0) as Himport.
  { unfold Graph_import, istringstream. cbn [good eofbit failbit negb andb buffer].
    pose proof (length_lines_from (N.to_nat n) 0 (nodes_line s)
                  (lines_from (N.to_nat m) 0 (edges_line s))) as Hlen1.
    pose proof (length_lines_from (N.to_nat m) 0 (edges_line s) EmptyString) as Hlen2.
    rewrite append_empty in Hlen2. fold text in Hlen1.
    unfold text at 2.
    rewrite import_lines_from by (intros; by apply nodes_line_one_line || lia).
    apply bind_ext. intros t1 [].
    rewrite <- (append_empty (lines_from (N.to_nat m) 0 (edges_line s))).
    rewrite import_lines_from by (intros; by apply edges_line_one_line || lia).
    apply bind_ext. intros t2 []. apply import_lines_empty. }
  exists text. unfold wp in Hrun. rewrite Himport. rewrite <- bind_assoc. unfold bind at 1.
  destruct ((import_from (N.to_nat n) 0 (nodes_line s) ;;;
             import_from (N.to_nat m) 0 (edges_line s)) t0) as [t []| |] eqn:E; [|done..].
  exists t. split; [by apply Graph_print_eq|]. split; [done|].
  pose proof Hrun as (Hwft & _). split; [done|].
  apply copy_of_same_graph; [done | done |]. by apply imported_copy_of.
Qed.
End RoundTrip.

(** * Programs over graphs of strings *)

Local Open Scope string_scope.

(** [std::istringstream(text) >> data] for a [std::string]: the first word
    of the text *)
Fixpoint first_word (s : string) : string :=
  match s with
  | String c rest => if isspace c then EmptyString else String c (first_word rest)
  | EmptyString => EmptyString
  end.

Definition string_extract (text : string) : string := first_word (skip_spaces text).1.

#[global] Instance admissible_dec {NData EData} (w : @World NData EData) op :
  Decision (admissible w op).
Proof. destruct op; simpl; apply _. Defined.

(** a straight-line program, run with an allocator that never fails *)
Fixpoint run_all (ops : list (@operation string string)) (w : @World string string)
  : option (@World string string) :=
  match ops with
  | [] => Some w
  | op :: rest =>
      if decide (admissible w op) then
        match run "" "" string_extract string_extract [] op w with
        | Ok w' _ => run_all rest w'
        | _ => None
        end
      else None
  end.

Lemma run_all_reachable ops w w' :
  reachable "" "" string_extract string_extract w ->
  run_all ops w = Some w' ->
  reachable "" "" string_extract string_extract w'.
Proof.
  revert w. induction ops as [|op ops IH]; intros w Hw Hrun; simpl in Hrun.
  - by injection Hrun as <-.
  - destruct (decide (admissible w op)) as [Hadm|]; [|done].
    destruct (run "" "" string_extract string_extract [] op w) as [w1 []| |] eqn:Hstep;
      [|done..].
    apply (IH w1); [|done]. by eapply reachable_ok.
Qed.

(** three nodes and the edges 0 -> 1 and 1 -> 2 *)
Definition small_graph (undirected : bool) : list (@operation string string) :=
  [op_new undirected;
   op_add_node 0 0 "a"; op_add_node 0 1 "b"; op_add_node 0 2 "c";
   op_add_edge 0 0 0 1 "x"; op_add_edge 0 1 1 2 "y"].

Definition world_of (ops : list (@operation string string)) : @World string string :=
  default (mkWorld [] [] []) (run_all ops (mkWorld [] [] [])).

Definition graph_of (w : @World string string) (i : nat) : @GState string string :=
  enter [] w (default (Graph_ctor false) (w_graphs w !! i)).

Definition directed_example : @GState string string :=
  Eval vm_compute in graph_of (world_of (small_graph false)) 0.


Lemma world_of_reachable ops :
  is_Some (run_all ops (mkWorld [] [] [])) ->
  reachable "" "" string_extract string_extract (world_of ops).
Proof.
  intros [w Hw]. unfold world_of. rewrite Hw. simpl.
  eapply run_all_reachable; [apply reachable_init | exact Hw].
Qed.

Lemma graph_of_wf ops i :
  is_Some (run_all ops (mkWorld [] [] [])) ->
  is_Some (w_graphs (world_of ops) !! i) ->
  Graph_wf (graph_of (world_of ops) i).
Proof.
  intros Hrun [g Hg]. unfold graph_of. rewrite Hg. simpl.
  pose proof (world_of_reachable ops Hrun) as Hreach.
  apply (reachable_inv "" "" string_extract string_extract) in Hreach as [Hwf _].
  by apply (Hwf i).
Qed.

Lemma directed_example_wf : Graph_wf directed_example.
Proof. apply (graph_of_wf (small_graph false) 0); vm_compute; eauto. Qed.


(** The directed example survives the round trip. *)
Lemma directed_example_round_trip :
  exists text t,
    Graph_print (fun d => d) (fun d => d) directed_example = Ok directed_example text /\
    Graph_import "" "" string_extract string_extract (istringstream text)
      (mkGState [] [] [] (Graph_ctor false)) = Ok t tt /\
    Graph_wf t /\ same_graph directed_example t.
Proof.
  apply (export_import_round_trip "" "" (fun d => d) (fun d => d) string_extract
           string_extract directed_example [] [] directed_example_wf);
    [|vm_compute; discriminate..].
  split.
  - intros i n Hn. pose proof (elem_lt _ _ _ _ Hn) as Hi.
    change (element_count_ (nodes_of (g_this directed_example))) with 3%N in Hi.
    assert (i = 0 \/ i = 1 \/ i = 2)%N as [-> | [-> | ->]] by lia;
      vm_compute in Hn; injection Hn as <-; by vm_compute.
  - intros j e He. pose proof (elem_lt _ _ _ _ He) as Hj.
    change (element_count_ (edges_of (g_this directed_example))) with 2%N in Hj.
    assert (j = 0 \/ j = 1)%N as [-> | ->] by lia;
      vm_compute in He; injection He as <-; by vm_compute.
Qed.

(** In the directed example, whose edge store has size 2, an edge added
    under the id 5 is refused as invalid and under the id 1 as conflicting. *)
Lemma add_validates_the_id_witness :
  Edges_add "" 5 0 2 "z" directed_example
    = Throw directed_example InvalidIdentifierException /\
  Edges_add "" 1 0 2 "z" directed_example
    = Throw directed_example ConflictingItemException.
Proof.
  pose proof (add_validates_the_id "" "" directed_example 5 "n" "z" 0 2 directed_example_wf)
    as (_ & _ & _ & Hinvalid & _).
  pose proof (add_validates_the_id "" "" directed_example 1 "n" "z" 0 2 directed_example_wf)
    as (_ & _ & _ & _ & Hconflict & _).
  split; [apply Hinvalid | apply Hconflict]; vm_compute; reflexivity.
Defined.

(** In the directed example, of three nodes, the pair (0, 5) is out of
    range and the pair (0, 2) is in range and not connected. *)
Lemma exists_pair_asymmetry_witness :
  Edges_exists_pair 0 5 directed_example
    = Throw directed_example NonexistingItemException /\
  exists b, Edges_exists_pair 0 2 directed_example = Ok directed_example b /\
    (b = true <->
     exists i e, edge_at directed_example i = Some e /\
                 links (g_this directed_example) e 0 2).
Proof.
  split.
  - apply (exists_pair_asymmetry directed_example 0 5 directed_example_wf).
    right. vm_compute. discriminate.
  - destruct (exists_pair_asymmetry directed_example 0 2 directed_example_wf)
      as (_ & _ & Hin).
    destruct Hin as (b & Hb & _ & Hlinks); [vm_compute; reflexivity..|].
    exists b. split; [exact Hb | exact Hlinks].
Defined.

(** An empty graph and an allocator whose second answer is a refusal: the
    block of the node store is had, the matrix cannot grow. *)
Definition starved : @GState string string := mkGState [true; false] [] [] (Graph_ctor false).

Definition after_failed_add : @GState string string :=
  Eval vm_compute in
    match Nodes_add "" 0 "a" starved with
    | Throw s' _ => s'
    | _ => starved
    end.

Lemma node_add_is_transactional_witness :
  Nodes_add "" 0 "a" starved = Throw after_failed_add UnavailableMemoryException /\
  Graph_wf after_failed_add /\
  Nodes_size after_failed_add = Ok after_failed_add 0 /\
  matrix_of (g_this after_failed_add) = [].
Proof.
  assert (Nodes_add "" 0 "a" starved = Throw after_failed_add UnavailableMemoryException)
    as Hrun by (vm_compute; reflexivity).
  split; [exact Hrun|].
  destruct (node_add_is_transactional "" starved 0 "a" after_failed_add
              UnavailableMemoryException (Graph_wf_new _ _ _ _) eq_refl Hrun)
    as (_ & Hwf & Hsize & _ & _ & _ & _ & Hmatrix).
  split; [exact Hwf|]. split; [exact Hsize | exact Hmatrix].
Defined.


(** A loop on node 1 of the directed example. *)
Lemma self_loops_are_permitted_witness :
  exists s' p e,
    Edges_add "" 2 1 1 "loop" directed_example = Ok s' p /\
    edge_at s' 2 = Some e /\ joins (g_this s') e 1 1 /\
    Edges_exists_pair 1 1 s' = Ok s' true.
Proof.
  destruct (self_loops_are_permitted "" directed_example 2 1 "loop" directed_example_wf)
    as (s' & p & e & Hrun & _ & _ & He & _ & _ & _ & Hjoins & _ & Hexists);
    [vm_compute; reflexivity..|].
  exists s', p, e. split; [exact Hrun|]. split; [exact He|]. split; [exact Hjoins | exact Hexists].
Defined.

(** The directed example and a second directed graph of one node. *)
Definition two_graphs : list (@operation string string) :=
  small_graph false ++ [op_new false; op_add_node 1 0 "q"].

Definition copy_target : @GState string string :=
  Eval vm_compute in graph_of (world_of two_graphs) 1.

Definition copy_source : Graph :=
  Eval vm_compute in g_this (graph_of (world_of two_graphs) 0).



(** An array of block size 10 after one [push_back] and one [pop_back]: it
    is empty and owns a block. *)
Definition emptied_array : @AState N :=
  Eval vm_compute in
    match (Array_push_back 0 7 ;;; Array_pop_back (fun x => x)) (mkAState [] [] (Array_ctor 10)) with
    | Ok s _ => s
    | _ => mkAState [] [] (Array_ctor 10)
    end.

Lemma emptied_array_reachable : Array_reachable 0 (fun x => x) emptied_array.
Proof.
  eapply reachable_pop_back.
  - eapply (reachable_push_back _ _ _ 7%N).
    + by apply (reachable_ctor _ _ [] [] 10).
    + reflexivity.
  - reflexivity.
Qed.

(** C3 as the specification words it, at one state: when the size is a
    multiple of the block size, [push_back] allocates one block. *)
Definition allocates_on_multiples (s : @AState N) : Prop :=
  element_count_ (a_this s) mod block_size_ (a_this s) = 0%N ->
  forall x s', Array_push_back 0%N x s = Ok s' tt ->
    length (data_ (a_this s')) = Datatypes.S (length (data_ (a_this s))) /\
    length (a_heap s') = Datatypes.S (length (a_heap s)).

(** C3, as stated, fails on a reachable state: the size of the emptied
    array, 0, is a multiple of its block size, and [push_back] on it
    allocates no block: it writes into the block the array has. *)
Lemma push_back_after_pop_back_allocates_nothing :
  Array_reachable 0%N (fun x => x) emptied_array /\ ~ allocates_on_multiples emptied_array.
Proof.
  split; [exact emptied_array_reachable|]. intros Hclaim.
  destruct (Hclaim eq_refl 8%N _ eq_refl) as [Hblocks _]. vm_compute in Hblocks. discriminate.
Qed.

(** An array of block size 10 that has no block yet, with an allocator
    that grants everything and with one whose first answer is a refusal. *)
Definition new_array : @AState N := mkAState [] [] (Array_ctor 10).
Definition new_array_refused : @AState N := mkAState [false] [] (Array_ctor 10).

(** The three cases of C3: the emptied array has a free slot, and
    [push_back] writes into the block it has; the new array has none, and
    [push_back] allocates its first block, or throws and leaves it as it is
    when the allocator refuses. *)
Lemma push_back_allocates_when_full_witness :
  wp (Array_push_back 0 8) emptied_array
    (fun s' _ =>
       data_ (a_this s') = data_ (a_this emptied_array) /\
       length (a_heap s') = length (a_heap emptied_array) /\
       elem (a_heap s') (a_this s') 0 = Some 8%N)
    (fun _ _ => False) /\
  wp (Array_push_back 0 8) new_array
    (fun s' _ =>
       data_ (a_this s') = [0%nat] /\ length (a_heap s') = 1%nat /\
       elem (a_heap s') (a_this s') 0 = Some 8%N)
    (fun _ _ => False) /\
  Array_push_back 0 8 new_array_refused
  = Throw (mkAState [] [] (Array_ctor 10)) UnavailableMemoryException.
Proof.
  split; [|split].
  - destruct (push_back_allocates_when_full 0 (fun x => x) 8%N emptied_array
                emptied_array_reachable) as (_ & _ & _ & Hwp & _); [reflexivity|].
    eapply wp_mono; [exact Hwp | |].
    + intros s' [] (Hblocks & _ & _ & Hnew & _). simpl in Hblocks.
      destruct Hblocks as (_ & Hdata & Hlen).
      split; [exact Hdata|]. split; [exact Hlen | exact Hnew].
    + intros s' e (_ & Hfree & _). vm_compute in Hfree. discriminate.
  - destruct (push_back_allocates_when_full 0 (fun x => x) 8%N new_array
                (reachable_ctor _ _ [] [] 10)) as (_ & _ & _ & Hwp & _); [reflexivity|].
    eapply wp_mono; [exact Hwp | |].
    + intros s' [] (Hblocks & _ & _ & Hnew & _). simpl in Hblocks.
      destruct Hblocks as (_ & Hdata & Hlen).
      split; [exact Hdata|]. split; [exact Hlen | exact Hnew].
    + intros s' e (_ & _ & Halloc & _). vm_compute in Halloc. discriminate.
  - destruct (push_back_allocates_when_full 0 (fun x => x) 8%N new_array_refused
                (reachable_ctor _ _ [false] [] 10)) as (_ & _ & _ & _ & _ & Hfull);
      [reflexivity|].
    destruct (Hfull eq_refl []) as [_ Hrefused]. apply Hrefused. reflexivity.
Defined.

(** Dense ids hold in every graph of a reachable world: the programs that
    reach it assign a graph from another graph only. *)
Lemma reachable_dense_ids {NData EData : Type} (NData_init : NData) (EData_init : EData)
    (NData_extract : string -> NData) (EData_extract : string -> EData) w k g :
  reachable NData_init EData_init NData_extract EData_extract w ->
  w_graphs w !! k = Some g ->
  (forall i n, node_at (enter [] w g) i = Some n -> Node_id_ n = i) /\
  (forall i e, edge_at (enter [] w g) i = Some e -> Edge_id_ e = i).
Proof.
  intros Hreach Hg. apply reachable_inv in Hreach as [Hwf _]. specialize (Hwf k g Hg).
  split; [apply (wf_node_ids _ Hwf) | apply (wf_edge_ids _ Hwf)].
Qed.

(** one graph with the node 0 *)
Definition one_node : @World string string :=
  Eval vm_compute in world_of [op_new false; op_add_node 0 0 "a"].

(** C4 fails on the code: after [g = g], which returns, the node at
    position 0 of [g] has the id [SIZE_MAX] that the destructor left in it.
    Copy assignment of arrays destroys the elements of the target before it
    reads the source, and, unlike move assignment, does not look whether the
    two are one object. *)
Theorem self_assignment_breaks_dense_ids :
  exists w',
    run "" "" string_extract string_extract [] (op_copy_assign 0 0) one_node = Ok w' tt /\
    node_at (graph_of one_node 0) 0 = Some (mkNode 0 "a") /\
    node_at (graph_of w' 0) 0 = Some (mkNode SIZE_MAX "a").
Proof. eexists. split; [vm_compute; reflexivity|]. split; vm_compute; reflexivity. Qed.

(** the directed example, alone in its world *)
Definition one_graph : @World string string :=
  Eval vm_compute in world_of (small_graph false).

(** C8 fails on the code: [DirectedGraph c(std::move(g))] with [g] the
    directed example runs the copy constructor, the only constructor of
    [DirectedGraph] that takes a graph.  It returns; [g] is the object it
    was, with its three nodes, its two edges and its matrix, and is not
    empty; [c] has its records in blocks that are new, the second of the
    node memory and the second of the edge memory, and its matrix was built
    again on them: the cell (0, 1) of [g] refers to block 0 and that of [c]
    to block 1.  Nothing is handed over. *)
Theorem move_construction_copies :
  exists w' g c,
    run "" "" string_extract string_extract [] (op_move_construct 0) one_graph = Ok w' tt /\
    w_graphs one_graph !! 0%nat = Some g /\
    w_graphs w' !! 0%nat = Some g /\
    w_graphs w' !! 1%nat = Some c /\
    node_count g = 3%N /\ edge_count g = 2%N /\ length (matrix_of g) = 3%nat /\
    node_at (graph_of w' 0) 0 = Some (mkNode 0 "a") /\
    node_at (graph_of w' 1) 0 = Some (mkNode 0 "a") /\
    data_ (nodes_of g) = [0%nat] /\ data_ (nodes_of c) = [1%nat] /\
    data_ (edges_of g) = [0%nat] /\ data_ (edges_of c) = [1%nat] /\
    length (w_nheap one_graph) = 1%nat /\ length (w_nheap w') = 2%nat /\
    matrix_get (matrix_of g) 0 1 = Some (Some (0%nat, 0%nat)) /\
    matrix_get (matrix_of c) 0 1 = Some (Some (1%nat, 0%nat)).
Proof.
  eexists _, _, _. split; [vm_compute; reflexivity|].
  split; [vm_compute; reflexivity|]. repeat split; vm_compute; reflexivity.
Qed.

(** An edge of id 2147483648 between the nodes 0 and 1, in a memory that
    holds these two nodes. *)
Definition large_edge : Edge string :=
  mkEdge 2147483648 (Some (0%nat, 0%nat)) (Some (0%nat, 1%nat)) "x".

Definition two_nodes : @GState string string :=
  mkGState [] [[mkNode 0 "a"; mkNode 1 "b"]] [] (Graph_ctor false).

(** C9 fails on the code for ids from 2147483648 on: the line that the
    export writes for an edge with this id is refused by the import with
    [ParsingException], whatever the graph, because ids are read with
    [std::stoi], whose range is that of [int]. *)
Theorem import_refuses_large_ids (s : @GState string string) :
  Edge_print (fun d => d) large_edge two_nodes
    = Ok two_nodes ("edge (0)-[2147483648 {x}]->(1)" +:+ endl) /\
  import_line "" "" string_extract string_extract
    (istringstream "edge (0)-[2147483648 {x}]->(1)") s = Throw s ParsingException /\
  Graph_import "" "" string_extract string_extract
    (istringstream ("edge (0)-[2147483648 {x}]->(1)" +:+ endl)) s = Throw s ParsingException.
Proof. split; [vm_compute; reflexivity|]. split; reflexivity. Qed.

(** * Further properties of the arrays *)

Section ArrayFurther.
Local Unset Default Proof Using.
Context {element : Type}.
Variable value_init : element.
Variable destroy : element -> element.
Implicit Types (h : list (list element)) (a : Array) (p q : ptr) (i j : N).
Implicit Types s : @AState element.

(** X1: [pop_back] on an empty array throws [EmptyArrayException] and
    changes nothing; otherwise it returns with the size one less, the blocks
    of the array and of the memory all kept (none is released), and every
    remaining element at the address and with the value it had. *)
Theorem pop_back_keeps_the_blocks s :
  Array_reachable value_init destroy s ->
  wp (Array_pop_back destroy) s
    (fun s' _ =>
       0 < element_count_ (a_this s) /\
       element_count_ (a_this s') = element_count_ (a_this s) - 1 /\
       data_ (a_this s') = data_ (a_this s) /\
       block_size_ (a_this s') = block_size_ (a_this s) /\
       length (a_heap s') = length (a_heap s) /\
       a_script s' = a_script s /\
       elem (a_heap s') (a_this s') (element_count_ (a_this s) - 1) = None /\
       forall i, i < element_count_ (a_this s) - 1 ->
         ref (a_this s') i = ref (a_this s) i /\
         elem (a_heap s') (a_this s') i = elem (a_heap s) (a_this s) i)
    (fun s' e =>
       e = EmptyArrayException /\ s' = s /\ element_count_ (a_this s) = 0).
Proof.
  intros Hreach. destruct (Array_reachable_inv _ _ s Hreach) as [[_ Hwf]|Hzero].
  - eapply wp_mono; [by apply Array_pop_back_spec | |].
    + intros s' [] (Hpos & Hscript & Hthis & Hwf' & _ & Hlen & Hold).
      rewrite Hthis. simpl. split_and!; try done.
      * rewrite <- Hthis. apply elem_ge. rewrite Hthis. simpl. lia.
      * intros i Hi. split; [done|]. rewrite <- Hthis. by apply Hold.
    + intros s' e (-> & Hcount & ->). done.
  - destruct s as [script h a]. simpl in Hzero. subst a. done.
Qed.

(** X2: on an array of positive block size, [push_back] followed by
    [pop_back] gives back the array: the same size, the same elements at the
    same addresses; the capacity is at least what it was, since a block the
    first call allocated stays.  The pair fails only when the first call
    does, for lack of memory, and then nothing has changed. *)
Theorem push_back_then_pop_back x s :
  Array_reachable value_init destroy s ->
  0 < block_size_ (a_this s) ->
  wp (Array_push_back value_init x ;;; Array_pop_back destroy) s
    (fun s' _ =>
       element_count_ (a_this s') = element_count_ (a_this s) /\
       block_size_ (a_this s') = block_size_ (a_this s) /\
       capacity (a_this s) <= capacity (a_this s') /\
       (forall i, elem (a_heap s') (a_this s') i = elem (a_heap s) (a_this s) i) /\
       (forall i, i < element_count_ (a_this s) -> ref (a_this s') i = ref (a_this s) i))
    (fun s' e =>
       e = UnavailableMemoryException /\ a_heap s' = a_heap s /\ a_this s' = a_this s).
Proof.
  intros Hreach HB. pose proof (Array_reachable_wf _ _ s Hreach HB) as Hwf.
  apply wp_bind. eapply wp_mono; [by apply Array_push_back_spec | |].
  - intros s1 [] Hpost. cbv beta.
    destruct (push_back_post_elem x s s1 Hwf Hpost) as [Hnew Hold].
    destruct Hpost as (p & Hwf1 & Hbs & Hec & Hp & _ & Hrefs & _ & _ & Hdata).
    eapply wp_mono; [by apply Array_pop_back_spec | |].
    + intros s2 [] (_ & _ & Hthis & _ & _ & _ & Hold2).
      rewrite Hec in Hthis, Hold2.
      replace (element_count_ (a_this s) + 1 - 1) with (element_count_ (a_this s))
        in Hthis, Hold2 by lia.
      split_and!.
      * by rewrite Hthis.
      * by rewrite Hthis.
      * rewrite Hthis. unfold capacity. simpl. rewrite Hbs.
        destruct Hdata as [(_ & -> & _) | (_ & -> & _)]; [done|].
        rewrite length_app. simpl. lia.
      * intros i. destruct (decide (i < element_count_ (a_this s))) as [Hi|Hi].
        -- rewrite Hold2 by done. by apply Hold.
        -- rewrite !elem_ge; [done | lia | rewrite Hthis; simpl; lia].
      * intros i Hi. rewrite <- (Hrefs i Hi). by rewrite Hthis.
    + intros s2 e (_ & Hzero & _). lia.
  - intros s1 e (-> & Hh & Ha & _). done.
Qed.

(** X3: [at], [operator[]] and [get_] throw [OutOfRangeException] exactly
    for an index that is not below the size, and otherwise return the
    address of the element of that index; neither case changes anything. *)
Theorem at_checks_the_bounds index s :
  Array_reachable value_init destroy s ->
  wp (Array_get_ index) s
    (fun s' p =>
       s' = s /\ index < element_count_ (a_this s) /\
       ref (a_this s) index = Some p /\
       exists x, load (a_heap s) p = Some x /\ elem (a_heap s) (a_this s) index = Some x)
    (fun s' e =>
       s' = s /\ element_count_ (a_this s) <= index /\ e = OutOfRangeException).
Proof.
  intros Hreach. destruct (Array_reachable_inv _ _ s Hreach) as [[_ Hwf]|Hzero].
  - eapply wp_mono; [by apply Array_get__spec | | done].
    intros s' p (-> & Hlt & Hp). split_and!; try done.
    destruct (ref_load _ _ _ _ Hwf Hp) as [x Hx]. exists x. split; [done|].
    unfold elem. rewrite (proj2 (N.ltb_lt _ _) Hlt), Hp. done.
  - destruct s as [script h a]. simpl in Hzero. subst a.
    unfold wp, Array_get_, bind, Array_size, gets. simpl.
    rewrite (proj2 (N.leb_le 0 index)) by lia. simpl. split_and!; [done | lia | done].
Qed.

(** X4: the subtraction of [free_space_count_] never wraps, whatever the
    block size the array was constructed with, 0 included: the size of a
    reachable array is at most the number of its blocks times the block
    size, so that the free slots and the elements together are the slots of
    the blocks; the blocks are distinct, allocated and of the block size.
    An array of block size 0 never has a block or an element. *)
Theorem free_space_never_underflows s :
  Array_reachable value_init destroy s ->
  element_count_ (a_this s)
    <= N.of_nat (length (data_ (a_this s))) * block_size_ (a_this s) /\
  free_space_count_ (a_this s) + element_count_ (a_this s)
    = N.of_nat (length (data_ (a_this s))) * block_size_ (a_this s) /\
  NoDup (data_ (a_this s)) /\
  (forall b, b ∈ data_ (a_this s) ->
     exists blk, a_heap s !! b = Some blk /\
                 length blk = N.to_nat (block_size_ (a_this s))) /\
  (block_size_ (a_this s) = 0 ->
   data_ (a_this s) = [] /\ element_count_ (a_this s) = 0).
Proof.
  intros Hreach. destruct (Array_reachable_inv _ _ s Hreach) as [[HB [H1 H2 H3 H4]]|Hzero].
  - unfold capacity in H4. unfold free_space_count_. split_and!; try done; lia.
  - rewrite Hzero. simpl. split_and!; try done.
    + apply NoDup_nil_2.
    + intros b Hb. by apply not_elem_of_nil in Hb.
Qed.

(** X5: the copy constructor returns, unless memory runs out, with an array
    of the block size and the size of the source, whose elements are those
    of the source, in blocks that are all new; no block that existed is
    written, whether the constructor returns or throws. *)
Theorem array_copy_constructor_copies other s :
  Array_wf (a_heap s) other ->
  wp (Array_copy_ctor value_init other) s
    (fun s' _ =>
       Array_wf (a_heap s') (a_this s') /\
       block_size_ (a_this s') = block_size_ other /\
       element_count_ (a_this s') = element_count_ other /\
       (forall i, elem (a_heap s') (a_this s') i = elem (a_heap s) other i) /\
       (forall b, b ∈ data_ (a_this s') -> (length (a_heap s) <= b)%nat) /\
       (forall b, (b < length (a_heap s))%nat -> a_heap s' !! b = a_heap s !! b))
    (fun s' e =>
       e = UnavailableMemoryException /\
       forall b, (b < length (a_heap s))%nat -> a_heap s' !! b = a_heap s !! b).
Proof.
  intros Hwf. eapply wp_mono; [by apply Array_copy_ctor_spec | |].
  - intros s' [] (Hwf' & Hbs & Hec & Hown & (_ & _ & Hfr) & Hel). split_and!; try done.
    + intros b Hb. destruct (Hown b Hb) as [Hin|Hge]; [by apply not_elem_of_nil in Hin | done].
    + intros b Hb. apply Hfr; [done | apply not_elem_of_nil].
  - intros s' e (-> & _ & _ & Hfr). split; [done|].
    intros b Hb. apply Hfr; [done | apply not_elem_of_nil].
Qed.


(** X7: what the move constructor leaves in its source has block size 0:
    [push_back] on it never returns, it fails for lack of memory or
    divides by zero. *)
Theorem moved_from_array_is_unusable (other : Array) script h x :
  (Array_move_ctor other).1 = other /\
  (Array_move_ctor other).2 = mkArray [] 0 0 /\
  match Array_push_back value_init x (mkAState script h (Array_move_ctor other).2) with
  | Ok _ _ => False
  | Throw _ e => e = UnavailableMemoryException
  | Undefined => True
  end.
Proof.
  split; [by destruct other|]. split; [done|].
  destruct script as [|[] script]; done.
Qed.

Local Open Scope N_scope.

(** the destructor loop, element by element *)
Lemma destroy_elements_content script h a :
  Array_wf h a ->
  wp (for_ (element_count_ a) (fun i =>
        let* p := slot i in let* x := read p in assign p (destroy x)))
     (mkAState script h a)
     (fun s' _ =>
        a_this s' = a /\ a_script s' = script /\
        Array_wf (a_heap s') a /\
        forall i, elem (a_heap s') a i = destroy <$> elem h a i)
     (fun _ _ => False).
Proof.
  intros Hwf.
  eapply wp_mono;
    [apply (wp_for (fun (k : N) s' =>
        a_this s' = a /\ a_script s' = script /\
        Array_wf (a_heap s') a /\
        forall i, elem (a_heap s') a i
                  = if i <? k then destroy <$> elem h a i else elem h a i)
        _ (fun _ _ => False)) | |].
  - simpl. split_and!; try done. intros i. by destruct i.
  - intros k [script' h' a'] Hk (Ha & Hs & Hwf' & Hdone). simpl in *. subst a' script'.
    destruct (ref_lt_Some _ _ _ Hwf' Hk) as [p Hp].
    destruct (ref_load _ _ _ _ Hwf' Hp) as [x Hx].
    apply wp_bind. unfold slot. simpl. eapply wp_from_option; [exact Hp|].
    apply wp_bind. unfold read. simpl. eapply wp_from_option; [exact Hx|].
    destruct (store_is_Some h' p (destroy x)) as [h2 Hst]; [by rewrite Hx|].
    unfold wp, assign. simpl. rewrite Hst.
    pose proof (heap_frame_store_own (data_ a) _ _ _ _ Hst (ref_owned a _ _ Hp)) as Hfr2.
    split; [done|]. split; [done|]. split; [by eapply Array_wf_frame|].
    intros i. destruct (decide (i = k)) as [->|Hne].
    + rewrite (proj2 (N.ltb_lt k (k + 1))) by lia.
      pose proof (Hdone k) as Hk'. rewrite N.ltb_irrefl in Hk'. rewrite <- Hk'.
      unfold elem. rewrite (proj2 (N.ltb_lt _ _) Hk), Hp. simpl.
      rewrite (load_store _ _ _ _ _ Hst), decide_True by done. by rewrite Hx.
    + replace (i <? k + 1) with (i <? k).
      2:{ destruct (i <? k) eqn:E; symmetry.
          - apply N.ltb_lt in E. apply N.ltb_lt. lia.
          - apply N.ltb_ge in E. apply N.ltb_ge. lia. }
      rewrite <- Hdone. unfold elem. destruct (i <? element_count_ a); [|done].
      destruct (ref a i) as [r|] eqn:Hr; [|done]. simpl.
      rewrite (load_store _ _ _ _ _ Hst). rewrite decide_False; [done|].
      intros ->. apply Hne. eapply element_ref_inj; [apply Hwf | exact Hr | exact Hp].
  - intros [script' h' a'] [] (Ha & Hs & Hwf' & Hdone). simpl in *.
    split_and!; try done. intros i. rewrite Hdone.
    destruct (i <? element_count_ a) eqn:E; [done|].
    apply N.ltb_ge in E. by rewrite elem_ge.
  - done.
Qed.

(** copying the elements of an array onto themselves changes nothing *)
Lemma copy_elements_onto_themselves script h a :
  Array_wf h a ->
  for_ (element_count_ a) (fun i =>
    let* bs := gets (fun s => block_size_ (a_this s)) in
    let* src := from_option (element_ref (data_ a) bs i) in
    let* x := read src in
    let* dst := slot i in
    assign dst x) (mkAState script h a)
  = Ok (mkAState script h a) tt.
Proof.
  intros Hwf.
  assert (wp (for_ (element_count_ a) (fun i =>
                let* bs := gets (fun s => block_size_ (a_this s)) in
                let* src := from_option (element_ref (data_ a) bs i) in
                let* x := read src in
                let* dst := slot i in
                assign dst x)) (mkAState script h a)
            (fun s' _ => s' = mkAState script h a) (fun _ _ => False)) as Hwp.
  { eapply wp_mono;
      [apply (wp_for (fun (k : N) s' => s' = mkAState script h a) _ (fun _ _ => False)) | |];
      [done | | by intros ? [] -> | done].
    intros k s' Hk ->. apply wp_bind, wp_gets. simpl.
    destruct (ref_lt_Some _ _ _ Hwf Hk) as [p Hp].
    destruct (ref_load _ _ _ _ Hwf Hp) as [x Hx].
    apply wp_bind. eapply wp_from_option; [exact Hp|].
    apply wp_bind. unfold read. simpl. eapply wp_from_option; [exact Hx|].
    apply wp_bind. unfold slot. simpl. eapply wp_from_option; [exact Hp|].
    unfold wp, assign, store. simpl.
    unfold load in Hx. destruct (h !! p.1) as [blk|] eqn:Hblk; [|done]. simpl in *.
    rewrite decide_True by (by eapply lookup_lt_Some).
    by rewrite (list_insert_id blk), (list_insert_id h). }
  unfold wp in Hwp. by destruct (for_ _ _ _) as [s' []| |]; subst.
Qed.

(** X8: copy assignment of an array to itself returns with every element
    replaced by what its destructor leaves: the elements of the target are
    destroyed before those of the source, the same ones, are read. *)
Theorem array_self_assignment_destroys s :
  Array_wf (a_heap s) (a_this s) ->
  exists s',
    Array_copy_assign value_init destroy (a_this s) s = Ok s' tt /\
    a_this s' = a_this s /\ a_script s' = a_script s /\
    forall i, elem (a_heap s') (a_this s') i
              = destroy <$> elem (a_heap s) (a_this s) i.
Proof.
  intros Hwf. destruct s as [script h a]. simpl in *.
  pose proof (destroy_elements_content script h a Hwf) as Hdestroy. unfold wp in Hdestroy.
  unfold Array_copy_assign, bind, Array_size, gets. simpl.
  destruct (for_ (element_count_ a) _ (mkAState script h a)) as [[script1 h1 a1] []| |];
    [|done..].
  destruct Hdestroy as (Ha & Hs & Hwf1 & Hcontent). simpl in *. subst a1 script1.
  unfold set_element_count, modify, set_this. simpl.
  assert (mkArray (data_ a) (block_size_ a) (element_count_ a) = a) as -> by (by destruct a).
  rewrite N.eqb_refl. simpl. unfold ret.
  assert (add_blocks_while value_init (N.to_nat (element_count_ a)) (element_count_ a)
            (mkAState script h1 a) = Ok (mkAState script h1 a) tt) as ->.
  { pose proof (wf_count _ _ Hwf1) as Hcap. unfold capacity in Hcap.
    destruct (N.to_nat (element_count_ a)); simpl;
      by rewrite (proj2 (N.ltb_ge _ _) Hcap). }
  eexists. split; [exact (copy_elements_onto_themselves script h1 a Hwf1)|]. done.
Qed.
End ArrayFurther.

(** * Further properties of the graphs *)

Section GraphFurther.
Local Unset Default Proof Using.
Local Open Scope N_scope.
Context {NData EData : Type}.
Variable NData_init : NData.
Variable EData_init : EData.
Implicit Types (s : @GState NData EData) (g : Graph) (i j src tgt : N).
Implicit Types (e : Edge EData).

(** [Edges::operator[](source)]: the [Request] it returns holds the edge
    store and [source] *)
Definition Edges_subscript (source : N) : M (@GState NData EData) N :=
  let* m := the_matrix in
  let size := N.of_nat (length m) in
  if size <=? source then throw NonexistingItemException
  else ret source.

(** [Request::operator[](target)], on the request that holds [source_] *)
Definition Request_subscript (source_ target : N) : M (@GState NData EData) ptr :=
  let* m := the_matrix in
  let size := N.of_nat (length m) in
  if size <=? target then throw NonexistingItemException
  else Edges_get_pair source_ target.

Lemma matrix_dimension s :
  Graph_wf s -> N.of_nat (length (matrix_of (g_this s))) = node_count (g_this s).
Proof. intros Hwf. destruct (wf_square _ Hwf) as [-> _]. lia. Qed.

Lemma matrix_get_in_range s a b :
  Graph_wf s -> a < node_count (g_this s) -> b < node_count (g_this s) ->
  is_Some (matrix_get (matrix_of (g_this s)) a b).
Proof.
  intros Hwf Ha Hb. apply (matrix_get_lt _ _ a b (wf_square _ Hwf)). lia.
Qed.

Lemma matrix_get_Some_lt s a b cell :
  Graph_wf s -> matrix_get (matrix_of (g_this s)) a b = Some cell ->
  a < node_count (g_this s) /\ b < node_count (g_this s).
Proof.
  intros Hwf Hcell.
  destruct (proj2 (matrix_get_lt _ _ a b (wf_square _ Hwf))) as [Ha Hb]; [by eexists|].
  lia.
Qed.

Lemma Edges_exists_pair_cell s a b cell :
  Graph_wf s -> matrix_get (matrix_of (g_this s)) a b = Some cell ->
  Edges_exists_pair a b s = Ok s (bool_decide (is_Some cell)).
Proof.
  intros Hwf Hcell. destruct (matrix_get_Some_lt s a b cell Hwf Hcell) as [Ha Hb].
  unfold Edges_exists_pair, bind, the_matrix, gets. fold (matrix_of (g_this s)).
  rewrite (matrix_dimension s Hwf).
  rewrite (proj2 (N.leb_gt _ _) Ha), (proj2 (N.leb_gt _ _) Hb). simpl.
  by rewrite (matrix_read_eq s a b cell Hcell).
Qed.

Lemma Edges_exists_pair_out s a b :
  Graph_wf s -> node_count (g_this s) <= a \/ node_count (g_this s) <= b ->
  Edges_exists_pair a b s = Throw s NonexistingItemException.
Proof.
  intros Hwf Hout. unfold Edges_exists_pair, bind, the_matrix, gets.
  fold (matrix_of (g_this s)). rewrite (matrix_dimension s Hwf).
  destruct Hout as [H | H]; rewrite (proj2 (N.leb_le _ _) H); by rewrite ?orb_true_r.
Qed.

Lemma Edges_get_pair_cell s a b cell :
  Graph_wf s -> matrix_get (matrix_of (g_this s)) a b = Some cell ->
  Edges_get_pair a b s
  = match cell with Some p => Ok s p | None => Throw s NonexistingItemException end.
Proof.
  intros Hwf Hcell. destruct (matrix_get_Some_lt s a b cell Hwf Hcell) as [Ha Hb].
  unfold Edges_get_pair, bind, the_matrix, gets. fold (matrix_of (g_this s)).
  rewrite (matrix_dimension s Hwf).
  rewrite (proj2 (N.leb_gt _ _) Ha), (proj2 (N.leb_gt _ _) Hb). simpl.
  rewrite (matrix_read_eq s a b cell Hcell). by destruct cell.
Qed.

Lemma Edges_get_pair_out s a b :
  Graph_wf s -> node_count (g_this s) <= a \/ node_count (g_this s) <= b ->
  Edges_get_pair a b s = Throw s NonexistingItemException.
Proof.
  intros Hwf Hout. unfold Edges_get_pair, bind, the_matrix, gets.
  fold (matrix_of (g_this s)). rewrite (matrix_dimension s Hwf).
  destruct Hout as [H | H]; rewrite (proj2 (N.leb_le _ _) H); by rewrite ?orb_true_r.
Qed.

Lemma Edges_get_lt s i p :
  i < edge_count (g_this s) -> ref (edges_of (g_this s)) i = Some p ->
  Edges_get i s = Ok s p.
Proof.
  intros Hi Hp. unfold Edges_get, Edges_exists, bind. rewrite Edges_size_eq.
  unfold ret. rewrite (proj2 (N.ltb_lt _ _) Hi). simpl. by apply on_edges_get_eq.
Qed.

Lemma Edges_get_ge s i :
  edge_count (g_this s) <= i -> Edges_get i s = Throw s NonexistingItemException.
Proof.
  intros Hi. unfold Edges_get, Edges_exists, bind. rewrite Edges_size_eq.
  unfold ret. by rewrite (proj2 (N.ltb_ge _ _) Hi).
Qed.

Lemma node_at_ref s i p :
  i < node_count (g_this s) -> ref (nodes_of (g_this s)) i = Some p ->
  node_at s i = load (nheap s) p.
Proof.
  intros Hi Hp. unfold node_at, elem.
  change (element_count_ (nodes_of (g_this s))) with (node_count (g_this s)).
  by rewrite (proj2 (N.ltb_lt _ _) Hi), Hp.
Qed.

Lemma edge_at_ref s i p :
  i < edge_count (g_this s) -> ref (edges_of (g_this s)) i = Some p ->
  edge_at s i = load (eheap s) p.
Proof.
  intros Hi Hp. unfold edge_at, elem.
  change (element_count_ (edges_of (g_this s))) with (edge_count (g_this s)).
  by rewrite (proj2 (N.ltb_lt _ _) Hi), Hp.
Qed.

Lemma Nodes_get_Ok s i s' q :
  Graph_wf s -> Nodes_get i s = Ok s' q ->
  s' = s /\ i < node_count (g_this s) /\ ref (nodes_of (g_this s)) i = Some q.
Proof.
  intros Hwf Hget. destruct (decide (i < node_count (g_this s))) as [Hi|Hi].
  - destruct (ref_lt_Some _ _ _ (wf_nodes _ Hwf) Hi) as [p Hp].
    rewrite (Nodes_get_eq s i p Hi Hp) in Hget. by injection Hget as <- <-.
  - rewrite Nodes_get_ge in Hget by lia. done.
Qed.

Lemma Edges_get_Ok s i s' q :
  Graph_wf s -> Edges_get i s = Ok s' q ->
  s' = s /\ i < edge_count (g_this s) /\ ref (edges_of (g_this s)) i = Some q.
Proof.
  intros Hwf Hget. destruct (decide (i < edge_count (g_this s))) as [Hi|Hi].
  - destruct (ref_lt_Some _ _ _ (wf_edges _ Hwf) Hi) as [p Hp].
    rewrite (Edges_get_lt s i p Hi Hp) in Hget. by injection Hget as <- <-.
  - rewrite Edges_get_ge in Hget by lia. done.
Qed.

(** the ids of the two ends of a stored edge *)
Lemma joins_ids s i e src tgt :
  Graph_wf s -> edge_at s i = Some e -> joins (g_this s) e src tgt ->
  source_id_of i s = Ok s src /\ target_id_of i s = Ok s tgt.
Proof.
  intros Hwf He Hj. pose proof (Graph_wf_stores s Hwf) as Hst.
  destruct (joins_source_id s e src tgt Hst Hj) as (qs & ns & Hqs & Hls & Hns).
  destruct (joins_target_id s e src tgt Hst Hj) as (qt & nt & Hqt & Hlt & Hnt).
  subst src tgt. split; [by eapply source_id_of_eq | by eapply target_id_of_eq].
Qed.

(** X9: in a well-formed graph [nodes().get(id)], and [nodes()[id]] with
    it, returns for an id below the number of nodes the address of the slot
    of position [id], which holds a node of that id, and throws
    [NonexistingItemException] for any other id; the bounds check of the
    array underneath never fires, and the state is left alone. *)
Theorem nodes_get_finds_the_node s id :
  Graph_wf s ->
  wp (Nodes_get id) s
    (fun s' p => s' = s /\ id < node_count (g_this s) /\
       ref (nodes_of (g_this s)) id = Some p /\
       exists n, load (nheap s) p = Some n /\ node_at s id = Some n /\ Node_id_ n = id)
    (fun s' ex => s' = s /\ node_count (g_this s) <= id /\ ex = NonexistingItemException).
Proof.
  intros Hwf. unfold wp. destruct (decide (id < node_count (g_this s))) as [Hid|Hid].
  - destruct (ref_lt_Some _ _ _ (wf_nodes _ Hwf) Hid) as [p Hp].
    rewrite (Nodes_get_eq s id p Hid Hp).
    destruct (ref_load _ _ _ _ (wf_nodes _ Hwf) Hp) as [n Hn].
    pose proof (node_at_ref s id p Hid Hp) as Hat. rewrite Hn in Hat.
    split_and!; try done. exists n. split_and!; try done. by apply (wf_node_ids _ Hwf).
  - rewrite Nodes_get_ge by lia. split_and!; [done | lia | done].
Qed.

(** X10: in a well-formed graph [edges().get(id)] returns for an id below
    the number of edges the address of the edge record of that id, whose
    source and target are nodes of the graph and which is the edge that
    [get(source, target)] finds; for any other id it throws
    [NonexistingItemException]. *)
Theorem edges_get_finds_the_edge s id :
  Graph_wf s ->
  wp (Edges_get id) s
    (fun s' p => s' = s /\ id < edge_count (g_this s) /\
       ref (edges_of (g_this s)) id = Some p /\
       exists e source target,
         load (eheap s) p = Some e /\ Edge_id_ e = id /\
         source_id_of id s = Ok s source /\ target_id_of id s = Ok s target /\
         Nodes_exists source s = Ok s true /\ Nodes_exists target s = Ok s true /\
         Edges_get_pair source target s = Ok s p)
    (fun s' ex => s' = s /\ edge_count (g_this s) <= id /\ ex = NonexistingItemException).
Proof.
  intros Hwf. unfold wp. destruct (decide (id < edge_count (g_this s))) as [Hid|Hid].
  - destruct (ref_lt_Some _ _ _ (wf_edges _ Hwf) Hid) as [p Hp].
    rewrite (Edges_get_lt s id p Hid Hp).
    destruct (ref_load _ _ _ _ (wf_edges _ Hwf) Hp) as [e He].
    pose proof (edge_at_ref s id p Hid Hp) as Hat. rewrite He in Hat.
    destruct (wf_endpoints _ Hwf id e Hat) as (src & tgt & Hj).
    destruct (joins_ids s id e src tgt Hwf Hat Hj) as [Hsrc Htgt].
    split_and!; try done. exists e, src, tgt.
    assert (forall k, k < node_count (g_this s) -> Nodes_exists k s = Ok s true) as Hex.
    { intros k Hk. unfold Nodes_exists, bind. rewrite Nodes_size_eq. unfold ret.
      by rewrite (proj2 (N.ltb_lt _ _) Hk). }
    split_and!; try done.
    + by apply (wf_edge_ids _ Hwf).
    + apply Hex, Hj.
    + apply Hex, Hj.
    + rewrite (Edges_get_pair_cell s src tgt (Some p) Hwf); [done|].
      apply (wf_cells _ Hwf). exists id, e. split_and!; try done. by left.
  - rewrite Edges_get_ge by lia. split_and!; [done | lia | done].
Qed.

(** X11: [edges()[source][target]] is [edges().get(source, target)]; and in
    a well-formed graph [get(source, target)] returns exactly when
    [exists(source, target)] returns [true], with the address of a stored
    edge that is recorded for the pair and that [get] finds under its id;
    when [exists] throws or answers [false], [get] throws
    [NonexistingItemException]. *)
Theorem get_pair_returns_iff_exists s source target :
  Graph_wf s ->
  (let* request := Edges_subscript source in Request_subscript request target) s
  = Edges_get_pair source target s /\
  match Edges_exists_pair source target s with
  | Ok s1 true =>
      s1 = s /\
      exists p i e,
        Edges_get_pair source target s = Ok s p /\
        Edges_get i s = Ok s p /\
        edge_at s i = Some e /\ links (g_this s) e source target
  | Ok s1 false =>
      s1 = s /\ Edges_get_pair source target s = Throw s NonexistingItemException
  | Throw s1 ex =>
      s1 = s /\ ex = NonexistingItemException /\
      (node_count (g_this s) <= source \/ node_count (g_this s) <= target) /\
      Edges_get_pair source target s = Throw s NonexistingItemException
  | Undefined => False
  end.
Proof.
  intros Hwf. split.
  - unfold Edges_subscript, Request_subscript, Edges_get_pair, bind, the_matrix, gets,
      ret, throw.
    destruct (N.of_nat (length (adjacency_matrix_ (Graph_edges_ (g_this s)))) <=? source)
      eqn:E1; [done|].
    destruct (N.of_nat (length (adjacency_matrix_ (Graph_edges_ (g_this s)))) <=? target)
      eqn:E2; [done|].
    cbv beta. by rewrite E1, E2.
  - destruct (decide (source < node_count (g_this s) /\ target < node_count (g_this s)))
      as [[Hs Ht]|Hout].
    + destruct (matrix_get_in_range s source target Hwf Hs Ht) as [cell Hcell].
      rewrite (Edges_exists_pair_cell s source target cell Hwf Hcell).
      rewrite (Edges_get_pair_cell s source target cell Hwf Hcell).
      destruct cell as [p|].
      * rewrite bool_decide_eq_true_2 by (by eexists). split; [done|].
        apply (wf_cells _ Hwf) in Hcell as (i & e & He & Hp & Hl).
        exists p, i, e. split_and!; try done.
        apply Edges_get_lt; [|done]. by eapply elem_lt.
      * rewrite bool_decide_eq_false_2; [done|]. by intros [? ?].
    + assert (node_count (g_this s) <= source \/ node_count (g_this s) <= target) as Hout'
        by lia.
      rewrite (Edges_exists_pair_out s source target Hwf Hout').
      by rewrite (Edges_get_pair_out s source target Hwf Hout').
Qed.

(** X12: after [nodes().add(id, data)] has returned, [get(id)] finds the new
    node, at the address the call returned and with the id and the payload
    given; every node that [get] found before is found at the same address
    with the same content; the new node has no edge, and the answers of
    [exists] and [get] for the pairs of earlier nodes are what they were. *)
Theorem node_add_then_get s id data s' p :
  Graph_wf s ->
  Nodes_add NData_init id data s = Ok s' p ->
  id = node_count (g_this s) /\
  Nodes_get id s' = Ok s' p /\
  load (nheap s') p = Some (mkNode id data) /\
  (forall i q, Nodes_get i s = Ok s q ->
     Nodes_get i s' = Ok s' q /\ load (nheap s') q = load (nheap s) q) /\
  (forall j, j <= id ->
     Edges_exists_pair id j s' = Ok s' false /\ Edges_exists_pair j id s' = Ok s' false) /\
  (forall a b c, Edges_exists_pair a b s = Ok s c -> Edges_exists_pair a b s' = Ok s' c) /\
  (forall a b q, Edges_get_pair a b s = Ok s q -> Edges_get_pair a b s' = Ok s' q).
Proof.
  intros Hwf Hrun.
  pose proof (Nodes_add_spec NData_init id data s Hwf) as Hspec.
  unfold wp in Hspec. rewrite Hrun in Hspec.
  destruct Hspec as [(Hid & Hwf' & Hcount & Hnew & Hp & Hold & _ & _ & _ & Hm & _) _].
  assert (id < node_count (g_this s')) as Hlt by lia.
  pose proof (wf_square _ Hwf) as Hsq.
  assert (forall a b, matrix_get (matrix_of (g_this s')) a b =
            if decide (a < id /\ b < id) then matrix_get (matrix_of (g_this s)) a b
            else if decide (a <= id /\ b <= id) then Some None else None) as Hcells.
  { intros a b. rewrite Hm, (matrix_get_grown _ _ a b Hsq), N2Nat.id, <- Hid. done. }
  split_and!.
  - done.
  - by apply Nodes_get_eq.
  - by rewrite <- (node_at_ref s' id p Hlt Hp).
  - intros i q (_ & Hi & Hq)%Nodes_get_Ok; [|done].
    destruct (Hold i) as [Hat Href]; [lia|]. rewrite Hq in Href.
    split; [apply Nodes_get_eq; [lia | done]|].
    rewrite <- (node_at_ref s' i q) by (lia || done).
    by rewrite <- (node_at_ref s i q).
  - intros j Hj. split.
    + apply (Edges_exists_pair_cell s' id j None Hwf'). rewrite Hcells.
      rewrite decide_False by lia. by rewrite decide_True by lia.
    + apply (Edges_exists_pair_cell s' j id None Hwf'). rewrite Hcells.
      rewrite decide_False by lia. by rewrite decide_True by lia.
  - intros a b c Hex.
    destruct (decide (a < node_count (g_this s) /\ b < node_count (g_this s)))
      as [[Ha Hb]|Hout].
    + destruct (matrix_get_in_range s a b Hwf Ha Hb) as [cell Hcell].
      rewrite (Edges_exists_pair_cell s a b cell Hwf Hcell) in Hex. injection Hex as <-.
      apply (Edges_exists_pair_cell s' a b cell Hwf'). rewrite Hcells.
      by rewrite decide_True by lia.
    + rewrite Edges_exists_pair_out in Hex by (done || lia). done.
  - intros a b q Hget.
    destruct (decide (a < node_count (g_this s) /\ b < node_count (g_this s)))
      as [[Ha Hb]|Hout].
    + destruct (matrix_get_in_range s a b Hwf Ha Hb) as [cell Hcell].
      rewrite (Edges_get_pair_cell s a b cell Hwf Hcell) in Hget.
      destruct cell as [q'|]; [|done]. injection Hget as ->.
      rewrite (Edges_get_pair_cell s' a b (Some q) Hwf'); [done|]. rewrite Hcells.
      by rewrite decide_True by lia.
    + rewrite Edges_get_pair_out in Hget by (done || lia). done.
Qed.

Lemma stable_refl s : Graph_wf s -> stable s s.
Proof.
  intros Hwf. split; [done|]. split; [apply same_content_refl|].
  split; [apply frame_nodes_refl | apply frame_edges_refl].
Qed.

(** X13: after [edges().add(id, source, target, data)] has returned,
    [get(id)] and [get(source, target)] find the new edge at the address the
    call returned, with the id and the payload given and with nodes of ids
    [source] and [target] at its ends; [exists(source, target)], which
    answered [false], answers [true]; in an undirected graph
    [get(target, source)] finds the same edge; every edge that [get] found
    before is found at the same address with the same content, and the
    answers for the other pairs are what they were. *)
Theorem edge_add_then_get s id source target data s' p :
  Graph_wf s ->
  Edges_add EData_init id source target data s = Ok s' p ->
  id = edge_count (g_this s) /\
  Edges_get id s' = Ok s' p /\
  Edges_get_pair source target s' = Ok s' p /\
  Edges_exists_pair source target s = Ok s false /\
  Edges_exists_pair source target s' = Ok s' true /\
  (is_undirected (g_this s) = true -> Edges_get_pair target source s' = Ok s' p) /\
  (exists e, load (eheap s') p = Some e /\ Edge_id_ e = id /\ Edge_data_ e = data /\
     source_id_of id s' = Ok s' source /\ target_id_of id s' = Ok s' target) /\
  (forall i q, Edges_get i s = Ok s q ->
     Edges_get i s' = Ok s' q /\ load (eheap s') q = load (eheap s) q) /\
  (forall a b, ~ cell_written (is_undirected (g_this s)) source target a b ->
     (forall c, Edges_exists_pair a b s = Ok s c -> Edges_exists_pair a b s' = Ok s' c) /\
     (forall q, Edges_get_pair a b s = Ok s q -> Edges_get_pair a b s' = Ok s' q)).
Proof.
  intros Hwf Hrun.
  pose proof (Edges_add_spec EData_init id source target data s Hwf) as Hspec.
  unfold wp in Hspec. rewrite Hrun in Hspec.
  destruct Hspec as [(Hid & Hs & Ht & Hfree & Hwf' & Hcount & Hnew & Hp & Hold & Hnheap &
                      Hnodes & Hun & Hcells & _) _].
  assert (id < edge_count (g_this s')) as Hlt by lia.
  assert (matrix_get (matrix_of (g_this s')) source target = Some (Some p)) as Hcell.
  { rewrite Hcells. rewrite decide_True; [done|]. by left. }
  split_and!.
  - done.
  - by apply Edges_get_lt.
  - by rewrite (Edges_get_pair_cell s' source target (Some p) Hwf' Hcell).
  - rewrite (Edges_exists_pair_cell s source target None Hwf Hfree).
    rewrite bool_decide_eq_false_2; [done|]. by intros [? ?].
  - rewrite (Edges_exists_pair_cell s' source target (Some p) Hwf' Hcell).
    by rewrite bool_decide_eq_true_2 by (by eexists).
  - intros Hundirected.
    rewrite (Edges_get_pair_cell s' target source (Some p) Hwf'); [done|].
    rewrite Hcells. rewrite decide_True; [done|]. by right.
  - eexists. rewrite <- (edge_at_ref s' id p Hlt Hp). split; [exact Hnew|].
    split; [done|]. split; [done|].
    eapply (joins_ids s' id _ source target Hwf' Hnew).
    unfold joins, node_count. rewrite Hnodes. done.
  - intros i q (_ & Hi & Hq)%Edges_get_Ok; [|done].
    destruct (Hold i) as [Hat Href]; [lia|]. rewrite Hq in Href.
    split; [apply Edges_get_lt; [lia | done]|].
    rewrite <- (edge_at_ref s' i q) by (lia || done).
    by rewrite <- (edge_at_ref s i q).
  - intros a b Hother.
    assert (matrix_get (matrix_of (g_this s')) a b = matrix_get (matrix_of (g_this s)) a b)
      as Hsame by (rewrite Hcells; by rewrite decide_False).
    assert (node_count (g_this s') = node_count (g_this s)) as Hn
      by (unfold node_count; by rewrite Hnodes).
    destruct (decide (a < node_count (g_this s) /\ b < node_count (g_this s)))
      as [[Ha Hb]|Hout].
    + destruct (matrix_get_in_range s a b Hwf Ha Hb) as [cell Hcell'].
      rewrite (Edges_exists_pair_cell s a b cell Hwf Hcell').
      rewrite (Edges_get_pair_cell s a b cell Hwf Hcell').
      rewrite Hcell' in Hsame.
      rewrite (Edges_exists_pair_cell s' a b cell Hwf' Hsame).
      rewrite (Edges_get_pair_cell s' a b cell Hwf' Hsame).
      split.
      * by intros c [= <-].
      * intros q. destruct cell; [|done]. by intros [= <-].
    + rewrite Edges_exists_pair_out by (done || lia).
      rewrite Edges_get_pair_out by (done || lia). done.
Qed.

(** X14: when [edges().add(id, source, target, data)] throws, the graph is
    what it was: it is well-formed, with the same nodes and edges at the same
    addresses and the same matrix.  The exception is one of four; for the
    three that the checks raise the whole state is untouched, and the
    fourth, [UnavailableMemoryException], needs an allocation to fail. *)
Theorem edge_add_is_transactional s id source target data s' ex :
  Graph_wf s ->
  Edges_add EData_init id source target data s = Throw s' ex ->
  Graph_wf s' /\
  (ex = InvalidIdentifierException \/ ex = ConflictingItemException \/
   ex = NonexistingItemException \/ ex = UnavailableMemoryException) /\
  (ex <> UnavailableMemoryException -> s' = s) /\
  (ex = UnavailableMemoryException -> g_script s <> []) /\
  Edges_size s' = Ok s' (edge_count (g_this s)) /\
  Nodes_size s' = Ok s' (node_count (g_this s)) /\
  (forall i, edge_at s' i = edge_at s i) /\
  (forall i, node_at s' i = node_at s i) /\
  (forall i q, Edges_get i s = Ok s q -> Edges_get i s' = Ok s' q) /\
  matrix_of (g_this s') = matrix_of (g_this s).
Proof.
  intros Hwf Hrun.
  pose proof (Edges_add_spec EData_init id source target data s Hwf) as Hspec.
  unfold wp in Hspec. rewrite Hrun in Hspec.
  assert (stable s s' /\
          (ex = InvalidIdentifierException \/ ex = ConflictingItemException \/
           ex = NonexistingItemException \/ ex = UnavailableMemoryException) /\
          (ex <> UnavailableMemoryException -> s' = s) /\
          (ex = UnavailableMemoryException -> g_script s <> []))
    as (Hst & Hex & Hsame & Hfail).
  { destruct Hspec as [(_ & -> & ->) | [(_ & -> & ->) | [(_ & _ & -> & ->) |
                      [(_ & _ & -> & ->) | (_ & _ & -> & Hst & Hsc)]]]];
      try (split; [by apply stable_refl|]; split; [tauto|]; split; [done|]; done).
    split; [done|]. split; [tauto|]. split; [done|]. done. }
  destruct Hst as (Hwf' & (Hn & Hnodes & _ & Hm & Hedges & Hrefs & Hmatrix & _) & _).
  split_and!; try done.
  - by rewrite Edges_size_eq, Hm.
  - by rewrite Nodes_size_eq, Hn.
  - intros i q (_ & Hi & Hq)%Edges_get_Ok; [|done].
    apply Edges_get_lt; [lia|]. by rewrite Hrefs.
Qed.

(** X15: the overloads of [add] that take no id use the current size, so
    they never report an invalid or a conflicting id.  [nodes().add(data)]
    returns with the node stored under the next id unless an allocation
    fails; [edges().add(source, target, data)] does so too when the two
    nodes exist and have no edge yet, and otherwise throws
    [NonexistingItemException] for a missing node and
    [ConflictingItemException] for a pair that has an edge. *)
Theorem add_without_id_takes_the_next_id s ndata edata source target :
  Graph_wf s ->
  let n := node_count (g_this s) in
  let m := edge_count (g_this s) in
  wp (Nodes_add_next NData_init ndata) s
    (fun s' p => Graph_wf s' /\ node_count (g_this s') = n + 1 /\
       node_at s' n = Some (mkNode n ndata) /\ Nodes_get n s' = Ok s' p)
    (fun s' ex => ex = UnavailableMemoryException /\ g_script s <> []) /\
  wp (Edges_add_next EData_init source target edata) s
    (fun s' p => Graph_wf s' /\ edge_count (g_this s') = m + 1 /\
       source < n /\ target < n /\
       matrix_get (matrix_of (g_this s)) source target = Some None /\
       Edges_get m s' = Ok s' p /\ Edges_get_pair source target s' = Ok s' p)
    (fun s' ex =>
       (ex = NonexistingItemException /\ s' = s /\ (n <= source \/ n <= target)) \/
       (ex = ConflictingItemException /\ s' = s /\
        exists q, Edges_get_pair source target s = Ok s q) \/
       (ex = UnavailableMemoryException /\ g_script s <> [] /\
        source < n /\ target < n)).
Proof.
  intros Hwf n m. subst n m. split.
  - unfold Nodes_add_next. eapply wp_bind_eq; [apply Nodes_size_eq|].
    eapply wp_mono; [by apply Nodes_add_spec | |].
    + intros s' p [(_ & Hwf' & Hcount & Hnew & Hp & _) _]. split_and!; try done.
      apply Nodes_get_eq; [lia | done].
    + intros s' ex [(Hlt & _) | [(Hlt & _) | (_ & -> & _ & Hsc)]]; [lia.. | done].
  - unfold Edges_add_next. eapply wp_bind_eq; [apply Edges_size_eq|].
    eapply wp_mono; [by apply Edges_add_spec | |].
    + intros s' p [(_ & Hs & Ht & Hfree & Hwf' & Hcount & _ & Hp & _ & _ & _ & _ & Hcells & _) _].
      split_and!; try done.
      * apply Edges_get_lt; [lia | done].
      * rewrite (Edges_get_pair_cell s' source target (Some p) Hwf'); [done|].
        rewrite Hcells. rewrite decide_True; [done|]. by left.
    + intros s' ex [(Hlt & _) | [(Hlt & _) | [(_ & Hout & -> & ->) |
                    [(_ & [q Hq] & -> & ->) | (_ & Hfree & -> & _ & Hsc)]]]]; [lia.. | | |].
      * left. done.
      * right. left. split; [done|]. split; [done|]. exists q.
        by rewrite (Edges_get_pair_cell s source target (Some q) Hwf Hq).
      * right. right. split; [done|]. split; [done|].
        by apply (matrix_get_Some_lt s source target None Hwf).
Qed.

(** two square matrices with the same cells are the same matrix *)
Lemma matrix_ext n (m m' : list (list (option ptr))) :
  square n m -> square n m' ->
  (forall a b, matrix_get m a b = matrix_get m' a b) -> m = m'.
Proof.
  intros [Hlen Hrows] [Hlen' Hrows'] Hcells. apply list_eq. intros a.
  destruct (decide (a < n)%nat) as [Ha|Ha].
  - destruct (lookup_lt_is_Some_2 m a) as [row Hrow]; [lia|].
    destruct (lookup_lt_is_Some_2 m' a) as [row' Hrow']; [lia|].
    rewrite Hrow, Hrow'. f_equal. apply list_eq. intros b.
    specialize (Hcells (N.of_nat a) (N.of_nat b)). unfold matrix_get in Hcells.
    rewrite !Nat2N.id, Hrow, Hrow' in Hcells. done.
  - rewrite !lookup_ge_None_2 by lia. done.
Qed.

(** X16: [grow_adjacency_matrix()] on a square matrix of dimension [n]
    either returns with a square matrix of dimension [n + 1] that has the
    old cells where they were and empty cells in the new row and the new
    column, or throws [UnavailableMemoryException] with the matrix restored
    to what it was; it throws only if an allocation fails, and touches
    neither store. *)
Theorem grow_adjacency_matrix_grows_or_restores s (n : nat) :
  square n (matrix_of (g_this s)) ->
  wp grow_adjacency_matrix s
    (fun s' _ =>
       square (Datatypes.S n) (matrix_of (g_this s')) /\
       (forall a b, matrix_get (matrix_of (g_this s')) a b =
          if decide (a < N.of_nat n /\ b < N.of_nat n)
          then matrix_get (matrix_of (g_this s)) a b
          else if decide (a <= N.of_nat n /\ b <= N.of_nat n) then Some None else None) /\
       nodes_of (g_this s') = nodes_of (g_this s) /\
       edges_of (g_this s') = edges_of (g_this s) /\
       is_undirected (g_this s') = is_undirected (g_this s) /\
       nheap s' = nheap s /\ eheap s' = eheap s)
    (fun s' ex =>
       ex = UnavailableMemoryException /\ g_script s <> [] /\
       g_this s' = g_this s /\ nheap s' = nheap s /\ eheap s' = eheap s).
Proof.
  intros Hsq. eapply wp_mono; [by apply (grow_adjacency_matrix_calm s n) | |].
  - intros s' [] (script & -> & _). destruct s as [sc nh eh [[ns] [es mx] un]].
    simpl in *. split_and!; try done.
    + by apply square_grown.
    + intros a b. by apply matrix_get_grown.
  - intros s' ex (-> & (script & ->) & Hsc). by destruct s.
Qed.

(** X17: on a well-formed graph [construct_adjacency_matrix()], when it
    returns, has rebuilt the very matrix the graph had, from the edges and
    the ids of their ends, and has touched neither store; it throws
    [UnavailableMemoryException] only. *)
Theorem construct_adjacency_matrix_rebuilds s :
  Graph_wf s ->
  wp construct_adjacency_matrix s
    (fun s' _ =>
       g_this s' = g_this s /\ nheap s' = nheap s /\ eheap s' = eheap s /\ Graph_wf s')
    (fun _ ex => ex = UnavailableMemoryException).
Proof.
  intros Hwf.
  eapply wp_mono;
    [apply (construct_adjacency_matrix_spec s (Graph_wf_stores s Hwf) (Graph_wf_unique s Hwf))
    | | done].
  intros s' [] (m' & script' & -> & Hwf').
  assert (m' = matrix_of (g_this s)) as ->.
  { pose proof (wf_square _ Hwf) as Hsq. pose proof (wf_square _ Hwf') as Hsq'.
    pose proof (wf_cells _ Hwf) as Hc. pose proof (wf_cells _ Hwf') as Hc'.
    destruct s as [sc nh eh [[ns] [es mx] un]]. simpl in *.
    unfold matrix_of, node_count, nodes_of, edge_at, edges_of in *. simpl in *.
    apply (matrix_ext _ _ _ Hsq' Hsq). intros a b.
    pose proof (matrix_get_lt _ _ a b Hsq) as Hr.
    pose proof (matrix_get_lt _ _ a b Hsq') as Hr'.
    destruct (matrix_get m' a b) as [[p|]|] eqn:E'.
    - symmetry. apply Hc. by apply Hc'.
    - destruct (matrix_get mx a b) as [[p|]|] eqn:E.
      + apply Hc, Hc' in E. congruence.
      + done.
      + exfalso. assert (is_Some (None : option (option ptr))) as [? ?]; [|done].
        apply Hr, Hr'. by eexists.
    - destruct (matrix_get mx a b) as [c|] eqn:E; [|done].
      exfalso. assert (is_Some (None : option (option ptr))) as [? ?]; [|done].
      apply Hr', Hr. by eexists. }
  destruct s as [sc nh eh [[ns] [es mx] un]]. simpl in *. done.
Qed.

(** X18: on a well-formed graph [update_source_and_target_pointers()]
    returns and changes nothing: every edge already points at the nodes of
    the graph that carry the ids of its ends. *)
Theorem update_pointers_changes_nothing s :
  Graph_wf s ->
  wp update_source_and_target_pointers s
    (fun s' _ =>
       g_this s' = g_this s /\ nheap s' = nheap s /\ g_script s' = g_script s /\
       forall i, edge_at s' i = edge_at s i)
    (fun _ _ => False).
Proof.
  intros Hwf.
  assert (forall i e, edge_at s i = Some e ->
            exists src tgt, points_into (nheap s) (nodes_of (g_this s))
                              (node_count (g_this s)) e src tgt) as Hpoints.
  { intros i e He. destruct (wf_endpoints _ Hwf i e He) as (src & tgt & Hj).
    exists src, tgt. pose proof (Graph_wf_stores s Hwf) as Hst.
    destruct (joins_source_id s e src tgt Hst Hj) as (qs & ns & Hqs & Hls & Hns).
    destruct (joins_target_id s e src tgt Hst Hj) as (qt & nt & Hqt & Hlt & Hnt).
    destruct Hj as (Hs & Ht & Hes & Het).
    split; [done|]. split; [done|]. split.
    - exists qs, ns. split_and!; try done. by rewrite <- Hes.
    - exists qt, nt. split_and!; try done. by rewrite <- Het. }
  eapply wp_mono;
    [apply (update_source_and_target_pointers_spec s (nodes_of (g_this s))
              (wf_nodes _ Hwf) (wf_edges _ Hwf) Hpoints) | | done].
  intros s' [] (h' & -> & Hwfe & _ & Hedges). split_and!; try done.
  intros i. destruct (edge_at s i) as [e|] eqn:He.
  - destruct (Hedges i e He) as (src & tgt & (_ & _ & (qs & ns & Hqs & Hrs & _) &
                                               (qt & nt & Hqt & Hrt & _)) & ->).
    f_equal. unfold rebound. rewrite Hrs, Hrt, <- Hqs, <- Hqt. by destruct e.
  - unfold edge_at, elem in *. simpl.
    destruct (i <? element_count_ (edges_of (g_this s))) eqn:Hi; [|done].
    apply N.ltb_lt in Hi.
    destruct (elem_is_Some _ _ i (wf_edges _ Hwf) Hi) as [e He'].
    unfold elem in He'. rewrite (proj2 (N.ltb_lt _ _) Hi) in He'. congruence.
Qed.
End GraphFurther.

(** * Further properties of the import *)

Section ImportFurther.
Local Unset Default Proof Using.
Local Open Scope N_scope.
Context {NData EData : Type}.
Variable NData_init : NData.
Variable EData_init : EData.
Variable NData_extract : string -> NData.
Variable EData_extract : string -> EData.
Implicit Types (s : @GState NData EData) (g : Graph) (i j src tgt : N).
Implicit Types (e : Edge EData).

(** [s'] is a well-formed state of the graph of [s] that has everything
    [s] has: the nodes and the edges of [s] are in [s'] under the same ids,
    at the same addresses and with the same content, and a pair that has an
    edge in [s] has the same edge in [s'] *)
Definition grows s s' : Prop :=
  Graph_wf s' /\
  is_undirected (g_this s') = is_undirected (g_this s) /\
  node_count (g_this s) <= node_count (g_this s') /\
  edge_count (g_this s) <= edge_count (g_this s') /\
  (forall i, i < node_count (g_this s) ->
     node_at s' i = node_at s i /\
     ref (nodes_of (g_this s')) i = ref (nodes_of (g_this s)) i) /\
  (forall i, i < edge_count (g_this s) ->
     edge_at s' i = edge_at s i /\
     ref (edges_of (g_this s')) i = ref (edges_of (g_this s)) i) /\
  (forall a b q, matrix_get (matrix_of (g_this s)) a b = Some (Some q) ->
     matrix_get (matrix_of (g_this s')) a b = Some (Some q)).

Lemma grows_refl s : Graph_wf s -> grows s s.
Proof. intros Hwf. by split_and!. Qed.

Lemma grows_trans s1 s2 s3 : grows s1 s2 -> grows s2 s3 -> grows s1 s3.
Proof.
  intros (_ & U1 & N1 & E1 & Hn1 & He1 & Hm1) (W2 & U2 & N2 & E2 & Hn2 & He2 & Hm2).
  split_and!; try done; try lia; try congruence.
  - intros i Hi. destruct (Hn1 i Hi) as [<- <-]. apply Hn2. lia.
  - intros i Hi. destruct (He1 i Hi) as [<- <-]. apply He2. lia.
  - intros a b q H. by apply Hm2, Hm1.
Qed.

Lemma stable_grows s s' : stable s s' -> grows s s'.
Proof.
  intros (W & (Hn & Hnodes & Hnrefs & Hm & Hedges & Herefs & Hmatrix & Hun) & _).
  split_and!; try done; try lia.
  - intros i Hi. split; [done | by apply Hnrefs].
  - intros i Hi. split; [done | by apply Herefs].
  - intros a b q. by rewrite Hmatrix.
Qed.

Lemma add_node_post_grows id data s s' p :
  Graph_wf s -> add_node_post id data s s' p -> grows s s'.
Proof.
  intros Hwf (Hid & W & Hcount & _ & _ & Hold & Heh & Hed & Hun & Hm & _).
  split_and!; try done; try lia.
  - unfold edge_count. by rewrite Hed.
  - intros i Hi. apply Hold. lia.
  - intros i Hi. unfold edge_at. by rewrite Heh, Hed.
  - intros a b q Hq. rewrite Hm. by apply (matrix_get_grown_Some _ _ a b q (wf_square _ Hwf)).
Qed.

Lemma add_edge_post_grows id source target data s s' p :
  Graph_wf s -> add_edge_post id source target data s s' p -> grows s s'.
Proof.
  intros Hwf (Hid & _ & _ & Hfree & W & Hcount & _ & _ & Hold & Hnh & Hnd & Hun & Hcells & _).
  split_and!; try done; try lia.
  - unfold node_count. by rewrite Hnd.
  - intros i Hi. unfold node_at. by rewrite Hnh, Hnd.
  - intros i Hi. apply Hold. lia.
  - intros a b q Hq. rewrite Hcells. case_decide as Hw; [|done]. exfalso.
    destruct Hw as [[-> ->] | (Hundirected & -> & ->)]; [congruence|].
    rewrite (matrix_symmetric s target source Hwf Hundirected) in Hq. congruence.
Qed.

Lemma Nodes_add_grows id data s :
  Graph_wf s ->
  wp (Nodes_add NData_init id data) s (fun s' _ => grows s s') (fun s' _ => grows s s').
Proof.
  intros Hwf. eapply wp_mono; [by apply Nodes_add_spec | |].
  - intros s' p [Hpost _]. by eapply add_node_post_grows.
  - intros s' ex [(_ & _ & ->) | [(_ & _ & ->) | (_ & _ & Hst & _)]];
      [by apply grows_refl | by apply grows_refl | by apply stable_grows].
Qed.

Lemma Edges_add_grows id source target data s :
  Graph_wf s ->
  wp (Edges_add EData_init id source target data) s
    (fun s' _ => grows s s') (fun s' _ => grows s s').
Proof.
  intros Hwf. eapply wp_mono; [by apply Edges_add_spec | |].
  - intros s' p [Hpost _]. by eapply add_edge_post_grows.
  - intros s' ex [(_ & _ & ->) | [(_ & _ & ->) | [(_ & _ & _ & ->) |
                  [(_ & _ & _ & ->) | (_ & _ & _ & Hst & _)]]]];
      try (by apply grows_refl). by apply stable_grows.
Qed.

Lemma import_line_grows iss s :
  Graph_wf s ->
  wp (import_line NData_init EData_init NData_extract EData_extract iss) s
    (fun s' _ => grows s s') (fun s' _ => grows s s').
Proof.
  intros Hwf. unfold import_line. destruct (negb (good iss)); [by apply wp_ret, grows_refl|].
  destruct (getline _ _) as [prefix iss0].
  destruct (String.eqb prefix "node").
  { unfold import_node. destruct (negb (good iss0)); [by apply wp_ret, grows_refl|].
    destruct (parse_id _ _) as [[id iss1]|]; [|by apply wp_throw, grows_refl].
    destruct (getline _ _) as [data_string iss2].
    apply wp_bind. eapply wp_mono; [by apply Nodes_add_grows | | done].
    intros s' p H. by apply wp_ret. }
  destruct (String.eqb prefix "edge"); [|by apply wp_ret, grows_refl].
  unfold import_edge. destruct (negb (good iss0)); [by apply wp_ret, grows_refl|].
  destruct (parse_id _ _) as [[source_id iss1]|]; [|by apply wp_throw, grows_refl].
  destruct (parse_id _ _) as [[edge_id iss2]|]; [|by apply wp_throw, grows_refl].
  destruct (getline _ _) as [data_string iss3].
  destruct (parse_id _ _) as [[target_id iss4]|]; [|by apply wp_throw, grows_refl].
  apply wp_bind. eapply wp_mono; [by apply Edges_add_grows | | done].
  intros s' p H. by apply wp_ret.
Qed.

(** the lines that the loop of the import reads from a text: the last one
    need not end in a new line, and nothing follows the last new line *)
Fixpoint text_lines (buf : string) : list string :=
  match buf with
  | EmptyString => []
  | String c rest =>
      if Ascii.eqb c "010" then EmptyString :: text_lines rest
      else match text_lines rest with
           | [] => [String c EmptyString]
           | line :: lines => String c line :: lines
           end
  end.

(** [import_line] on each line, until one throws *)
Fixpoint import_each (lines : list string) : M (@GState NData EData) unit :=
  match lines with
  | [] => ret tt
  | line :: lines =>
      import_line NData_init EData_init NData_extract EData_extract (istringstream line) ;;;
      import_each lines
  end.

(** the first word of a line is one of the two that the import knows *)
Definition is_record (line : string) : bool :=
  let prefix := (getline (istringstream line) " ").1 in
  String.eqb prefix "node" || String.eqb prefix "edge".

Lemma text_lines_getline buf :
  text_lines buf =
  match getline_chars buf "010" with
  | (str, Some rest) => str :: text_lines rest
  | (str, None) => if String.eqb str "" then [] else [str]
  end.
Proof.
  induction buf as [|c buf IH]; [done|]. cbn [text_lines getline_chars].
  destruct (Ascii.eqb c "010"); [done|]. rewrite IH.
  destruct (getline_chars buf "010") as [str [rest|]]; [done|].
  destruct str; done.
Qed.

Lemma import_lines_each fuel buf s :
  (String.length buf <= fuel)%nat ->
  import_lines NData_init EData_init NData_extract EData_extract fuel
    (mkIstream buf false false) s
  = import_each (text_lines buf) s.
Proof.
  revert buf s. induction fuel as [|fuel IH]; intros buf s Hfuel.
  - destruct buf; [done | simpl in Hfuel; lia].
  - rewrite text_lines_getline. cbn [import_lines]. unfold getline. simpl.
    destruct (getline_chars buf "010") as [str [rest|]] eqn:E; simpl.
    + apply bind_ext. intros y []. apply IH.
      apply getline_chars_Some in E. lia.
    + destruct (String.eqb str "") eqn:Es; [done|]. simpl.
      apply bind_ext. intros y []. by destruct fuel.
Qed.

Lemma import_each_records lines s :
  import_each (filter (fun line => is_record line = true) lines) s = import_each lines s.
Proof.
  revert s. induction lines as [|line lines IH]; intros s; [done|].
  rewrite filter_cons. destruct (decide (is_record line = true)) as [Hr|Hr].
  - simpl. apply bind_ext. intros y []. apply IH.
  - rewrite IH. simpl. unfold bind at 1.
    assert (import_line NData_init EData_init NData_extract EData_extract
              (istringstream line) s = Ok s tt) as ->; [|done].
    unfold is_record in Hr. unfold import_line. simpl.
    destruct (getline (istringstream line) " ") as [prefix iss]. simpl in Hr.
    destruct (String.eqb prefix "node"); [done|].
    destruct (String.eqb prefix "edge"); done.
Qed.

Lemma import_each_grows lines s :
  Graph_wf s ->
  wp (import_each lines) s (fun s' _ => grows s s') (fun s' _ => grows s s').
Proof.
  revert s. induction lines as [|line lines IH]; intros s Hwf.
  - by apply wp_ret, grows_refl.
  - simpl. apply wp_bind. eapply wp_mono; [by apply import_line_grows | | done].
    intros s1 [] H1. cbv beta.
    eapply wp_mono; [apply IH, H1 | |].
    + intros s2 [] H2. by eapply grows_trans.
    + intros s2 ex H2. by eapply grows_trans.
Qed.

Lemma Graph_import_each text s :
  Graph_import NData_init EData_init NData_extract EData_extract (istringstream text) s
  = import_each (text_lines text) s.
Proof. exact (import_lines_each (String.length text) text s (le_n _)). Qed.

(** X19: the import of a text, whatever the text, ends, and whether it
    returns or throws it leaves a well-formed graph that has everything the
    graph had: the same nodes and edges under the same ids, at the same
    addresses and with the same content, and the same edge for every pair
    that had one.  An import that fails half way keeps what it has added,
    and takes nothing away. *)
Theorem import_only_adds text s :
  Graph_wf s ->
  wp (Graph_import NData_init EData_init NData_extract EData_extract (istringstream text)) s
    (fun s' _ => grows s s') (fun s' _ => grows s s').
Proof.
  intros Hwf. unfold wp. rewrite Graph_import_each. by apply import_each_grows.
Qed.

(** X20: the import of a text runs [import_line] on its lines, in order,
    until one throws, and the lines whose first word is neither [node] nor
    [edge] count for nothing: the result is that of importing, one after the
    other, the lines that begin with one of the two words. *)
Theorem import_reads_the_records text s :
  Graph_import NData_init EData_init NData_extract EData_extract (istringstream text) s
  = import_each (filter (fun line => is_record line = true) (text_lines text)) s.
Proof.
  by rewrite Graph_import_each, import_each_records.
Qed.

Lemma read_digits_uint_app d c rest acc :
  is_digit c = false ->
  read_digits (NilEmpty.string_of_uint d +:+ String c rest) acc
  = (uint_value d acc, String.length (NilEmpty.string_of_uint d)).
Proof.
  intros Hc. revert acc. induction d; intros acc; cbn [NilEmpty.string_of_uint uint_value];
    string_cons; cbn [read_digits];
    [|match goal with
      | |- context [digit_of ?x] =>
          let v := eval vm_compute in (digit_of x) in change (digit_of x) with v
      end; cbv iota beta; by rewrite IHd..].
  unfold is_digit in Hc. apply bool_decide_eq_false in Hc.
  destruct (digit_of c) eqn:E; [|done]. exfalso. apply Hc. by eexists.
Qed.

Lemma stoi_negative n :
  1 <= n <= 2147483648 ->
  stoi (String "-" (print_size_t n))
  = Some ((- Z.of_N n)%Z, Datatypes.S (String.length (print_size_t n))).
Proof.
  intros Hn. unfold stoi, print_size_t. cbn [skip_spaces].
  change (isspace "-") with false. cbv iota beta.
  rewrite read_digits_uint, uint_value_to_uint.
  destruct (String.length (NilEmpty.string_of_uint (N.to_uint n))) as [|k] eqn:Hlen.
  { pose proof (to_uint_nonnil n). by destruct (N.to_uint n). }
  assert (((INT_MIN <=? - Z.of_N n) && (- Z.of_N n <=? INT_MAX))%Z = true) as ->.
  { apply andb_true_iff. split; apply Z.leb_le; unfold INT_MIN, INT_MAX; lia. }
  done.
Qed.

Lemma size_t_of_int_negative n :
  1 <= n <= 2147483648 -> size_t_of_int (- Z.of_N n) = 2 ^ 64 - n.
Proof.
  intros Hn. unfold size_t_of_int.
  replace (- Z.of_N n)%Z with (Z.of_N (2 ^ 64 - n) + (-1) * 2 ^ 64)%Z.
  2:{ rewrite N2Z.inj_sub by (transitivity 2147483648; [lia | done]).
      change (Z.of_N (2 ^ 64)) with (2 ^ 64)%Z. lia. }
  rewrite Z.mod_add by done. rewrite Z.mod_small; [apply N2Z.id|].
  split; [lia|]. rewrite N2Z.inj_sub by (transitivity 2147483648; [lia | done]).
  change (Z.of_N (2 ^ 64)) with (2 ^ 64)%Z. lia.
Qed.

(** X21: [parse_id] accepts a minus sign, as [std::stoi] does, and the
    [int] it reads becomes a [size_t]: the digits of [n], from 1 to
    2147483648, after a minus sign are read as the id [2 ^ 64 - n].  A node
    line with such an id is refused by [add] as an invalid id, the graph
    having fewer nodes than that. *)
Theorem import_wraps_negative_ids n delim rest text s :
  1 <= n <= 2147483648 ->
  is_digit delim = false -> delim <> "-"%char ->
  lacks "}" text = true ->
  node_count (g_this s) < 2 ^ 64 - n ->
  parse_id (mkIstream (String "-" (print_size_t n) +:+ String delim rest) false false) delim
  = Some (2 ^ 64 - n, mkIstream rest false false) /\
  import_line NData_init EData_init NData_extract EData_extract
    (istringstream ("node (-" +:+ print_size_t n +:+ " {" +:+ text +:+ "})")) s
  = Throw s InvalidIdentifierException.
Proof.
  intros Hn Hdelim Hminus Htext Hcount.
  assert (forall d r, is_digit d = false -> d <> "-"%char ->
            parse_id (mkIstream (String "-" (print_size_t n) +:+ String d r) false false) d
            = Some (2 ^ 64 - n, mkIstream r false false)) as Hparse.
  { intros d r Hd Hm. unfold parse_id. rewrite getline_app.
    - rewrite (stoi_negative n Hn). cbn [String.length]. rewrite Nat.eqb_refl.
      by rewrite (size_t_of_int_negative n Hn).
    - cbn [lacks]. rewrite lacks_print_size_t by done. rewrite andb_true_r.
      apply negb_true_iff, Ascii.eqb_neq. congruence. }
  split; [by apply Hparse|].
  unfold import_line, istringstream. string_cons.
  change (String "n" (String "o" (String "d" (String "e" (String " " ?x)))))
    with ("node" +:+ String " " x).
  rewrite (getline_app "node" " ") by done. cbn [good eofbit failbit negb andb].
  change (String.eqb "node" "node") with true. cbv iota.
  unfold import_node. cbn [good eofbit failbit negb andb].
  rewrite istream_get_cons.
  change (String "-" (print_size_t n +:+ String " " ?x))
    with (String "-" (print_size_t n) +:+ String " " x).
  rewrite Hparse by done. rewrite istream_get_cons.
  rewrite getline_app by done.
  unfold bind, Nodes_add, bind. rewrite Nodes_size_eq.
  by rewrite (proj2 (N.ltb_lt _ _) Hcount).
Qed.

(** X22: [parse_id] refuses an empty id and an id that anything but the
    delimiter follows: after the digits of [n], characters that start with
    one that is not a digit make it fail, as does a field with nothing in
    it, and the import then throws [ParsingException]. *)
Theorem parse_id_refuses_what_is_not_an_id n c junk delim rest :
  is_digit c = false -> c <> delim -> lacks delim junk = true ->
  is_digit delim = false ->
  parse_id (mkIstream (String delim rest) false false) delim = None /\
  parse_id (mkIstream (print_size_t n +:+ String c junk +:+ String delim rest) false false)
    delim = None.
Proof.
  intros Hc Hne Hjunk Hdelim. split.
  - unfold parse_id, getline. simpl. by rewrite Ascii.eqb_refl.
  - unfold parse_id.
    rewrite <- append_assoc.
    rewrite getline_app.
    2:{ rewrite lacks_app, lacks_print_size_t by done. cbn [lacks andb]. rewrite Hjunk.
        rewrite andb_true_r. by apply negb_true_iff, Ascii.eqb_neq. }
    unfold stoi, print_size_t.
    assert (forall d : Decimal.uint, d <> Decimal.Nil ->
              skip_spaces (NilEmpty.string_of_uint d +:+ String c junk)
              = (NilEmpty.string_of_uint d +:+ String c junk, O)) as Hskip
      by (intros d Hd; by destruct d).
    rewrite Hskip by apply to_uint_nonnil.
    assert (forall d : Decimal.uint, d <> Decimal.Nil ->
              (match NilEmpty.string_of_uint d +:+ String c junk with
               | String "-"%char r => (true, r, 1%nat)
               | String "+"%char r => (false, r, 1%nat)
               | _ => (false, NilEmpty.string_of_uint d +:+ String c junk, O)
               end) = (false, NilEmpty.string_of_uint d +:+ String c junk, O)) as Hsign
      by (intros d Hd; by destruct d).
    rewrite Hsign by apply to_uint_nonnil.
    rewrite read_digits_uint_app by done.
    destruct (String.length (NilEmpty.string_of_uint (N.to_uint n))) as [|k] eqn:Hlen; [done|].
    destruct (_ && _)%Z; [|done].
    rewrite length_append, Hlen. cbn [String.length Nat.add].
    rewrite (proj2 (Nat.eqb_neq _ _)); [done | lia].
Qed.
End ImportFurther.

(** * Further properties of the export *)

Section ExportFurther.
Local Unset Default Proof Using.
Local Open Scope N_scope.
Context {NData EData : Type}.
Variable NData_init : NData.
Variable EData_init : EData.
Variable NData_print : NData -> string.
Variable EData_print : EData -> string.
Variable NData_extract : string -> NData.
Variable EData_extract : string -> EData.
Implicit Types (s t : @GState NData EData) (i j src tgt : N) (e : Edge EData).

Lemma lines_from_ext count from line line' :
  (forall i, from <= i < from + N.of_nat count -> line i = line' i) ->
  lines_from count from line = lines_from count from line'.
Proof.
  revert from. induction count as [|count IH]; intros from Hext; [done|].
  cbn [lines_from]. rewrite (Hext from) by lia. rewrite (IH (from + 1)); [done|].
  intros i Hi. apply Hext. lia.
Qed.

Lemma source_id_of_end_id s j e src :
  edge_at s j = Some e -> source_id_of j s = Ok s src -> end_id s (Edge_source_ e) = src.
Proof.
  intros He. unfold source_id_of, bind. rewrite (edges_subscript_eq s j e He).
  unfold deref_node, bind, from_option, gets, ret, end_id.
  destruct (Edge_source_ e) as [q|]; [|done]. simpl.
  destruct (load (nheap s) q) as [n|]; [|done]. by intros [= <-].
Qed.

Lemma target_id_of_end_id s j e tgt :
  edge_at s j = Some e -> target_id_of j s = Ok s tgt -> end_id s (Edge_target_ e) = tgt.
Proof.
  intros He. unfold target_id_of, bind. rewrite (edges_subscript_eq s j e He).
  unfold deref_node, bind, from_option, gets, ret, end_id.
  destruct (Edge_target_ e) as [q|]; [|done]. simpl.
  destruct (load (nheap s) q) as [n|]; [|done]. by intros [= <-].
Qed.

(** two states that hold the same graph are written alike *)
Lemma same_graph_print s t :
  Graph_wf s -> Graph_wf t -> same_graph s t ->
  forall text, Graph_print NData_print EData_print s = Ok s text ->
               Graph_print NData_print EData_print t = Ok t text.
Proof.
  intros Hwf Hwft (Hn & Hm & Hnodes & Hedges) text.
  rewrite (Graph_print_eq NData_print EData_print s Hwf).
  rewrite (Graph_print_eq NData_print EData_print t Hwft).
  intros [= <-]. rewrite Hn, Hm. f_equal. f_equal.
  - apply lines_from_ext. intros i Hi. unfold nodes_line, node_text.
    destruct (elem_is_Some _ _ i (wf_nodes _ Hwf)) as [n Hnode];
      [unfold node_count in Hi; lia|].
    destruct (Hnodes i n Hnode) as (n' & Hnode' & _ & Hdata).
    fold (node_at s i) in Hnode. by rewrite Hnode, Hnode', Hdata.
  - apply lines_from_ext. intros j Hj. unfold edges_line.
    destruct (elem_is_Some _ _ j (wf_edges _ Hwf)) as [e Hedge];
      [unfold edge_count in Hj; lia|].
    fold (edge_at s j) in Hedge.
    destruct (Hedges j e Hedge) as (e' & src & tgt & Hedge' & Hid & Hdata & Hs & Ht & Hs' & Ht').
    rewrite Hedge, Hedge', Hid, Hdata.
    rewrite (source_id_of_end_id s j e src Hedge Hs).
    rewrite (target_id_of_end_id s j e tgt Hedge Ht).
    rewrite (source_id_of_end_id t j e' src Hedge' Hs').
    by rewrite (target_id_of_end_id t j e' tgt Hedge' Ht').
Qed.

(** X23: the export of a well-formed graph is read back and written again
    to the same text, when the graph has at most 2147483648 nodes and
    2147483648 edges and payloads that are written without a closing brace
    or a new line and read back to themselves: the import of the text into
    a new graph of the same kind returns, with a well-formed graph whose
    export is the text, character for character. *)
Theorem export_import_export s nh eh :
  Graph_wf s ->
  safe_payloads NData_print EData_print NData_extract EData_extract s ->
  node_count (g_this s) <= 2147483648 ->
  edge_count (g_this s) <= 2147483648 ->
  exists text t,
    Graph_print NData_print EData_print s = Ok s text /\
    Graph_import NData_init EData_init NData_extract EData_extract (istringstream text)
      (mkGState [] nh eh (Graph_ctor (is_undirected (g_this s)))) = Ok t tt /\
    Graph_wf t /\
    Graph_print NData_print EData_print t = Ok t text.
Proof.
  intros Hwf Hsafe Hn Hm.
  destruct (export_import_round_trip NData_init EData_init NData_print EData_print
              NData_extract EData_extract s nh eh Hwf Hsafe Hn Hm)
    as (text & t & Hprint & Himport & Hwft & Hsame).
  exists text, t. split_and!; try done. by apply (same_graph_print s t).
Qed.

End ExportFurther.

(** * Further properties of programs over several graphs *)

Section WorldFurther.
Local Unset Default Proof Using.
Local Open Scope N_scope.
Context {NData EData : Type}.
Variable NData_init : NData.
Variable EData_init : EData.
Variable NData_extract : string -> NData.
Variable EData_extract : string -> EData.
Implicit Types (w : @World NData EData) (g : Graph).

(** the operations that act on one graph through its nodes and edges *)
Definition target (op : @operation NData EData) : option nat :=
  match op with
  | op_add_node g _ _ | op_add_edge g _ _ _ _ | op_import g _ => Some g
  | _ => None
  end.

(** the graph [gj] is at position [j] of [w'], well-formed, with the nodes
    and the edges it has in [w] *)
Definition untouched (j : nat) (gj : Graph) w w' : Prop :=
  w_graphs w' !! j = Some gj /\
  Graph_wf (enter [] w' gj) /\
  (forall k, node_at (enter [] w' gj) k = node_at (enter [] w gj) k) /\
  (forall k, edge_at (enter [] w' gj) k = edge_at (enter [] w gj) k).

Lemma leave_untouched script i j gi gj w s' :
  World_inv w -> w_graphs w !! i = Some gi -> j <> i -> w_graphs w !! j = Some gj ->
  evolves (enter script w gi) s' ->
  untouched j gj w (leave i w s').
Proof.
  intros Hinv Hgi Hne Hgj Hev.
  pose proof (World_inv_evolve script i w gi s' Hinv Hgi Hev) as Hinv'.
  destruct Hev as (_ & [Fn _] & [Fe _] & _). simpl in Fn, Fe.
  destruct (proj2 Hinv j i gj gi Hne Hgj Hgi) as [S1 S2].
  pose proof (proj1 Hinv j gj Hgj) as Hwfj.
  assert (w_graphs (leave i w s') !! j = Some gj) as Hgj'.
  { unfold leave. simpl. by rewrite list_lookup_insert_ne. }
  split; [done|]. split; [by apply (proj1 Hinv' j)|]. split.
  - intros k. eapply elem_frame; [exact (wf_nodes _ Hwfj) | exact Fn | exact S1].
  - intros k. eapply elem_frame; [exact (wf_edges _ Hwfj) | exact Fe | exact S2].
Qed.

Lemma on_graph_untouched {A} script i j gi gj (m : M GState A) w :
  World_inv w -> w_graphs w !! i = Some gi -> j <> i -> w_graphs w !! j = Some gj ->
  (Graph_wf (enter script w gi) ->
   wp m (enter script w gi)
     (fun s' _ => evolves (enter script w gi) s')
     (fun s' _ => evolves (enter script w gi) s')) ->
  match on_graph script i m w with
  | Ok w' _ => untouched j gj w w'
  | Throw w' _ => untouched j gj w w'
  | Undefined => False
  end.
Proof.
  intros Hinv Hgi Hne Hgj Hm. unfold on_graph. rewrite Hgi.
  pose proof (proj1 (Graph_wf_script script w gi) (proj1 Hinv _ _ Hgi)) as Hwfi.
  specialize (Hm Hwfi). unfold wp in Hm.
  destruct (m (enter script w gi)) as [s' a|s' ex|]; [| |done];
    by eapply leave_untouched.
Qed.

(** X25: in a world that a program has reached, adding a node or an edge
    to one graph, or importing a text into it, ends and leaves every other
    graph as it was, whether the operation returns or throws: the other
    graph is well-formed and has the same nodes and edges.  Graphs, copies
    of one another included, share nothing. *)
Theorem graphs_do_not_interfere script op w i j gi gj :
  reachable NData_init EData_init NData_extract EData_extract w ->
  target op = Some i ->
  w_graphs w !! i = Some gi -> j <> i -> w_graphs w !! j = Some gj ->
  match run NData_init EData_init NData_extract EData_extract script op w with
  | Ok w' _ => untouched j gj w w'
  | Throw w' _ => untouched j gj w w'
  | Undefined => False
  end.
Proof.
  intros Hreach Htarget Hgi Hne Hgj.
  pose proof (reachable_inv NData_init EData_init NData_extract EData_extract w Hreach) as Hinv.
  destruct op as [u|g id data|g id src tgt data|g|dst src|g|dst src|g text];
    try done; injection Htarget as ->; unfold run.
  - apply (on_graph_untouched script i j gi gj); try done. intros Hwf. apply wp_bind.
    eapply wp_mono; [by apply Nodes_add_evolves | |]; [by intros; apply wp_ret | done].
  - apply (on_graph_untouched script i j gi gj); try done. intros Hwf. apply wp_bind.
    eapply wp_mono; [by apply Edges_add_evolves | |]; [by intros; apply wp_ret | done].
  - apply (on_graph_untouched script i j gi gj); try done. intros Hwf.
    by apply (Graph_import_evolves NData_init EData_init NData_extract EData_extract).
Qed.
End WorldFurther.

(** * Printing and traversing an array *)

Section ArrayText.
Local Unset Default Proof Using.
Local Open Scope N_scope.
Context {element : Type}.
Variable element_print : element -> string.
Implicit Types (s : @AState element).

(** [for (size_t i = from; i < element_count_; i++) { os << data_[i /
    block_size_][i % block_size_]; if (i != element_count_ - 1) os << ", "; }]
    for the [count] indices that are left: what is written *)
Fixpoint print_elements (count : nat) (from : N) : M (@AState element) string :=
  match count with
  | O => ret EmptyString
  | S count' =>
      let* p := slot from in
      let* x := read p in
      let* n := Array_size in
      let separator :=
        if from =? size_t_of_int (Z.of_N n - 1) then EmptyString else ", " in
      let* rest := print_elements count' (from + 1) in
      ret (element_print x +:+ separator +:+ rest)
  end.

(** [Array::print(os)]: what is written *)
Definition Array_print : M (@AState element) string :=
  let* n := Array_size in
  let* body := print_elements (N.to_nat n) 0 in
  ret ("[" +:+ body +:+ "]").

(** an iterator of the array [a_this] *)
Record iterator : Type := mkIterator { position_ : N }.

Definition Array_begin : M (@AState element) iterator := ret (mkIterator 0).

Definition Array_end : M (@AState element) iterator :=
  let* n := Array_size in ret (mkIterator n).

(** [operator==] and [operator!=] *)
Definition iterator_eq (a b : iterator) : bool := position_ a =? position_ b.
Definition iterator_ne (a b : iterator) : bool := negb (position_ a =? position_ b).

(** [operator++] and [operator--], on a [size_t] *)
Definition iterator_incr (it : iterator) : iterator :=
  mkIterator (size_t_of_int (Z.of_N (position_ it) + 1)).
Definition iterator_decr (it : iterator) : iterator :=
  mkIterator (size_t_of_int (Z.of_N (position_ it) - 1)).

(** [operator+] and [operator-], the movement being a [std::ptrdiff_t] *)
Definition iterator_plus (it : iterator) (movement : Z) : iterator :=
  mkIterator (size_t_of_int (Z.of_N (position_ it) + movement)).
Definition iterator_minus (it : iterator) (movement : Z) : iterator :=
  mkIterator (size_t_of_int (Z.of_N (position_ it) - movement)).

(** the dereferencing operator: the element of its array at [position_],
    through [Array::operator[]] *)
Definition iterator_deref (it : iterator) : M (@AState element) ptr :=
  Array_get_ (position_ it).

(** the loop [for (; it != last; ++it)] with [it] dereferenced in its body:
    the addresses visited *)
Fixpoint visit_until (fuel : nat) (it last : iterator) : M (@AState element) (list ptr) :=
  if iterator_ne it last then
    match fuel with
    | O => undefined
    | S fuel' =>
        let* p := iterator_deref it in
        let* rest := visit_until fuel' (iterator_incr it) last in
        ret (p :: rest)
    end
  else ret [].

(** [for (auto& x : array) visit(x);] *)
Definition range_for : M (@AState element) (list ptr) :=
  let* first := Array_begin in
  let* last := Array_end in
  let* n := Array_size in
  visit_until (N.to_nat n) first last.

Lemma size_t_of_int_small (n : N) (z : Z) :
  (0 <= Z.of_N n + z <= Z.of_N SIZE_MAX)%Z ->
  size_t_of_int (Z.of_N n + z) = Z.to_N (Z.of_N n + z).
Proof.
  intros Hz. unfold size_t_of_int. rewrite Z.mod_small; [done|].
  unfold SIZE_MAX in Hz. lia.
Qed.

Lemma elements_length s (xs : list element) :
  Array_wf (a_heap s) (a_this s) ->
  (forall i, elem (a_heap s) (a_this s) i = xs !! N.to_nat i) ->
  length xs = N.to_nat (element_count_ (a_this s)).
Proof.
  intros Hwf Hxs. set (n := element_count_ (a_this s)).
  assert (length xs <= N.to_nat n)%nat.
  { apply lookup_ge_None. rewrite <- Hxs. apply elem_ge. lia. }
  destruct (decide (N.to_nat n <= length xs)%nat) as [?|Hlt]; [lia|].
  exfalso. assert (N.of_nat (length xs) < n) as Hi by lia.
  destruct (elem_is_Some _ _ _ Hwf Hi) as [x Hx].
  rewrite Hxs, Nat2N.id in Hx. apply lookup_lt_Some in Hx. lia.
Qed.

Lemma print_elements_eq s (xs : list element) r from :
  Array_wf (a_heap s) (a_this s) ->
  element_count_ (a_this s) <= SIZE_MAX ->
  (forall i, elem (a_heap s) (a_this s) i = xs !! N.to_nat i) ->
  from + N.of_nat r = element_count_ (a_this s) ->
  print_elements r from s
  = Ok s (String.concat ", " (element_print <$> drop (N.to_nat from) xs)).
Proof.
  intros Hwf Hmax Hxs. pose proof (elements_length s xs Hwf Hxs) as Hlen.
  revert from. induction r as [|r IH]; intros from Hfrom.
  - simpl. rewrite drop_ge by lia. done.
  - cbn [print_elements]. unfold bind.
    assert (from < element_count_ (a_this s)) as Hlt by lia.
    destruct (ref_lt_Some _ _ _ Hwf Hlt) as [p Hp].
    unfold slot. unfold ref in Hp. rewrite Hp. simpl.
    pose proof (Hxs from) as Hx. unfold elem, ref in Hx.
    rewrite (proj2 (N.ltb_lt _ _) Hlt), Hp in Hx. simpl in Hx.
    unfold read. rewrite Hx.
    destruct (xs !! N.to_nat from) as [x|] eqn:Hxfrom.
    2:{ apply lookup_ge_None in Hxfrom. lia. }
    simpl. unfold Array_size, gets.
    rewrite (IH (from + 1)) by lia. unfold ret.
    rewrite (drop_S _ _ _ Hxfrom). rewrite fmap_cons.
    replace (N.to_nat (from + 1)) with (Datatypes.S (N.to_nat from)) by lia.
    replace (Z.of_N (element_count_ (a_this s)) - 1)%Z
      with (Z.of_N (element_count_ (a_this s)) + -1)%Z by lia.
    rewrite size_t_of_int_small by (unfold SIZE_MAX in *; lia).
    destruct (from =? Z.to_N (Z.of_N (element_count_ (a_this s)) + -1)) eqn:E.
    + apply N.eqb_eq in E. rewrite drop_ge by lia. simpl.
      by rewrite !append_empty.
    + apply N.eqb_neq in E.
      destruct (drop (Datatypes.S (N.to_nat from)) xs) as [|y ys] eqn:Hd.
      { apply (f_equal length) in Hd. rewrite length_drop in Hd. simpl in Hd. lia. }
      done.
Qed.

(** X26: [print] writes the elements of the array in the order of their
    indices, between brackets, with a comma and a space between two
    elements and none after the last; an empty array is written [[]].  It
    reads slots that exist only, and changes nothing. *)
Theorem print_writes_the_elements s (xs : list element) :
  Array_wf (a_heap s) (a_this s) ->
  element_count_ (a_this s) <= SIZE_MAX ->
  (forall i, elem (a_heap s) (a_this s) i = xs !! N.to_nat i) ->
  Array_print s = Ok s ("[" +:+ String.concat ", " (element_print <$> xs) +:+ "]").
Proof.
  intros Hwf Hmax Hxs. unfold Array_print, bind, Array_size, gets.
  rewrite (print_elements_eq s xs _ 0 Hwf Hmax Hxs) by lia. done.
Qed.

Lemma visit_until_eq s r from :
  Array_wf (a_heap s) (a_this s) ->
  element_count_ (a_this s) <= SIZE_MAX ->
  from + N.of_nat r = element_count_ (a_this s) ->
  exists ps,
    visit_until r (mkIterator from) (mkIterator (element_count_ (a_this s))) s = Ok s ps /\
    length ps = r /\
    forall k, (k < r)%nat -> ps !! k = ref (a_this s) (from + N.of_nat k).
Proof.
  intros Hwf Hmax. revert from. induction r as [|r IH]; intros from Hfrom.
  - exists []. cbn [visit_until]. unfold iterator_ne. cbn [position_].
    rewrite (proj2 (N.eqb_eq from (element_count_ (a_this s)))) by lia.
    cbn [negb]. split; [done|]. split; [done|]. lia.
  - assert (from < element_count_ (a_this s)) as Hlt by lia.
    destruct (ref_lt_Some _ _ _ Hwf Hlt) as [p Hp].
    destruct (IH (from + 1)) as (ps & Hrun & Hlen & Hps); [lia|].
    exists (p :: ps). cbn [visit_until]. unfold iterator_ne. cbn [position_].
    rewrite (proj2 (N.eqb_neq from (element_count_ (a_this s)))) by lia.
    cbn [negb]. cbv iota.
    unfold bind, iterator_deref. cbn [position_].
    rewrite (Array_get__eq s from p Hlt Hp).
    unfold iterator_incr. cbn [position_].
    rewrite size_t_of_int_small by (unfold SIZE_MAX in *; lia).
    replace (Z.to_N (Z.of_N from + 1)) with (from + 1) by lia.
    rewrite Hrun. split; [done|]. split; [simpl; by rewrite Hlen|].
    intros [|k] Hk; simpl.
    + by rewrite N.add_0_r.
    + rewrite Hps by lia. f_equal. lia.
Qed.

(** X27: a traversal of an array from [begin()] to [end()] ends, throws
    nothing and changes nothing, and visits the slots of the indices from 0
    to the size less one, each once and in this order.  Dereferencing
    [end()] throws [OutOfRangeException], and so does dereferencing the
    iterator before [begin()], whose position has wrapped around; an
    iterator moved forward and back by the same amount is where it was. *)
Theorem traversal_visits_every_element s :
  Array_wf (a_heap s) (a_this s) ->
  element_count_ (a_this s) <= SIZE_MAX ->
  (exists ps,
     range_for s = Ok s ps /\
     length ps = N.to_nat (element_count_ (a_this s)) /\
     forall i, i < element_count_ (a_this s) -> ps !! N.to_nat i = ref (a_this s) i /\
                                                 is_Some (ref (a_this s) i)) /\
  (let* last := Array_end in iterator_deref last) s = Throw s OutOfRangeException /\
  (let* first := Array_begin in iterator_deref (iterator_decr first)) s
  = Throw s OutOfRangeException /\
  (forall it movement,
     position_ it <= SIZE_MAX ->
     iterator_minus (iterator_plus it movement) movement = it).
Proof.
  intros Hwf Hmax. split_and!.
  - destruct (visit_until_eq s (N.to_nat (element_count_ (a_this s))) 0 Hwf Hmax)
      as (ps & Hrun & Hlen & Hps); [lia|].
    exists ps. split; [|split; [done|]].
    + unfold range_for, bind, Array_begin, Array_end, Array_size, gets, ret. exact Hrun.
    + intros i Hi. rewrite Hps by lia. rewrite N2Nat.id, N.add_0_l.
      split; [done | by eapply ref_lt_Some].
  - unfold bind, Array_end, Array_size, gets, ret, iterator_deref, Array_get_, bind,
      Array_size, gets. simpl. by rewrite N.leb_refl.
  - unfold bind, Array_begin, ret, iterator_deref, iterator_decr, Array_get_, bind,
      Array_size, gets. cbn [position_].
    change (size_t_of_int (Z.of_N 0 - 1)) with SIZE_MAX.
    by rewrite (proj2 (N.leb_le _ _) Hmax).
  - intros [pos] movement Hpos. unfold iterator_minus, iterator_plus. simpl in *. f_equal.
    unfold size_t_of_int. rewrite Z2N.id by (apply Z.mod_pos_bound; done).
    rewrite Zminus_mod_idemp_l.
    replace (Z.of_N pos + movement - movement)%Z with (Z.of_N pos) by lia.
    rewrite Z.mod_small; [apply N2Z.id|]. unfold SIZE_MAX in Hpos. lia.
Qed.
End ArrayText.

(** * The further properties at work *)

(** An array of block size 10 that holds 7 and 8. *)
Definition filled_array : @AState N :=
  Eval vm_compute in
    match (Array_push_back 0%N 7%N ;;; Array_push_back 0%N 8%N)
            (mkAState [] [] (Array_ctor 10)) with
    | Ok s _ => s
    | _ => mkAState [] [] (Array_ctor 10)
    end.

Lemma filled_array_reachable destroy : Array_reachable 0%N destroy filled_array.
Proof.
  eapply (reachable_push_back _ _ _ 8%N).
  - eapply (reachable_push_back _ _ _ 7%N).
    + by apply (reachable_ctor _ _ [] [] 10).
    + reflexivity.
  - reflexivity.
Qed.

Lemma filled_array_wf : Array_wf (a_heap filled_array) (a_this filled_array).
Proof.
  exact (Array_reachable_wf 0%N (fun x => x) filled_array (filled_array_reachable _) eq_refl).
Qed.

Lemma filled_array_elements (i : N) :
  elem (a_heap filled_array) (a_this filled_array) i = [7%N; 8%N] !! N.to_nat i.
Proof.
  destruct (decide (i < 2)%N) as [Hi|Hi].
  - assert (i = 0 \/ i = 1)%N as [-> | ->] by lia; reflexivity.
  - rewrite elem_ge by (simpl; lia). symmetry. apply lookup_ge_None. simpl. lia.
Qed.

(** [pop_back] on the emptied array throws and leaves it as it is. *)
Lemma pop_back_keeps_the_blocks_witness :
  wp (Array_pop_back (fun x => x)) emptied_array
    (fun _ _ => False)
    (fun s' e => e = EmptyArrayException /\ s' = emptied_array).
Proof.
  eapply wp_mono;
    [exact (pop_back_keeps_the_blocks 0%N (fun x => x) emptied_array
              emptied_array_reachable) | |].
  - intros s' [] (Hpos & _). vm_compute in Hpos. discriminate.
  - intros s' e (He & Hs & _). split; [exact He | exact Hs].
Defined.

(** 9 pushed onto the filled array and popped again: 7 and 8 are there. *)
Lemma push_back_then_pop_back_witness :
  wp (Array_push_back 0%N 9%N ;;; Array_pop_back (fun x => x)) filled_array
    (fun s' _ =>
       element_count_ (a_this s') = 2%N /\
       elem (a_heap s') (a_this s') 0 = Some 7%N /\
       elem (a_heap s') (a_this s') 1 = Some 8%N)
    (fun _ e => e = UnavailableMemoryException).
Proof.
  eapply wp_mono;
    [exact (push_back_then_pop_back 0%N (fun x => x) 9%N filled_array
              (filled_array_reachable _) eq_refl) | |].
  - intros s' [] (Hcount & _ & _ & Helem & _).
    split; [exact Hcount|]. split; [exact (Helem 0%N) | exact (Helem 1%N)].
  - intros s' e (He & _). exact He.
Defined.

(** The filled array has no element of index 5. *)
Lemma at_checks_the_bounds_witness :
  wp (Array_get_ 5) filled_array
    (fun _ _ => False)
    (fun s' e => s' = filled_array /\ e = OutOfRangeException).
Proof.
  eapply wp_mono;
    [exact (at_checks_the_bounds 0%N (fun x => x) 5%N filled_array
              (filled_array_reachable _)) | |].
  - intros s' p (_ & Hlt & _). vm_compute in Hlt. discriminate.
  - intros s' e (Hs & _ & He). split; [exact Hs | exact He].
Defined.

(** The emptied array has the ten free slots of its block. *)
Lemma free_space_never_underflows_witness :
  (free_space_count_ (a_this emptied_array) + element_count_ (a_this emptied_array) = 10)%N.
Proof.
  destruct (free_space_never_underflows 0%N (fun x => x) emptied_array
              emptied_array_reachable) as (_ & Hfree & _).
  exact Hfree.
Defined.

(** A copy of the filled array, constructed in the memory that holds it. *)
Lemma array_copy_constructor_copies_witness :
  wp (Array_copy_ctor 0%N (a_this filled_array)) filled_array
    (fun s' _ =>
       elem (a_heap s') (a_this s') 0 = Some 7%N /\
       elem (a_heap s') (a_this s') 1 = Some 8%N /\
       a_heap s' !! 0%nat = a_heap filled_array !! 0%nat)
    (fun _ e => e = UnavailableMemoryException).
Proof.
  eapply wp_mono;
    [exact (array_copy_constructor_copies 0%N (a_this filled_array) filled_array
              filled_array_wf) | |].
  - intros s' [] (_ & _ & _ & Helem & _ & Hkept).
    split; [exact (Helem 0%N)|]. split; [exact (Helem 1%N)|].
    apply Hkept. simpl. lia.
  - intros s' e (He & _). exact He.
Defined.


(** The filled array assigned to itself, with a destructor that zeroes an
    element: the call returns and the elements are zero. *)
Lemma array_self_assignment_destroys_witness :
  exists s',
    Array_copy_assign 0%N (fun _ => 0%N) (a_this filled_array) filled_array = Ok s' tt /\
    elem (a_heap s') (a_this s') 0 = Some 0%N /\
    elem (a_heap s') (a_this s') 1 = Some 0%N.
Proof.
  destruct (array_self_assignment_destroys 0%N (fun _ => 0%N) filled_array filled_array_wf)
    as (s' & Hrun & _ & _ & Helem).
  exists s'. split; [exact Hrun|]. split; [exact (Helem 0%N) | exact (Helem 1%N)].
Defined.

(** The directed example has no node of id 7. *)
Lemma nodes_get_finds_the_node_witness :
  wp (Nodes_get 7) directed_example
    (fun _ _ => False)
    (fun s' ex => s' = directed_example /\ ex = NonexistingItemException).
Proof.
  eapply wp_mono; [exact (nodes_get_finds_the_node directed_example 7%N directed_example_wf) | |].
  - intros s' p (_ & Hlt & _). vm_compute in Hlt. discriminate.
  - intros s' ex (Hs & _ & He). split; [exact Hs | exact He].
Defined.

(** The edge of id 1 of the directed example is the edge of its ends. *)
Lemma edges_get_finds_the_edge_witness :
  wp (Edges_get 1) directed_example
    (fun s' p =>
       s' = directed_example /\
       exists e source target,
         load (eheap directed_example) p = Some e /\ Edge_id_ e = 1%N /\
         Edges_get_pair source target directed_example = Ok directed_example p)
    (fun _ ex => ex = NonexistingItemException).
Proof.
  eapply wp_mono; [exact (edges_get_finds_the_edge directed_example 1%N directed_example_wf) | |].
  - intros s' p (Hs & _ & _ & e & source & target & Hload & Hid & _ & _ & _ & _ & Hget).
    split; [exact Hs|]. exists e, source, target.
    split; [exact Hload|]. split; [exact Hid | exact Hget].
  - intros s' ex (_ & _ & He). exact He.
Defined.

(** In the directed example [get(0, 1)] finds an edge that [get] finds
    under its id, and [edges()[0][1]] is the same call. *)
Lemma get_pair_returns_iff_exists_witness :
  (let* request := Edges_subscript 0 in Request_subscript request 1) directed_example
  = Edges_get_pair 0 1 directed_example /\
  exists p i,
    Edges_get_pair 0 1 directed_example = Ok directed_example p /\
    Edges_get i directed_example = Ok directed_example p.
Proof.
  destruct (get_pair_returns_iff_exists directed_example 0%N 1%N directed_example_wf)
    as [Hsubscript Hexists].
  split; [exact Hsubscript|].
  change (Edges_exists_pair 0 1 directed_example) with (Ok directed_example true) in Hexists.
  destruct Hexists as (_ & p & i & e & Hpair & Hget & _).
  exists p, i. split; [exact Hpair | exact Hget].
Defined.

(** The directed example with a fourth node. *)
Definition with_fourth_node : @GState string string :=
  Eval vm_compute in
    match Nodes_add "" 3 "d" directed_example with
    | Ok s' _ => s'
    | _ => directed_example
    end.

Lemma node_add_then_get_witness :
  Nodes_get 3 with_fourth_node = Ok with_fourth_node (0%nat, 3%nat) /\
  Edges_exists_pair 3 0 with_fourth_node = Ok with_fourth_node false /\
  Edges_exists_pair 0 3 with_fourth_node = Ok with_fourth_node false.
Proof.
  assert (Nodes_add "" 3 "d" directed_example = Ok with_fourth_node (0%nat, 3%nat)) as Hrun
    by (vm_compute; reflexivity).
  destruct (node_add_then_get "" directed_example 3%N "d" with_fourth_node (0%nat, 3%nat)
              directed_example_wf Hrun) as (_ & Hget & _ & _ & Hnew & _).
  split; [exact Hget|]. apply (Hnew 0%N). lia.
Defined.

(** The directed example with a third edge, from node 0 to node 2. *)
Definition with_third_edge : @GState string string :=
  Eval vm_compute in
    match Edges_add "" 2 0 2 "z" directed_example with
    | Ok s' _ => s'
    | _ => directed_example
    end.

Lemma edge_add_then_get_witness :
  Edges_get 2 with_third_edge = Ok with_third_edge (0%nat, 2%nat) /\
  Edges_get_pair 0 2 with_third_edge = Ok with_third_edge (0%nat, 2%nat) /\
  Edges_exists_pair 0 2 directed_example = Ok directed_example false /\
  Edges_exists_pair 0 2 with_third_edge = Ok with_third_edge true.
Proof.
  assert (Edges_add "" 2 0 2 "z" directed_example = Ok with_third_edge (0%nat, 2%nat)) as Hrun
    by (vm_compute; reflexivity).
  destruct (edge_add_then_get "" directed_example 2%N 0%N 2%N "z" with_third_edge
              (0%nat, 2%nat) directed_example_wf Hrun)
    as (_ & Hget & Hpair & Hbefore & Hafter & _).
  split; [exact Hget|]. split; [exact Hpair|]. split; [exact Hbefore | exact Hafter].
Defined.

(** An edge from node 0 to node 1, which the directed example has, is
    refused, and the example is what it was. *)
Lemma edge_add_is_transactional_witness :
  Edges_add "" 2 0 1 "z" directed_example = Throw directed_example ConflictingItemException /\
  Graph_wf directed_example /\
  Edges_size directed_example = Ok directed_example 2%N.
Proof.
  assert (Edges_add "" 2 0 1 "z" directed_example
          = Throw directed_example ConflictingItemException) as Hrun
    by (vm_compute; reflexivity).
  destruct (edge_add_is_transactional "" directed_example 2%N 0%N 1%N "z" directed_example
              ConflictingItemException directed_example_wf Hrun)
    as (Hwf & _ & _ & _ & Hsize & _).
  split; [exact Hrun|]. split; [exact Hwf | exact Hsize].
Defined.

(** A node added to the directed example without an id is the node 3. *)
Lemma add_without_id_takes_the_next_id_witness :
  wp (Nodes_add_next "" "d") directed_example
    (fun s' p =>
       node_at s' 3 = Some (mkNode 3%N "d") /\ Nodes_get 3 s' = Ok s' p)
    (fun _ _ => False).
Proof.
  destruct (add_without_id_takes_the_next_id "" "" directed_example "d" "z" 0%N 2%N
              directed_example_wf) as [Hnode _].
  eapply wp_mono; [exact Hnode | |].
  - intros s' p (_ & _ & Hat & Hget). split; [exact Hat | exact Hget].
  - intros s' ex (_ & Hscript). apply Hscript. reflexivity.
Defined.

(** The matrix of the directed example, grown. *)
Lemma grow_adjacency_matrix_grows_or_restores_witness :
  wp grow_adjacency_matrix directed_example
    (fun s' _ =>
       square 4 (matrix_of (g_this s')) /\
       matrix_get (matrix_of (g_this s')) 3 3 = Some None /\
       matrix_get (matrix_of (g_this s')) 0 1
       = matrix_get (matrix_of (g_this directed_example)) 0 1)
    (fun _ _ => False).
Proof.
  eapply wp_mono;
    [exact (grow_adjacency_matrix_grows_or_restores directed_example 3
              (wf_square _ directed_example_wf)) | |].
  - intros s' [] (Hsquare & Hcells & _).
    split; [exact Hsquare|]. split; [exact (Hcells 3%N 3%N) | exact (Hcells 0%N 1%N)].
  - intros s' ex (_ & Hscript & _). apply Hscript. reflexivity.
Defined.

(** The matrix of the directed example, built again. *)
Lemma construct_adjacency_matrix_rebuilds_witness :
  wp construct_adjacency_matrix directed_example
    (fun s' _ => g_this s' = g_this directed_example)
    (fun _ ex => ex = UnavailableMemoryException).
Proof.
  eapply wp_mono;
    [exact (construct_adjacency_matrix_rebuilds directed_example directed_example_wf) | |].
  - intros s' [] (Hthis & _). exact Hthis.
  - intros s' ex He. exact He.
Defined.

Lemma update_pointers_changes_nothing_witness :
  wp update_source_and_target_pointers directed_example
    (fun s' _ => g_this s' = g_this directed_example /\
                 edge_at s' 0 = edge_at directed_example 0)
    (fun _ _ => False).
Proof.
  eapply wp_mono;
    [exact (update_pointers_changes_nothing directed_example directed_example_wf) | |].
  - intros s' [] (Hthis & _ & _ & Hedges). split; [exact Hthis | exact (Hedges 0%N)].
  - intros s' ex H. exact H.
Defined.

(** A text with a good line and a bad one, imported into the directed
    example: the import throws, and the example has lost nothing. *)
Lemma import_only_adds_witness :
  wp (Graph_import "" "" string_extract string_extract
        (istringstream ("node (3 {d})" +:+ endl +:+ "node (x {e})")))
     directed_example
    (fun s' _ => grows directed_example s')
    (fun s' _ => grows directed_example s').
Proof.
  exact (import_only_adds "" "" string_extract string_extract _ directed_example
           directed_example_wf).
Defined.

(** The node line of id -1 is refused as an invalid id. *)
Lemma import_wraps_negative_ids_witness :
  parse_id (mkIstream ("-1 {x})") false false) " "
  = Some (18446744073709551615%N, mkIstream "{x})" false false) /\
  import_line "" "" string_extract string_extract (istringstream "node (-1 {x})")
    directed_example
  = Throw directed_example InvalidIdentifierException.
Proof.
  apply (import_wraps_negative_ids "" "" string_extract string_extract 1%N " "%char
           "{x})" "x" directed_example).
  - lia.
  - reflexivity.
  - discriminate.
  - reflexivity.
  - reflexivity.
Defined.

(** [12x] is no id. *)
Lemma parse_id_refuses_what_is_not_an_id_witness :
  parse_id (mkIstream ") {a})" false false) ")" = None /\
  parse_id (mkIstream "12x) {a})" false false) ")" = None.
Proof.
  apply (parse_id_refuses_what_is_not_an_id 12%N "x"%char "" ")"%char " {a})").
  - reflexivity.
  - discriminate.
  - reflexivity.
  - reflexivity.
Defined.

Lemma directed_example_safe :
  safe_payloads (fun d => d) (fun d => d) string_extract string_extract directed_example.
Proof.
  split.
  - intros i n Hn. pose proof (elem_lt _ _ _ _ Hn) as Hi.
    change (element_count_ (nodes_of (g_this directed_example))) with 3%N in Hi.
    assert (i = 0 \/ i = 1 \/ i = 2)%N as [-> | [-> | ->]] by lia;
      vm_compute in Hn; injection Hn as <-; by vm_compute.
  - intros j e He. pose proof (elem_lt _ _ _ _ He) as Hj.
    change (element_count_ (edges_of (g_this directed_example))) with 2%N in Hj.
    assert (j = 0 \/ j = 1)%N as [-> | ->] by lia;
      vm_compute in He; injection He as <-; by vm_compute.
Qed.

(** The export of the directed example, read back and written again. *)
Lemma export_import_export_witness :
  exists text t,
    Graph_print (fun d => d) (fun d => d) directed_example = Ok directed_example text /\
    Graph_import "" "" string_extract string_extract (istringstream text)
      (mkGState [] [] [] (Graph_ctor false)) = Ok t tt /\
    Graph_wf t /\
    Graph_print (fun d => d) (fun d => d) t = Ok t text.
Proof.
  apply (export_import_export "" "" (fun d => d) (fun d => d) string_extract string_extract
           directed_example [] [] directed_example_wf directed_example_safe).
  - vm_compute. discriminate.
  - vm_compute. discriminate.
Defined.

(** A node added to the second of two graphs leaves the first alone. *)
Lemma graphs_do_not_interfere_witness :
  match run "" "" string_extract string_extract [] (op_add_node 1 1 "r")
          (world_of two_graphs) with
  | Ok w' _ => untouched 0 copy_source (world_of two_graphs) w'
  | Throw w' _ => untouched 0 copy_source (world_of two_graphs) w'
  | Undefined => False
  end.
Proof.
  apply (graphs_do_not_interfere "" "" string_extract string_extract [] (op_add_node 1 1 "r")
           (world_of two_graphs) 1%nat 0%nat (g_this copy_target) copy_source).
  - apply world_of_reachable. vm_compute. eauto.
  - reflexivity.
  - reflexivity.
  - lia.
  - reflexivity.
Defined.

(** The filled array, written. *)
Lemma print_writes_the_elements_witness :
  Array_print print_size_t filled_array = Ok filled_array "[7, 8]".
Proof.
  apply (print_writes_the_elements print_size_t filled_array [7%N; 8%N] filled_array_wf).
  - vm_compute. discriminate.
  - exact filled_array_elements.
Defined.

(** A traversal of the filled array visits two slots, and its end cannot
    be dereferenced. *)
Lemma traversal_visits_every_element_witness :
  (exists ps, range_for filled_array = Ok filled_array ps /\ length ps = 2%nat) /\
  (let* last := Array_end in iterator_deref last) filled_array
  = Throw filled_array OutOfRangeException.
Proof.
  destruct (traversal_visits_every_element filled_array filled_array_wf)
    as ((ps & Hrun & Hlen & _) & Hend & _).
  - vm_compute. discriminate.
  - split; [|exact Hend]. exists ps. split; [exact Hrun | exact Hlen].
Defined.
